(** * Orbit.js: Evented, Action, JSONAPISource and the cache integrity processor

    A shallow embedding of the event emitters ([resolve], [settle],
    [series]) and of the registry behind them ([on], [off], [one],
    [listeners]), of [Action], of the request chain, the request caps, the
    URL builders and [ajax] of [JSONAPISource], and of the reverse-link
    index kept by the cache integrity processor. *)

From stdpp Require Import base option list strings gmap fin_maps fin_sets.
From Stdlib Require Import ZArith Ascii String.

Set Warnings "-clear-no-such-hyp".

Local Open Scope string_scope.
Local Open Scope list_scope.

(** ** JavaScript values *)

Module JS.

(** The values that listeners, thunks and promises exchange.  [VObj] is an
    object known only by a tag (an [Error] instance, a transform, ...). *)
Inductive value : Type :=
| VUndefined
| VNull
| VBool (b : bool)
| VNum (n : Z)
| VStr (s : string)
| VObj (tag : string).

#[export] Instance value_eq_dec : EqDecision value.
Proof. solve_decision. Defined.

(** [if (v)] *)
Definition truthy (v : value) : bool :=
  match v with
  | VUndefined | VNull => false
  | VBool b => b
  | VNum n => negb (n =? 0)%Z
  | VStr s => negb (String.eqb s "")
  | VObj _ => true
  end.

(** Property access [v.p] throws on [undefined] and [null] only. *)
Definition nullish (v : value) : bool :=
  match v with
  | VUndefined | VNull => true
  | _ => false
  end.

(** The error raised by calling a property that is not a function. *)
Definition TypeError : value := VObj "TypeError".

(** A promise is represented by what it eventually does. *)
Inductive outcome : Type :=
| Fulfilled (v : value)
| Rejected (e : value)
| Pending.

#[export] Instance outcome_eq_dec : EqDecision outcome.
Proof. solve_decision. Defined.

(** What a call hands back: a plain value or a promise. *)
Inductive returned : Type :=
| RVal (v : value)
| RPromise (p : outcome).

(** A call either returns or throws. *)
Inductive completion : Type :=
| Return (r : returned)
| Throw (e : value).

(** [if (response)]: every promise object is truthy. *)
Definition truthy_ret (r : returned) : bool :=
  match r with
  | RVal v => truthy v
  | RPromise _ => true
  end.

(** [resolve(v)] and [reject(e)] of a promise under construction: only the
    first call settles it. *)
Definition settle_with (o : outcome) (p : outcome) : outcome :=
  match p with
  | Pending => o
  | _ => p
  end.

End JS.

Export JS.

(** ** Splitting event names: [eventNames.split(/\s+/)] *)

Module Names.

(** An event name is a string of UTF-16 code units.  Here it is a string of
    8-bit characters, each of which stands for the code unit of the same
    number: the names are those over U+0000 to U+00FF.  The members of the
    class [\s] in that range are the space, the five controls from the tab
    to the carriage return, and the no-break space U+00A0. *)
Definition is_ws (c : ascii) : bool :=
  let n := nat_of_ascii c in
  (n =? 32)%nat || ((9 <=? n)%nat && (n <=? 13)%nat) || (n =? 160)%nat.

(** [cur] is the piece being read, [in_ws] tells that the previous character
    belonged to a separator. *)
Fixpoint split_from (s cur : string) (in_ws : bool) : list string :=
  match s with
  | EmptyString => [cur]
  | String c s' =>
      if is_ws c then
        if in_ws then split_from s' "" true
        else cur :: split_from s' "" true
      else split_from s' (cur ++ String c "") false
  end.

Definition split_ws (s : string) : list string := split_from s "" false.

(** No character of [s] is a separator. *)
Fixpoint plain (s : string) : bool :=
  match s with
  | EmptyString => true
  | String c s' => negb (is_ws c) && plain s'
  end.

End Names.

(** ** Evented *)

Module Evented.

Import Names.

(** Functions and objects are compared by identity ([===]). *)
Definition fn := nat.
Definition obj := nat.

(** What a notifier keeps for a registered callback: the array
    [[callback, binding]]. *)
Definition registration : Type := fn * obj.

(** An element of the array that [listeners] gives and the emitters shift:
    a registration, or [undefined] where the registry held a value that is
    no notifier. *)
Definition listener : Type := option registration.

(** Modelled from the spec: the Notifier class (./notifier is not part of the
    sources at hand).  It keeps the listeners of one event in registration
    order; [addListener] appends the pair, [removeListener] takes out the
    pair registered for that callback and binding. *)
Record Notifier : Type := mkNotifier { notifier_listeners : list registration }.

(** Modelled from the spec: [Notifier.addListener(callback, binding)],
    listeners are kept in registration order. *)
Definition addListener (callback : fn) (binding : obj) (n : Notifier) : Notifier :=
  mkNotifier (notifier_listeners n ++ [(callback, binding)]).

Fixpoint remove_first (l : registration) (ls : list registration) : list registration :=
  match ls with
  | [] => []
  | x :: rest => if decide (x = l) then rest else x :: remove_first l rest
  end.

(** Modelled from the spec: [Notifier.removeListener(callback, binding)]
    takes out the pair registered for that callback and binding, the first
    one if it was registered more than once. *)
Definition removeListener (callback : fn) (binding : obj) (n : Notifier) : Notifier :=
  mkNotifier (remove_first (callback, binding) (notifier_listeners n)).

(** The object the interface is mixed into: its identity ([this]) and the
    field [_eventedNotifiers], [None] while it is [undefined].  The field
    holds an object literal, [{}]; the map has its own properties. *)
Record evented : Type := mkEvented {
  self : obj;
  _eventedNotifiers : option (gmap string Notifier)
}.

Definition notifiers (o : evented) : gmap string Notifier :=
  default ∅ (_eventedNotifiers o).

(** The properties an object literal inherits from [Object.prototype]. *)
Definition inherited_names : list string :=
  [ "constructor"; "hasOwnProperty"; "isPrototypeOf"; "propertyIsEnumerable";
    "toLocaleString"; "toString"; "valueOf"; "__proto__";
    "__defineGetter__"; "__defineSetter__"; "__lookupGetter__"; "__lookupSetter__" ].

Definition inherited (name : string) : bool := bool_decide (name ∈ inherited_names).

(** What [object._eventedNotifiers[eventName]] gives: the notifier kept
    under the name; or, for a name the object keeps nothing under and
    inherits, the inherited value, a function (the prototype itself for
    [__proto__]), which is truthy and has none of the properties of a
    notifier; or [undefined]. *)
Inductive found : Type :=
| Kept (notifier : Notifier)
| Foreign
| Nothing.

Definition lookup_notifier (m : gmap string Notifier) (eventName : string) : found :=
  match m !! eventName with
  | Some n => Kept n
  | None => if inherited eventName then Foreign else Nothing
  end.

(** [notifierForEvent(object, eventName, createIfUndefined)]: the object
    after the call and what the call returns.  A notifier is made only where
    the lookup gave a falsy value. *)
Definition notifierForEvent (o : evented) (eventName : string)
    (createIfUndefined : bool) : evented * found :=
  let m := notifiers o in
  match lookup_notifier m eventName with
  | Nothing =>
      if createIfUndefined
      then (mkEvented (self o) (Some (<[eventName := mkNotifier []]> m)),
            Kept (mkNotifier []))
      else (mkEvented (self o) (Some m), Nothing)
  | notifier => (mkEvented (self o) (Some m), notifier)
  end.

(** [removeNotifierForEvent(object, eventName)]: [delete] takes out a
    property of the object's own, and does nothing to an inherited one. *)
Definition removeNotifierForEvent (o : evented) (eventName : string) : evented :=
  match _eventedNotifiers o with
  | Some m =>
      match lookup_notifier m eventName with
      | Nothing => o
      | _ => mkEvented (self o) (Some (delete eventName m))
      end
  | None => o
  end.

(** [_binding || this] *)
Definition binding_or_this (o : evented) (_binding : option obj) : obj :=
  default (self o) _binding.

(** A call that changes the object and may throw: the object afterwards,
    and the exception that ended the call, if one did. *)
Definition ended : Type := evented * option value.

(** [names.forEach(f)]: an exception ends the loop, what the rounds before
    it did to the object stays. *)
Definition for_each (f : evented → string → ended) (o : evented)
    (names : list string) : ended :=
  foldl (λ acc name, match snd acc with
                     | Some _ => acc
                     | None => f (fst acc) name
                     end) (o, None) names.

(** One round of the [forEach] of [on].  [notifier.addListener] is no
    function where the lookup gave an inherited value. *)
Definition on_event (callback : fn) (binding : obj) (o : evented)
    (eventName : string) : ended :=
  let '(o1, notifier) := notifierForEvent o eventName true in
  match notifier with
  | Kept n => (mkEvented (self o1)
                 (Some (<[eventName := addListener callback binding n]> (notifiers o1))),
               None)
  | Foreign | Nothing => (o1, Some TypeError)
  end.

Definition on (o : evented) (eventNames : string) (callback : fn)
    (_binding : option obj) : ended :=
  let binding := binding_or_this o _binding in
  for_each (on_event callback binding) o (split_ws eventNames).

(** One round of the [forEach] of [off]; [callback] is [None] when the
    argument is missing. *)
Definition off_event (callback : option fn) (binding : obj) (o : evented)
    (eventName : string) : ended :=
  let '(o1, notifier) := notifierForEvent o eventName false in
  match notifier with
  | Nothing => (o1, None)
  | Kept n =>
      match callback with
      | Some cb => (mkEvented (self o1)
                      (Some (<[eventName := removeListener cb binding n]> (notifiers o1))),
                    None)
      | None => (removeNotifierForEvent o1 eventName, None)
      end
  | Foreign =>
      match callback with
      | Some cb => (o1, Some TypeError)
      | None => (removeNotifierForEvent o1 eventName, None)
      end
  end.

Definition off (o : evented) (eventNames : string) (callback : option fn)
    (_binding : option obj) : ended :=
  let binding := binding_or_this o _binding in
  for_each (off_event callback binding) o (split_ws eventNames).

(** What [notifier.listeners] adds to the array, by [concat]: the
    registrations of a notifier, one [undefined] for a value that has no
    property [listeners]. *)
Definition listeners_found (notifier : found) : list listener :=
  match notifier with
  | Kept n => Some <$> notifier_listeners n
  | Foreign => [None]
  | Nothing => []
  end.

(** [listeners(eventNames)]: a fresh array, the notifiers' own arrays are
    not shared with it. *)
Definition listeners_event (o : evented) (acc : list listener)
    (eventName : string) : list listener :=
  match snd (notifierForEvent o eventName false) with
  | Nothing => acc
  | notifier => acc ++ listeners_found notifier
  end.

Definition listeners (o : evented) (eventNames : string) : list listener :=
  foldl (listeners_event o) [] (split_ws eventNames).

(** [listeners] for one event name, on the notifiers directly. *)
Definition listeners_of (m : gmap string Notifier) (eventName : string) : list listener :=
  listeners_found (lookup_notifier m eventName).

(** The registrations kept under a name. *)
Definition registered (o : evented) (eventName : string) : list registration :=
  match notifiers o !! eventName with
  | Some n => notifier_listeners n
  | None => []
  end.

(** [one(eventName, callback, _binding)], as far as the registration goes.
    The name is taken as it is, it is not split; [callOnce] is the function
    the call makes, which applies [callback] and then takes itself out of
    the notifier. *)
Definition one (o : evented) (eventName : string) (callOnce : fn)
    (_binding : option obj) : ended :=
  on_event callOnce (binding_or_this o _binding) o eventName.

(** [off] as the specification words it, for the object and one event name:
    without a callback every listener of the event is gone, "subsequently,
    listeners(eventName) for that event is empty"; with a callback the call
    takes out a pair and comes back. *)
Definition off_as_worded (o : evented) (eventName : string) : Prop :=
  (∀ _binding, ∃ o', off o eventName None _binding = (o', None) ∧
                     listeners o' eventName = []) ∧
  (∀ callback _binding, ∃ o', off o eventName (Some callback) _binding = (o', None)).

(** *** The emitters [resolve], [settle] and [series]

    The three of them build [new Orbit.Promise(executor)] around a local
    function that shifts one listener off the array per call.  A run keeps
    the array being shifted, the promise under construction, the listeners
    applied so far and what went to [console.error]. *)

Record run : Type := mkRun {
  queue : list listener;
  composite : outcome;
  invoked : list listener;
  console : list value
}.

(** A step returns, throws, or finds its recursion budget spent. *)
Inductive res (A : Type) : Type :=
| Ok (a : A)
| Raise (e : value)
| OutOfFuel.
Arguments Ok {A} a.
Arguments Raise {A} e.
Arguments OutOfFuel {A}.

Definition M (A : Type) : Type := run → res A * run.

Definition mret {A} (a : A) : M A := λ st, (Ok a, st).

Definition mbind {A B} (m : M A) (k : A → M B) : M B :=
  λ st, match m st with
        | (Ok a, st') => k a st'
        | (Raise e, st') => (Raise e, st')
        | (OutOfFuel, st') => (OutOfFuel, st')
        end.

Notation "'let!' x ':=' m 'in' k" := (mbind m (λ x, k))
  (at level 10, x name, m at level 100, k at level 200).
Notation "'do!' m 'in' k" := (mbind m (λ _, k))
  (at level 10, m at level 100, k at level 200).

Definition raise {A} (e : value) : M A := λ st, (Raise e, st).

(** [try { m } catch (e) { h e }] *)
Definition try_catch {A} (m : M A) (h : value → M A) : M A :=
  λ st, match m st with
        | (Raise e, st') => h e st'
        | other => other
        end.

Definition resolve_ (v : value) : M unit :=
  λ st, (Ok (), mkRun (queue st) (settle_with (Fulfilled v) (composite st))
                      (invoked st) (console st)).

Definition reject_ (e : value) : M unit :=
  λ st, (Ok (), mkRun (queue st) (settle_with (Rejected e) (composite st))
                      (invoked st) (console st)).

Definition console_error (v : value) : M unit :=
  λ st, (Ok (), mkRun (queue st) (composite st) (invoked st) (console st ++ [v])).

(** [listeners.length === 0] and [listeners.shift()] *)
Definition peek : M (list listener) := λ st, (Ok (queue st), st).

Definition shift (l : listener) (rest : list listener) : M unit :=
  λ st, (Ok (), mkRun rest (composite st) (invoked st) (console st)).

(** A promise settles like the promise or value its handler hands back. *)
Definition adopt (r : returned) : outcome :=
  match r with
  | RVal v => Fulfilled v
  | RPromise p => p
  end.

(** [p.then(cb)]: the handler runs if [p] fulfils; what it throws rejects
    the derived promise. *)
Definition then_ (p : outcome) (cb : value → M returned) : M outcome :=
  match p with
  | Fulfilled v =>
      λ st, match cb v st with
            | (Ok r, st') => (Ok (adopt r), st')
            | (Raise e, st') => (Ok (Rejected e), st')
            | (OutOfFuel, st') => (OutOfFuel, st')
            end
  | _ => mret p
  end.

(** [p.catch(cb)] *)
Definition catch_ (p : outcome) (cb : value → M returned) : M outcome :=
  match p with
  | Rejected e =>
      λ st, match cb e st with
            | (Ok r, st') => (Ok (adopt r), st')
            | (Raise e', st') => (Ok (Rejected e'), st')
            | (OutOfFuel, st') => (OutOfFuel, st')
            end
  | _ => mret p
  end.

(** [response.then(cb)] on whatever the listener returned: a value that is
    not a promise has no [then] to call. *)
Definition response_then (response : returned) (cb : value → M returned) : M outcome :=
  match response with
  | RPromise p => then_ p cb
  | RVal _ => raise TypeError
  end.

(** [new Orbit.Promise(executor)]: an executor that throws rejects the
    promise, unless it is settled already. *)
Definition new_promise (executor : M returned) (ls : list listener)
    : option (outcome * list listener) :=
  match executor (mkRun ls Pending [] []) with
  | (Ok _, st) => Some (composite st, invoked st)
  | (Raise e, st) => Some (settle_with (Rejected e) (composite st), invoked st)
  | (OutOfFuel, _) => None
  end.

(** The state after [reject(e)] and after [resolve(v)]. *)
Definition reject_run (e : value) (st : run) : run :=
  mkRun (queue st) (settle_with (Rejected e) (composite st)) (invoked st) (console st).

Definition resolve_run (v : value) (st : run) : run :=
  mkRun (queue st) (settle_with (Fulfilled v) (composite st)) (invoked st) (console st).

(** How a handler's result settles the promise [then] or [catch] derives. *)
Definition handled (x : res returned * run) : res returned * run :=
  match x with
  | (Ok r, st) => (Ok (RPromise (adopt r)), st)
  | (Raise e, st) => (Ok (RPromise (Rejected e)), st)
  | (OutOfFuel, st) => (OutOfFuel, st)
  end.

(** The result of a statement call is dropped. *)
Definition dropped (x : res returned * run) : res returned * run :=
  match x with
  | (Ok _, st) => (Ok (RVal VUndefined), st)
  | other => other
  end.

(** What the [catch] of [resolve] does with the result of its handler: the
    derived promise is not kept. *)
Definition swallowed (x : res returned * run) : res returned * run :=
  match x with
  | (Ok _, st) => (Ok (RVal VUndefined), st)
  | (Raise _, st) => (Ok (RVal VUndefined), st)
  | (OutOfFuel, st) => (OutOfFuel, st)
  end.

(** The first argument of the first [console.error] of [settle]. *)
Definition ignored : value := VStr "Orbit ignored error in event listener".

Section Emitters.

(** The behaviour of the registered functions: [callback.apply(binding, args)]. *)
Variable apply : fn → obj → list value → completion.
Variable args : list value.

(** [listener[0].apply(listener[1], args)]: where the element is
    [undefined], reading [listener[0]] throws. *)
Definition response_of (l : listener) : completion :=
  match l with
  | Some (callback, binding) => apply callback binding args
  | None => Throw TypeError
  end.

(** The same within a run, with the element taken off the array recorded. *)
Definition apply_listener (l : listener) : M returned :=
  λ st, let st' := mkRun (queue st) (composite st) (invoked st ++ [l]) (console st) in
        match response_of l with
        | Return r => (Ok r, st')
        | Throw e => (Raise e, st')
        end.

(** [resolveEach] of [resolve] *)
Fixpoint resolveEach (fuel : nat) : M returned :=
  match fuel with
  | O => λ st, (OutOfFuel, st)
  | S fuel =>
      let! ls := peek in
      match ls with
      | [] => do! reject_ VUndefined in mret (RVal VUndefined)
      | listener :: rest =>
          do! shift listener rest in
          let! response := apply_listener listener in
          if truthy_ret response then
            let! p := response_then response
                        (λ success, do! resolve_ success in mret (RVal VUndefined)) in
            do! catch_ p (λ _, resolveEach fuel) in
            mret (RVal VUndefined)
          else
            do! resolveEach fuel in mret (RVal VUndefined)
      end
  end.

(** [settleEach] of [settle] *)
Fixpoint settleEach (fuel : nat) : M returned :=
  match fuel with
  | O => λ st, (OutOfFuel, st)
  | S fuel =>
      let! ls := peek in
      match ls with
      | [] => do! resolve_ VUndefined in mret (RVal VUndefined)
      | listener :: rest =>
          do! shift listener rest in
          let! response := try_catch (apply_listener listener)
                       (λ e, do! console_error ignored in
                             do! (if nullish e then raise TypeError else console_error e) in
                             mret (RVal VUndefined)) in
          if truthy_ret response then
            let! p := response_then response (λ _, settleEach fuel) in
            let! q := catch_ p (λ _, settleEach fuel) in
            mret (RPromise q)
          else
            do! settleEach fuel in mret (RVal VUndefined)
      end
  end.

(** [settleEach] of [series] *)
Fixpoint seriesEach (fuel : nat) : M returned :=
  match fuel with
  | O => λ st, (OutOfFuel, st)
  | S fuel =>
      let! ls := peek in
      match ls with
      | [] => do! resolve_ VUndefined in mret (RVal VUndefined)
      | listener :: rest =>
          do! shift listener rest in
          let! response := apply_listener listener in
          if truthy_ret response then
            let! p := response_then response (λ _, seriesEach fuel) in
            let! q := catch_ p (λ error, do! reject_ error in mret (RVal VUndefined)) in
            mret (RPromise q)
          else
            do! seriesEach fuel in mret (RVal VUndefined)
      end
  end.

(** The emitters on the array [this.listeners(eventNames)] yields: how the
    composite promise ends and which listeners were applied, in order.
    One call of the local function is spent per listener, and one more on
    the empty array. *)
Definition resolve_on (ls : list listener) : option (outcome * list listener) :=
  new_promise (resolveEach (S (List.length ls))) ls.

Definition settle_on (ls : list listener) : option (outcome * list listener) :=
  new_promise (settleEach (S (List.length ls))) ls.

Definition series_on (ls : list listener) : option (outcome * list listener) :=
  new_promise (seriesEach (S (List.length ls))) ls.

Definition resolve (o : evented) (eventNames : string) :=
  resolve_on (listeners o eventNames).

Definition settle (o : evented) (eventNames : string) :=
  settle_on (listeners o eventNames).

Definition series (o : evented) (eventNames : string) :=
  series_on (listeners o eventNames).

(** *** What a listener did, as the statements below name it *)

(** The listener threw [e], or the promise it returned rejects with [e]. *)
Definition fails_with (l : listener) (e : value) : Prop :=
  response_of l = Throw e ∨ response_of l = Return (RPromise (Rejected e)).

(** The listener returned nothing to wait for (a falsy value). *)
Definition returns_falsy (l : listener) : Prop :=
  ∃ v, response_of l = Return (RVal v) ∧ truthy v = false.

(** The listener returned a promise that fulfils with [v]. *)
Definition fulfils_with (l : listener) (v : value) : Prop :=
  response_of l = Return (RPromise (Fulfilled v)).

(** The listener returned a promise that rejects. *)
Definition rejects (l : listener) : Prop :=
  ∃ e, response_of l = Return (RPromise (Rejected e)).

(** The listener did not fail: nothing to wait for, or a fulfilled promise. *)
Definition passes (l : listener) : Prop :=
  returns_falsy l ∨ ∃ v, fulfils_with l v.

(** The listener has settled, one way or the other: it threw an error
    value, returned nothing to wait for, or returned a promise that fulfils
    or rejects. *)
Definition settled (l : listener) : Prop :=
  (∃ e, response_of l = Throw e ∧ nullish e = false) ∨ passes l ∨ rejects l.

(** [resolve] moves on to the next listener. *)
Definition skipped (l : listener) : Prop := returns_falsy l ∨ rejects l.

(** *** [resolve] as the specification words it

    What awaiting the result of the listener gives, if anything. *)
Definition awaited (l : listener) : option value :=
  match response_of l with
  | Return (RVal v) | Return (RPromise (Fulfilled v)) => Some v
  | _ => None
  end.

Definition truthy_awaited (l : listener) (v : value) : Prop :=
  awaited l = Some v ∧ truthy v = true.

(** "The first listener to return a truthy awaited value wins and its value
    is the result; if none do, composite rejects." *)
Definition resolve_as_worded (ls : list listener) : Prop :=
  (∀ pre l v post,
      ls = pre ++ l :: post →
      Forall (λ x, ¬ ∃ w, truthy_awaited x w) pre → truthy_awaited l v →
      resolve_on ls = Some (Fulfilled v, pre ++ [l])) ∧
  (Forall (λ x, ¬ ∃ w, truthy_awaited x w) ls →
      ∃ e invoked, resolve_on ls = Some (Rejected e, invoked)).

(** *** [series] and [settle] as the specification words them

    The listener fails. *)
Definition fails (l : listener) : Prop := ∃ e, fails_with l e.

(** "The first listener whose result rejects causes the composite promise
    to reject with that error, and no listener after the failing one is
    invoked; if no listener fails, the composite resolves." *)
Definition series_as_worded (ls : list listener) : Prop :=
  (∀ pre l e post,
      ls = pre ++ l :: post → Forall (λ x, ¬ fails x) pre → fails_with l e →
      series_on ls = Some (Rejected e, pre ++ [l])) ∧
  (Forall (λ x, ¬ fails x) ls → ∃ v, series_on ls = Some (Fulfilled v, ls)).

(** The listener returned a promise that never settles. *)
Definition hangs (l : listener) : Prop := response_of l = Return (RPromise Pending).

(** "Invokes every listener; the composite promise always resolves (never
    rejects) once all listeners have settled." *)
Definition settle_as_worded (ls : list listener) : Prop :=
  Forall (λ x, ¬ hangs x) ls → ∃ v, settle_on ls = Some (Fulfilled v, ls).

(** *** The course of [series], listener by listener *)

Definition and_then (l : listener) (r : outcome * list listener) :=
  (fst r, l :: snd r).

Fixpoint series_course (ls : list listener) : outcome * list listener :=
  match ls with
  | [] => (Fulfilled VUndefined, [])
  | l :: rest =>
      match response_of l with
      | Throw e => (Rejected e, [l])
      | Return (RVal v) =>
          if truthy v then (Rejected TypeError, [l])
          else and_then l (series_course rest)
      | Return (RPromise (Fulfilled _)) => and_then l (series_course rest)
      | Return (RPromise (Rejected e)) => (Rejected e, [l])
      | Return (RPromise Pending) => (Pending, [l])
      end
  end.

(** A result that leaves nothing for an enclosing [catch] to handle. *)
Definition quiet (r : res returned) : Prop :=
  ∃ x, r = Ok x ∧ ∀ e, adopt x ≠ Rejected e.

End Emitters.

End Evented.

(** ** Action *)

Module Action.

(** An action, with the promises it has made so far.  Promises are kept in
    [promises] and named by their position; [complete] names the current
    one, [didProcess] and [didNotProcess] name the promise their [resolve]
    and [reject] belong to.  [_process] tells what the wrapped function does
    at its k-th call, [calls] counts the calls made. *)
Record Action : Type := mkAction {
  _process : nat → completion;
  calls : nat;
  processing : bool;
  complete : nat;
  didProcess : nat;
  didNotProcess : nat;
  promises : list outcome
}.

(** [reset()] *)
Definition reset (a : Action) : Action :=
  let p := List.length (promises a) in
  mkAction (_process a) (calls a) false p p p (promises a ++ [Pending]).

(** [new Action(options)] *)
Definition new (process : nat → completion) : Action :=
  reset (mkAction process 0 false 0 0 0 []).

(** [this.didProcess(v)]: the [resolve] of the promise made by the last
    [reset]. *)
Definition call_didProcess (v : value) (a : Action) : Action :=
  mkAction (_process a) (calls a) (processing a) (complete a) (didProcess a)
           (didNotProcess a)
           (alter (settle_with (Fulfilled v)) (didProcess a) (promises a)).

(** [this.didNotProcess(e)]: [this.processing = false; reject(e)]. *)
Definition call_didNotProcess (e : value) (a : Action) : Action :=
  mkAction (_process a) (calls a) false (complete a) (didProcess a)
           (didNotProcess a)
           (alter (settle_with (Rejected e)) (didNotProcess a) (promises a)).

(** [process()]: the action afterwards and the promise returned.  A promise
    returned by the wrapped function is followed to its end here. *)
Definition process (a : Action) : Action * nat :=
  if processing a then (a, complete a)
  else
    let a1 := mkAction (_process a) (S (calls a)) true (complete a)
                       (didProcess a) (didNotProcess a) (promises a) in
    let a2 :=
      match _process a (calls a) with
      | Return (RPromise (Fulfilled v)) => call_didProcess v a1
      | Return (RPromise (Rejected e)) => call_didNotProcess e a1
      | Return (RPromise Pending) => a1
      | Return (RVal ret) => call_didProcess ret a1
      | Throw e => call_didNotProcess e a1
      end in
    (a2, complete a2).

(** How the promise [complete] of the action stands. *)
Definition completion_of (a : Action) : option outcome :=
  promises a !! complete a.

(** The wrapped function fails with [e] at its next call. *)
Definition fails_next (a : Action) (e : value) : Prop :=
  _process a (calls a) = Throw e ∨
  _process a (calls a) = Return (RPromise (Rejected e)).

(** The wrapped function succeeds with [v] at its next call. *)
Definition succeeds_next (a : Action) (v : value) : Prop :=
  _process a (calls a) = Return (RVal v) ∨
  _process a (calls a) = Return (RPromise (Fulfilled v)).

(** The states an action goes through: it is made by [new], then [reset]
    and [process] are called on it, in any order. *)
Inductive reachable : Action → Prop :=
| reachable_new (f : nat → completion) : reachable (new f)
| reachable_reset (a : Action) : reachable a → reachable (reset a)
| reachable_process (a : Action) : reachable a → reachable (process a).1.

(** The state [reset] leaves: not processing, a pending promise of its own. *)
Definition fresh (a : Action) : Prop :=
  processing a = false ∧ didProcess a = complete a ∧
  didNotProcess a = complete a ∧ promises a !! complete a = Some Pending.

(** A failure as the specification words it: the promise that was
    [complete] rejects with the failure, [processing] is [false] again, and
    "complete is rebuilt" so that a call of [process] that succeeds then
    resolves it. *)
Definition failure_as_worded (a : Action) : Prop :=
  ∀ e, fresh a → fails_next a e →
    let a1 := (process a).1 in
    promises a1 !! complete a = Some (Rejected e) ∧
    processing a1 = false ∧
    ∀ v, succeeds_next a1 v → completion_of (process a1).1 = Some (Fulfilled v).

End Action.

(** ** JSONAPISource *)

Module JSONAPI.

(** [array.join(sep)] *)
Fixpoint join (sep : string) (parts : list string) : string :=
  match parts with
  | [] => ""
  | [p] => p
  | p :: rest => p ++ sep ++ join sep rest
  end.

(** [if (s)] on a string that may be [undefined]: the string, when it is
    truthy. *)
Definition present (s : option string) : option string :=
  match s with
  | Some s => if String.eqb s "" then None else Some s
  | None => None
  end.

(** [if (n)] on a number that may be [undefined]. *)
Definition truthy_num (n : option Z) : bool :=
  match n with
  | Some n => negb (n =? 0)%Z
  | None => false
  end.

(** What the source asks of its serializer (./serializer and
    ./jsonapi/serializer are not part of the sources at hand). *)
Record Serializer : Type := mkSerializer {
  resourceType : string → string;
  resourceId : string → string → option string;
  resourceRelationship : string → string → string
}.

Record JSONAPISource : Type := mkSource {
  namespace : option string;
  host : option string;
  maxRequestsPerFetch : option Z;
  maxRequestsPerTransform : option Z;
  serializer : Serializer
}.

Definition resourceNamespace (src : JSONAPISource) (type : string) := namespace src.

Definition resourceHost (src : JSONAPISource) (type : string) := host src.

(** [if (x) { l.push(x); }] *)
Definition push_present (x : option string) (l : list string) : list string :=
  match present x with
  | Some x => l ++ [x]
  | None => l
  end.

Definition resourcePath (src : JSONAPISource) (type : string) (id : option string)
    : string :=
  let path := [resourceType (serializer src) type] in
  let path :=
    match present id with
    | Some id => push_present (resourceId (serializer src) type id) path
    | None => path
    end in
  join "/" path.

Definition resourceURL (src : JSONAPISource) (type : string) (id : option string)
    : string :=
  let host := resourceHost src type in
  let namespace := resourceNamespace src type in
  let url := [] in
  let url := push_present host url in
  let url := push_present namespace url in
  let url := url ++ [resourcePath src type id] in
  let url := join "/" url in
  match present host with
  | Some _ => url
  | None => "/" ++ url
  end.

Definition resourceRelationshipURL (src : JSONAPISource) (type : string)
    (id : option string) (relationship : string) : string :=
  resourceURL src type id ++ "/relationships/" ++
  resourceRelationship (serializer src) type relationship.

Definition relatedResourceURL (src : JSONAPISource) (type : string)
    (id : option string) (relationship : string) : string :=
  resourceURL src type id ++ "/" ++
  resourceRelationship (serializer src) type relationship.

(** [[x]] when [x] is truthy, nothing otherwise. *)
Definition segment (x : option string) : list string :=
  match present x with
  | Some x => [x]
  | None => []
  end.

(** The parts of the URL of a resource, in their order: host, namespace,
    resource type, resource id; each of the optional ones is left out when
    it is missing or empty. *)
Definition url_segments (src : JSONAPISource) (type : string) (id : option string)
    : list string :=
  segment (host src) ++ segment (namespace src) ++
  [resourceType (serializer src) type] ++
  match present id with
  | Some id => segment (resourceId (serializer src) type id)
  | None => []
  end.

(** A request put to the server. *)
Record ajax_call : Type := mkAjax { ajax_method : string; ajax_url : string }.

(** Modelled from the spec: the request the processor of [addToHasMany]
    sends (./jsonapi/transform-requests is not part of the sources at
    hand): a POST to the relationship endpoint of the record. *)
Definition addToHasMany_request (src : JSONAPISource) (type id relationship : string)
    : ajax_call :=
  mkAjax "POST" (resourceRelationshipURL src type (Some id) relationship).

(** *** [ajax] *)

Section Ajax.

(** [JSON.stringify], and the headers of the source ([this.headers]); a
    headers object is known by what it is only. *)
Variable JSON_stringify : value → string.
Variable headers : Type.
Variable source_headers : headers.

(** The settings object handed to [ajax] and on to [Orbit.ajax]; a field is
    [None] while it is missing, [data] is [undefined] then. *)
Record ajaxSettings : Type := mkSettings {
  settings_url : option string;
  settings_type : option string;
  settings_dataType : option string;
  settings_context : option JSONAPISource;
  settings_data : value;
  settings_contentType : option string;
  settings_headers : option headers
}.

Definition ajaxContentType : string := "application/vnd.api+json; charset=utf-8".

Definition ajaxHeaders : headers := source_headers.

(** [settings.data && method !== 'GET'] *)
Definition with_body (method : string) (settings : ajaxSettings) : bool :=
  truthy (settings_data settings) && negb (String.eqb method "GET").

(** The settings as the executor of [ajax] leaves them, up to the two
    callbacks.  The object is the caller's: it is changed in place. *)
Definition ajax_settings (src : JSONAPISource) (url method : string)
    (settings : ajaxSettings) : ajaxSettings :=
  let contentType :=
    if with_body method settings then
      match present (settings_contentType settings) with
      | Some contentType => Some contentType
      | None => Some ajaxContentType
      end
    else settings_contentType settings in
  let data :=
    if with_body method settings
    then VStr (JSON_stringify (settings_data settings))
    else settings_data settings in
  let headers :=
    match settings_headers settings with
    | Some headers => Some headers
    | None => Some ajaxHeaders
    end in
  mkSettings (Some url) (Some method) (Some "json") (Some src) data contentType headers.

(** What [Orbit.ajax] does with the settings: it calls [success], or
    [error], or neither, or it throws. *)
Inductive reply : Type :=
| Success (json : value)
| Error (jqXHR : value)
| Silent
| Broken (e : value).

(** [ajax(url, method, settings)]: the settings [Orbit.ajax] is called with
    and the promise returned. *)
Definition ajax (transport : ajaxSettings → reply) (src : JSONAPISource)
    (url method : string) (settings : ajaxSettings) : ajaxSettings * outcome :=
  let settings := ajax_settings src url method settings in
  (settings,
   match transport settings with
   | Success json => Fulfilled json
   | Error jqXHR => Rejected jqXHR
   | Silent => Pending
   | Broken e => Rejected e
   end).

End Ajax.

Arguments mkSettings {headers} _ _ _ _ _ _ _.
Arguments settings_url {headers} _.
Arguments settings_type {headers} _.
Arguments settings_dataType {headers} _.
Arguments settings_context {headers} _.
Arguments settings_data {headers} _.
Arguments settings_contentType {headers} _.
Arguments settings_headers {headers} _.
Arguments with_body {headers} method settings.
Arguments ajaxHeaders {headers} source_headers.
Arguments ajax_settings JSON_stringify {headers} source_headers src url method settings.
Arguments ajax JSON_stringify {headers} source_headers transport src url method settings.

Section Requests.

(** Transforms, queries and the requests derived from them; the derivation
    ([getTransformRequests], [getFetchRequests]) and the request processors
    live in modules that are not part of the sources at hand. *)
Variables transform query request : Type.
Variable getTransformRequests : transform → list request.
Variable getFetchRequests : query → list request.

(** What [processors[request.op](source, request)] comes to: a promise
    that fulfils with more transforms or with nothing, one that rejects,
    one that stays pending; or the call throws. *)
Inductive processed : Type :=
| Done (additionalTransforms : option (list transform))
| Failed (e : value)
| Hangs
| Throws (e : value).

(** The errors of ./lib/exceptions that the source raises.  The message of
    both is made of the number of requests needed and of the limit. *)
Inductive exception : Type :=
| TransformNotAllowed (needed : nat) (limit : Z) (t : transform)
| FetchNotAllowed (needed : nat) (limit : Z) (q : query)
| Other (e : value).

Inductive promised (A : Type) : Type :=
| Resolves (a : A)
| Rejects (e : exception)
| Unsettled.
Arguments Resolves {A} a.
Arguments Rejects {A} e.
Arguments Unsettled {A}.

(** [_processRequests(requests, processors)]: the chain of [then]s runs the
    processors one after the other; [transforms] collects their results and
    [dispatched] the requests that reached a processor. *)
Fixpoint processRequests_from (processors : request → processed)
    (requests : list request) (transforms : list transform)
    (dispatched : list request) : promised (list transform) * list request :=
  match requests with
  | [] => (Resolves transforms, dispatched)
  | r :: rest =>
      match processors r with
      | Done additionalTransforms =>
          processRequests_from processors rest
            (transforms ++ default [] additionalTransforms) (dispatched ++ [r])
      | Failed e | Throws e => (Rejects (Other e), dispatched ++ [r])
      | Hangs => (Unsettled, dispatched ++ [r])
      end
  end.

Definition _processRequests (processors : request → processed)
    (requests : list request) : promised (list transform) * list request :=
  processRequests_from processors requests [] [].

(** [limit && requests.length > limit] *)
Definition exceeds (limit : option Z) (requests : list request) : bool :=
  truthy_num limit && (default 0%Z limit <? Z.of_nat (List.length requests))%Z.

(** [_transform(transform)]: the promise returned and the requests
    dispatched. *)
Definition _transform (src : JSONAPISource)
    (TransformRequestProcessors : request → processed) (t : transform)
    : promised (list transform) * list request :=
  let requests := getTransformRequests t in
  if exceeds (maxRequestsPerTransform src) requests then
    (Rejects (TransformNotAllowed (List.length requests)
                (default 0%Z (maxRequestsPerTransform src)) t), [])
  else
    match _processRequests TransformRequestProcessors requests with
    | (Resolves transforms, d) => (Resolves (t :: transforms), d)
    | other => other
    end.

(** [_fetch(query)] *)
Definition _fetch (src : JSONAPISource)
    (FetchRequestProcessors : request → processed) (q : query)
    : promised (list transform) * list request :=
  let requests := getFetchRequests q in
  if exceeds (maxRequestsPerFetch src) requests then
    (Rejects (FetchNotAllowed (List.length requests)
                (default 0%Z (maxRequestsPerFetch src)) q), [])
  else _processRequests FetchRequestProcessors requests.

(** The processor of the request succeeds, and the transforms it adds
    ([additionalTransforms], nothing when that is falsy). *)
Definition request_succeeds (processors : request → processed) (r : request) : Prop :=
  ∃ additionalTransforms, processors r = Done additionalTransforms.

Definition added (processors : request → processed) (r : request) : list transform :=
  match processors r with
  | Done additionalTransforms => default [] additionalTransforms
  | _ => []
  end.

(** The processor of the request fails with [e]: its promise rejects, or
    the call throws. *)
Definition request_fails (processors : request → processed) (r : request)
    (e : value) : Prop :=
  processors r = Failed e ∨ processors r = Throws e.

(** [n] requests are within the limit: none is set, it is zero, or it is at
    least [n]. *)
Definition within (limit : option Z) (n : nat) : Prop :=
  match limit with
  | None => True
  | Some limit => limit = 0%Z ∨ (Z.of_nat n ≤ limit)%Z
  end.

(** The caps as the specification words them: whenever the limit is set and
    the requests derived are more than the limit, the call is rejected with
    the error of its kind and nothing is dispatched. *)
Definition caps_as_worded (src : JSONAPISource)
    (processors : request → processed) : Prop :=
  (∀ t limit, maxRequestsPerTransform src = Some limit →
      (limit < Z.of_nat (List.length (getTransformRequests t)))%Z →
      ∃ needed, _transform src processors t =
                (Rejects (TransformNotAllowed needed limit t), [])) ∧
  (∀ q limit, maxRequestsPerFetch src = Some limit →
      (limit < Z.of_nat (List.length (getFetchRequests q)))%Z →
      ∃ needed, _fetch src processors q =
                (Rejects (FetchNotAllowed needed limit q), [])).

End Requests.

Arguments Done {transform} additionalTransforms.
Arguments Failed {transform} e.
Arguments Hangs {transform}.
Arguments Throws {transform} e.
Arguments TransformNotAllowed {transform query} needed limit t.
Arguments FetchNotAllowed {transform query} needed limit q.
Arguments Other {transform query} e.
Arguments Resolves {transform query A} a.
Arguments Rejects {transform query A} e.
Arguments Unsettled {transform query A}.
Arguments processRequests_from {transform query request} processors requests
  transforms dispatched.
Arguments _processRequests {transform query request} processors requests.
Arguments exceeds {request} limit requests.
Arguments _transform {transform query request} getTransformRequests src
  TransformRequestProcessors t.
Arguments _fetch {transform query request} getFetchRequests src
  FetchRequestProcessors q.
Arguments caps_as_worded {transform query request} getTransformRequests
  getFetchRequests src processors.
Arguments request_succeeds {transform request} processors r.
Arguments added {transform request} processors r.
Arguments request_fails {transform request} processors r e.

End JSONAPI.

(** ** The cache and its integrity processor

    Of this part the sources at hand hold the tests only
    (cache-integrity-processor-test.js); the cache and the processor are
    modelled from the specification, and from what the tests fix where the
    specification is silent. *)

Module Integrity.

Import JSONAPI.

(** [string.split(sep)] for a separator of one character. *)
Fixpoint split_at (sep : ascii) (s cur : string) : list string :=
  match s with
  | EmptyString => [cur]
  | String c s' =>
      if Ascii.eqb c sep then cur :: split_at sep s' ""
      else split_at sep s' (cur ++ String c "")
  end.

Definition split (sep : ascii) (s : string) : list string := split_at sep s "".

(** The character [sep] does not occur in [s]. *)
Fixpoint free_of (sep : ascii) (s : string) : bool :=
  match s with
  | EmptyString => true
  | String c s' => negb (Ascii.eqb c sep) && free_of sep s'
  end.

(** Record identity, [{ type, id }], both strings. *)
Record identity : Type := mkIdentity { type : string; id : string }.

#[export] Instance identity_eq_dec : EqDecision identity.
Proof. solve_decision. Defined.

(** Modelled from the spec: [toIdentifier] of lib/identifiers, the canonical
    string form ["type:id"] of an identity. *)
Definition toIdentifier (r : identity) : string := type r ++ ":" ++ id r.

(** Modelled from the spec: [parseIdentifier] of lib/identifiers, the
    identity read from the pieces of ["type:id"] around the colon. *)
Definition parseIdentifier (identifier : string) : identity :=
  match split ":" identifier with
  | t :: i :: _ => mkIdentity t i
  | [t] => mkIdentity t ""
  | [] => mkIdentity "" ""
  end.

(** The [data] member of a relationship: missing, [null], one identifier
    (hasOne), or a set of identifiers (hasMany). *)
Inductive data : Type :=
| NoData
| Null
| One (identifier : string)
| Many (identifiers : gset string).

(** A record, as far as its relationships go:
    [{ type, id, relationships: { name: { data } } }]. *)
Record record : Type := mkRecord {
  identity_of : identity;
  relationships : gmap string data
}.

(** The identifiers a relationship points at. *)
Definition pointers (d : data) : list string :=
  match d with
  | NoData | Null => []
  | One i => [i]
  | Many s => elements s
  end.

(** The [type] of a relationship in the schema. *)
Inductive kind : Type := hasOne | hasMany.

(** The operations, with the payload of each. *)
Inductive operation : Type :=
| addRecord (r : record)
| replaceRecord (r : record)
| removeRecord (r : identity)
| replaceKey (r : identity) (key : string) (v : value)
| replaceAttribute (r : identity) (attribute : string) (v : value)
| addToHasMany (r : identity) (relationship : string) (relatedRecord : identity)
| removeFromHasMany (r : identity) (relationship : string) (relatedRecord : identity)
| replaceHasMany (r : identity) (relationship : string) (relatedRecords : list identity)
| replaceHasOne (r : identity) (relationship : string) (relatedRecord : option identity).

(** Modelled from the spec: the cache (orbit-common/cache is not part of the
    sources at hand), as far as the integrity processor is concerned: the
    kind of each relationship in the schema, the records under [type] and
    [id], and the processor's reverse index
    [_rev[relatedType][relatedId][sourcePath] = true]. *)
Record cache : Type := mkCache {
  relationshipKind : string → string → kind;
  records : gmap string (gmap string record);
  _rev : gmap string (gmap string (gset string))
}.

Definition with_rev (c : cache) (rev : gmap string (gmap string (gset string))) : cache :=
  mkCache (relationshipKind c) (records c) rev.

Definition with_records (c : cache) (rs : gmap string (gmap string record)) : cache :=
  mkCache (relationshipKind c) rs (_rev c).

(** Modelled from the spec: [cache.get([type, id])]. *)
Definition get_record (c : cache) (r : identity) : option record :=
  records c !! type r ≫= λ byId, byId !! id r.

(** Modelled from the spec: [cache.has([type, id])]. *)
Definition has_record (c : cache) (r : identity) : bool :=
  match get_record c r with
  | Some _ => true
  | None => false
  end.

(** Modelled from the spec:
    [cache.get([type, id, 'relationships', relationship, 'data'])]. *)
Definition get_data (c : cache) (r : identity) (relationship : string) : data :=
  default NoData (get_record c r ≫= λ rec, relationships rec !! relationship).

(** Modelled from the spec: the path of the slot of [record.relationship]
    that points at [relatedRecord]:
    [type/id/relationships/r/data] for a hasOne relationship, with
    [/relatedType:relatedId] behind it for a hasMany relationship. *)
Definition sourcePath (c : cache) (r : identity) (relationship : string)
    (relatedRecord : identity) : string :=
  let path := [type r; id r; "relationships"; relationship; "data"] in
  let path :=
    match relationshipKind c (type r) relationship with
    | hasMany => path ++ [toIdentifier relatedRecord]
    | hasOne => path
    end in
  join "/" path.

(** Modelled from the spec: [_rev[Y.type][Y.id][path] = true], the objects
    on the way made when they are missing. *)
Definition set_rev (relatedRecord : identity) (path : string)
    (rev : gmap string (gmap string (gset string))) : gmap string (gmap string (gset string)) :=
  let byId := default ∅ (rev !! type relatedRecord) in
  let paths := default ∅ (byId !! id relatedRecord) in
  <[type relatedRecord := <[id relatedRecord := {[path]} ∪ paths]> byId]> rev.

(** Modelled from the spec: [delete _rev[Y.type][Y.id][path]]; the object
    [_rev[Y.type][Y.id]] stays, empty if need be. *)
Definition delete_rev (relatedRecord : identity) (path : string)
    (rev : gmap string (gmap string (gset string))) : gmap string (gmap string (gset string)) :=
  match rev !! type relatedRecord with
  | Some byId =>
      match byId !! id relatedRecord with
      | Some paths =>
          <[type relatedRecord := <[id relatedRecord := paths ∖ {[path]}]> byId]> rev
      | None => rev
      end
  | None => rev
  end.

(** Modelled from the spec: the entry for the pointer from
    [record.relationship] to [relatedRecord] is made, or cleared. *)
Definition addRevLink (c : cache) (r : identity) (relationship : string)
    (relatedRecord : identity) : cache :=
  with_rev c (set_rev relatedRecord (sourcePath c r relationship relatedRecord) (_rev c)).

Definition removeRevLink (c : cache) (r : identity) (relationship : string)
    (relatedRecord : identity) : cache :=
  with_rev c (delete_rev relatedRecord (sourcePath c r relationship relatedRecord) (_rev c)).

Definition addRevLinks (r : identity) (relationship : string)
    (relatedRecords : list identity) (c : cache) : cache :=
  foldl (λ c y, addRevLink c r relationship y) c relatedRecords.

Definition removeRevLinks (r : identity) (relationship : string)
    (relatedRecords : list identity) (c : cache) : cache :=
  foldl (λ c y, removeRevLink c r relationship y) c relatedRecords.

(** Modelled from the spec: the scan of the relationships of a record, every
    pointer with the relationship it belongs to. *)
Definition record_pointers (rec : record) : list (string * identity) :=
  map_to_list (relationships rec) ≫=
    λ '(relationship, d), (λ i, (relationship, parseIdentifier i)) <$> pointers d.

Definition addRecordLinks (rec : record) (c : cache) : cache :=
  foldl (λ c '(relationship, y), addRevLink c (identity_of rec) relationship y)
        c (record_pointers rec).

Definition removeRecordLinks (rec : record) (c : cache) : cache :=
  foldl (λ c '(relationship, y), removeRevLink c (identity_of rec) relationship y)
        c (record_pointers rec).

(** Modelled from the spec: the operation that takes one back-pointer to
    [r] out of the record it sits in.  The path names that record and the
    relationship. *)
Definition clearInverseOp (c : cache) (r : identity) (path : string) : operation :=
  let segments := split "/" path in
  let source := mkIdentity (nth 0 segments "") (nth 1 segments "") in
  let relationship := nth 3 segments "" in
  match relationshipKind c (type source) relationship with
  | hasMany => removeFromHasMany source relationship r
  | hasOne => replaceHasOne source relationship None
  end.

(** The back-pointers recorded for [r]. *)
Definition rev_of (c : cache) (r : identity) : option (gset string) :=
  _rev c !! type r ≫= λ byId, byId !! id r.

(** Modelled from the spec: the walk over [_rev[type][id]] for
    [removeRecord], one operation for each back-pointer. *)
Definition clearInverseRelationshipOps (c : cache) (r : identity) : list operation :=
  clearInverseOp c r <$> elements (default ∅ (rev_of c r)).

(** Modelled from the spec: the hook [before(op)] of the integrity
    processor (cache/operation-processors/cache-integrity-processor is not
    part of the sources at hand).  Each hook gives the cache with the index
    as the hook leaves it, and the operations the hook returns; this one has
    nothing to do, as in every test. *)
Definition before (c : cache) (op : operation) : cache * list operation := (c, []).

(** The identifier [i] is not among the new related records. *)
Definition notin (new : list identity) (i : string) : bool :=
  bool_decide (i ∉ (toIdentifier <$> new)).

(** The pointers of the record as it was that the new record has not. *)
Definition removed_pointers (prior new : record) : list (string * identity) :=
  filter (λ p, p ∉ record_pointers new) (record_pointers prior).

(** Modelled from the spec: the hook [after(op)].  It is asked before the
    operation is performed on the records, as the tests do, and so sees the
    relationship as it was: it clears the entries of the pointers that go
    away ([removeFromHasMany]; the old record of [replaceHasOne]; the
    records missing from the new set of [replaceHasMany]; the pointers that
    [replaceRecord] drops), and for [removeRecord] it clears the entries of
    the pointers of the record itself and returns one operation for each
    back-pointer to it. *)
Definition after (c : cache) (op : operation) : cache * list operation :=
  match op with
  | replaceHasOne r relationship _ =>
      (removeRevLinks r relationship
         (parseIdentifier <$> pointers (get_data c r relationship)) c, [])
  | replaceHasMany r relationship relatedRecords =>
      let prior := pointers (get_data c r relationship) in
      let missing := filter (λ i, notin relatedRecords i = true) prior in
      (removeRevLinks r relationship (parseIdentifier <$> missing) c, [])
  | removeFromHasMany r relationship relatedRecord =>
      (removeRevLink c r relationship relatedRecord, [])
  | replaceRecord rec =>
      match get_record c (identity_of rec) with
      | Some prior =>
          (foldl (λ c '(relationship, y), removeRevLink c (identity_of rec) relationship y)
                 c (removed_pointers prior rec), [])
      | None => (c, [])
      end
  | removeRecord r =>
      let ops := clearInverseRelationshipOps c r in
      match get_record c r with
      | Some prior => (removeRecordLinks prior c, ops)
      | None => (c, ops)
      end
  | _ => (c, [])
  end.

(** Modelled from the spec: the hook [finally(op)].  It makes the entries
    of the new pointers ([addToHasMany], [replaceHasOne], [replaceHasMany],
    the relationships of [addRecord] and [replaceRecord]); an entry that is
    there already stays as it is.  For [removeRecord] it deletes
    [_rev[type][id]]. *)
Definition finally (c : cache) (op : operation) : cache * list operation :=
  match op with
  | replaceHasOne r relationship (Some relatedRecord) =>
      (addRevLink c r relationship relatedRecord, [])
  | replaceHasMany r relationship relatedRecords =>
      (addRevLinks r relationship relatedRecords c, [])
  | addToHasMany r relationship relatedRecord =>
      (addRevLink c r relationship relatedRecord, [])
  | addRecord rec | replaceRecord rec => (addRecordLinks rec c, [])
  | removeRecord r =>
      (with_rev c (alter (delete (id r)) (type r) (_rev c)), [])
  | _ => (c, [])
  end.

(** The paths recorded for [y], none when [_rev[y.type][y.id]] is missing. *)
Definition back_pointers (c : cache) (y : identity) : gset string :=
  default ∅ (rev_of c y).

(** The same on the index alone. *)
Definition paths_at (rev : gmap string (gmap string (gset string))) (y : identity) : gset string :=
  default ∅ (rev !! type y ≫= λ byId, byId !! id y).

(** An entry of the index: the path [p] is recorded for the record [y]. *)
Definition entry (c : cache) (y : identity) (p : string) : Prop :=
  p ∈ back_pointers c y.

(** An operation that takes a pointer to [X] out of the record holding it. *)
Definition compensates (X : identity) (op : operation) : Prop :=
  (∃ source relationship, op = removeFromHasMany source relationship X) ∨
  (∃ source relationship, op = replaceHasOne source relationship None).

(** The three hooks in a row on the same cache, as the tests call them. *)
Definition hooks (c : cache) (op : operation) : cache :=
  let '(c, _) := before c op in
  let '(c, _) := after c op in
  fst (finally c op).

(** Modelled from the spec: [reset(data)] replaces the records and builds
    the index from nothing. *)
Definition reset (kinds : string → string → kind)
    (data : gmap string (gmap string record)) : cache :=
  map_fold (λ _ byId c, map_fold (λ _ rec c, addRecordLinks rec c) c byId)
           (mkCache kinds data ∅) data.

(** Modelled from the spec: what an operation does to the records.  An
    operation on a record that is not in the cache changes nothing. *)
Definition set_data (c : cache) (r : identity) (relationship : string)
    (f : data → data) : cache :=
  match get_record c r with
  | Some rec =>
      let rec' := mkRecord (identity_of rec)
                    (<[relationship := f (get_data c r relationship)]> (relationships rec)) in
      with_records c (<[type r := <[id r := rec']> (default ∅ (records c !! type r))]>
                        (records c))
  | None => c
  end.

(** The set a hasMany relationship holds, empty while it has no data. *)
Definition members (d : data) : gset string :=
  match d with
  | Many s => s
  | _ => ∅
  end.

(** Modelled from the spec: the operation itself, on the records. *)
Definition perform (c : cache) (op : operation) : cache :=
  match op with
  | addRecord rec | replaceRecord rec =>
      let r := identity_of rec in
      with_records c (<[type r := <[id r := rec]> (default ∅ (records c !! type r))]>
                        (records c))
  | removeRecord r => with_records c (alter (delete (id r)) (type r) (records c))
  | replaceKey _ _ _ | replaceAttribute _ _ _ => c
  | addToHasMany r relationship y =>
      set_data c r relationship (λ d, Many ({[toIdentifier y]} ∪ members d))
  | removeFromHasMany r relationship y =>
      set_data c r relationship (λ d, Many (members d ∖ {[toIdentifier y]}))
  | replaceHasMany r relationship ys =>
      set_data c r relationship (λ _, Many (list_to_set (toIdentifier <$> ys)))
  | replaceHasOne r relationship y =>
      set_data c r relationship
        (λ _, match y with Some y => One (toIdentifier y) | None => Null end)
  end.

(** Modelled from the spec: [patch] of one operation.  The operations of
    [before] come first, then the operation itself, then the operations
    [after] returned, then those of [finally]; each of them goes through the
    same cycle.  [fuel] bounds the depth of that recursion. *)
Fixpoint applyOperation (fuel : nat) (c : cache) (op : operation) : option cache :=
  match fuel with
  | O => None
  | S fuel =>
      let applyAll := λ c ops,
        foldl (λ oc op, oc ≫= λ c, applyOperation fuel c op) (Some c) ops in
      let '(c, befores) := before c op in
      c ← applyAll c befores;
      let '(c, afters) := after c op in
      let c := perform c op in
      c ← applyAll c afters;
      let '(c, finals) := finally c op in
      applyAll c finals
  end.

(** Modelled from the spec: [patch(ops)], the operations one at a time and
    in order. *)
Definition patch (fuel : nat) (c : cache) (ops : list operation) : option cache :=
  foldl (λ oc op, oc ≫= λ c, applyOperation fuel c op) (Some c) ops.

End Integrity.

(** ** The schema and the records of the tests *)

Module Planets.

Import Integrity.

(** [schemaDefinition] of cache-integrity-processor-test.js, as far as the
    kinds of the relationships go. *)
Definition schemaDefinition (model relationship : string) : kind :=
  match model, relationship with
  | "planet", "moons" => hasMany
  | "planet", "inhabitants" => hasMany
  | "planet", "next" => hasOne
  | "planet", "previous" => hasOne
  | "moon", "planet" => hasOne
  | "inhabitant", "planets" => hasMany
  | _, _ => hasOne
  end.

Definition make (t i : string) (relationships : list (string * data)) : record :=
  mkRecord (mkIdentity t i) (list_to_map relationships).

Definition by_type (rs : list record) : gmap string (gmap string record) :=
  foldl (λ m rec, let r := identity_of rec in
                  <[type r := <[id r := rec]> (default ∅ (m !! type r))]> m) ∅ rs.

Definition planet (i : string) : identity := mkIdentity "planet" i.
Definition moon (i : string) : identity := mkIdentity "moon" i.
Definition inhabitant (i : string) : identity := mkIdentity "inhabitant" i.

(** 'remove record with hasMany relationships' *)
Definition earth_human : cache :=
  reset schemaDefinition (by_type [
    make "planet" "earth" [("inhabitants", Many {["inhabitant:human"]})];
    make "inhabitant" "human" [("planets", Many {["planet:earth"]})] ]).

(** 'replace hasMany => hasOne with populated array, when already populated' *)
Definition saturn_jupiter_moons : cache :=
  reset schemaDefinition (by_type [
    make "planet" "saturn" [("moons", Many {["moon:titan"]})];
    make "planet" "jupiter" [("moons", Many {["moon:europa"]})];
    make "moon" "titan" [("planet", One "planet:saturn")];
    make "moon" "europa" [("planet", One "planet:jupiter")] ]).

(** 'replace hasOne => hasOne with existing value' *)
Definition saturn_jupiter_earth : cache :=
  reset schemaDefinition (by_type [
    make "planet" "saturn" [("next", One "planet:jupiter")];
    make "planet" "jupiter" [("previous", One "planet:saturn")];
    make "planet" "earth" [] ]).

(** 'replace hasMany => hasOne with empty array' *)
Definition saturn_titan : cache :=
  reset schemaDefinition (by_type [
    make "planet" "saturn" [("moons", Many {["moon:titan"]})];
    make "moon" "titan" [("planet", One "planet:saturn")] ]).

(** 'replace hasMany => hasOne with populated array': [moons: {}] has no
    [data]. *)
Definition saturn_titan_jupiter : cache :=
  reset schemaDefinition (by_type [
    make "planet" "saturn" [("moons", Many {["moon:titan"]})];
    make "planet" "jupiter" [("moons", NoData)];
    make "moon" "titan" [("planet", One "planet:saturn")] ]).

(** 'add to hasMany => hasMany' and 'replaceRecord' *)
Definition earth_human_apart : cache :=
  reset schemaDefinition (by_type [ make "planet" "earth" []; make "inhabitant" "human" [] ]).

(** The whole index, as lists. *)
Definition dump (c : cache) : list (string * list (string * list string)) :=
  (λ '(t, byId), (t, (λ '(i, paths), (i, elements paths)) <$> map_to_list byId))
    <$> map_to_list (_rev c).

(** What the index holds for a record: [None] when [_rev[type][id]] is
    missing, the paths otherwise. *)
Definition rev_paths (c : cache) (y : identity) : option (list string) :=
  elements <$> rev_of c y.

(** The members of a hasMany relationship of a record of the cache. *)
Definition related (c : cache) (r : identity) (relationship : string)
    : option (list string) :=
  match get_data c r relationship with
  | Many s => Some (elements s)
  | _ => None
  end.

End Planets.

(** ** Listeners, actions and sources to try the statements on *)

Module Examples.

Import Evented JSONAPI.

Definition boom : value := VObj "Error: boom".
Definition smile : value := VStr ":)".

(** Seven callbacks: the first returns nothing, the second a promise that
    fulfils with [":)"], the third a promise that rejects, the fourth throws
    an error, the fifth returns a promise that fulfils with [undefined], the
    sixth returns the number one, the seventh throws [undefined]. *)
Definition apply (callback : fn) (binding : obj) (args : list value) : completion :=
  match callback with
  | 1 => Return (RVal VUndefined)
  | 2 => Return (RPromise (Fulfilled smile))
  | 3 => Return (RPromise (Rejected boom))
  | 4 => Throw boom
  | 5 => Return (RPromise (Fulfilled VUndefined))
  | 6 => Return (RVal (VNum 1))
  | 7 => Throw VUndefined
  | _ => Return (RVal VUndefined)
  end.

(** An object with these callbacks registered, in this order, for the
    event [greeting]. *)
Definition greeted (callbacks : list fn) : evented :=
  foldl (λ o callback, fst (on o "greeting" callback None)) (mkEvented 0 None) callbacks.

(** A wrapped function that throws at its first call and returns a value
    afterwards. *)
Definition flaky (k : nat) : completion :=
  match k with
  | 0 => Throw boom
  | _ => Return (RVal (VStr "done"))
  end.

(** A serializer in the manner of the JSON API one: plural resource types,
    ids and relationship names as they are. *)
Definition plural : Serializer :=
  mkSerializer (λ type, (type ++ "s")%string) (λ _ id, Some id) (λ _ relationship, relationship).

Definition bare : JSONAPISource := mkSource None None None None plural.

Definition hosted : JSONAPISource :=
  mkSource (Some "api") (Some "https://example.com") None None plural.

(** Sources with both limits at one, and at zero. *)
Definition one_at_most : JSONAPISource := mkSource None None (Some 1%Z) (Some 1%Z) plural.

Definition zero_at_most : JSONAPISource := mkSource None None (Some 0%Z) (Some 0%Z) plural.

(** Transforms and queries that are the list of their requests, and
    processors that succeed with nothing to add. *)
Definition requests_of (t : list nat) : list nat := t.

Definition succeed (r : nat) : processed (list nat) := Done None.

(** The callbacks of [apply], and an eighth that returns a promise that
    never settles. *)
Definition apply_or_wait (callback : fn) (binding : obj) (args : list value)
    : completion :=
  match callback with
  | 8 => Return (RPromise Pending)
  | _ => apply callback binding args
  end.



(** Processors that fail for request zero, never answer request one, and
    add the request itself as a transform otherwise. *)
Definition answer (r : nat) : processed (list nat) :=
  match r with
  | 0 => Failed boom
  | 1 => Hangs
  | _ => Done (Some [[r]])
  end.

(** A stand-in for [JSON.stringify] that tells a text it is given from
    other values, and the settings of a POST with a document to send. *)
Definition stringify (v : value) : string :=
  match v with
  | VStr _ => "text"
  | _ => "{}"
  end.

Definition posting : ajaxSettings string :=
  mkSettings None None None None (VObj "document") None None.

End Examples.

(** * Properties *)

Module EventedFacts.

Import Names Evented.

(** *** Event names *)

Lemma append_cons (a : ascii) (s t : string) :
  (String a s ++ t)%string = String a (s ++ t)%string.
Proof. reflexivity. Qed.

Lemma append_empty_r (s : string) : (s ++ "")%string = s.
Proof. induction s as [|a s IH]; [reflexivity|]. by rewrite append_cons, IH. Qed.

Lemma append_String_assoc (cur : string) (c : ascii) (s : string) :
  ((cur ++ String c "") ++ s)%string = (cur ++ String c s)%string.
Proof.
  induction cur as [|a cur IH]; [reflexivity|]. by rewrite !append_cons, IH.
Qed.

Lemma split_from_plain (s cur : string) :
  plain s = true → split_from s cur false = [(cur ++ s)%string].
Proof.
  revert cur. induction s as [|c s IH]; intros cur Hs; simpl in *.
  - by rewrite append_empty_r.
  - apply andb_true_iff in Hs as [Hc Hs]. apply negb_true_iff in Hc.
    rewrite Hc, IH by done. by rewrite append_String_assoc.
Qed.

(** A name without white space is one event name. *)
Lemma split_ws_plain (s : string) : plain s = true → split_ws s = [s].
Proof. apply split_from_plain. Qed.

(** *** The registry *)

Lemma lookup_notifier_own (m : gmap string Notifier) (eventName : string) :
  inherited eventName = false →
  lookup_notifier m eventName =
  match m !! eventName with Some n => Kept n | None => Nothing end.
Proof. intros Hown. unfold lookup_notifier. by rewrite Hown. Qed.

Lemma for_each_one (f : evented → string → ended) (o : evented) (name : string) :
  for_each f o [name] = f o name.
Proof. reflexivity. Qed.

Lemma listeners_plain (o : evented) (eventName : string) :
  plain eventName = true →
  listeners o eventName = listeners_of (notifiers o) eventName.
Proof.
  intros Hp. unfold listeners, listeners_of. rewrite (split_ws_plain _ Hp). cbn.
  unfold listeners_event, notifierForEvent.
  by destruct (lookup_notifier (notifiers o) eventName).
Qed.

(** Under a name that is not inherited, the listeners are the registrations
    kept under it. *)
Lemma listeners_registered (o : evented) (eventName : string) :
  plain eventName = true → inherited eventName = false →
  listeners o eventName = Some <$> registered o eventName.
Proof.
  intros Hp Hown. rewrite listeners_plain by done.
  unfold listeners_of, registered. rewrite lookup_notifier_own by done.
  by destruct (notifiers o !! eventName).
Qed.

(** One round of [on] under a name that is not inherited. *)
Lemma on_event_own (callback : fn) (binding : obj) (o : evented) (eventName : string) :
  inherited eventName = false →
  ∃ o', on_event callback binding o eventName = (o', None) ∧ self o' = self o ∧
        notifiers o' =
        <[eventName := addListener callback binding
                         (default (mkNotifier []) (notifiers o !! eventName))]> (notifiers o).
Proof.
  intros Hown. unfold on_event, notifierForEvent. rewrite lookup_notifier_own by done.
  destruct (notifiers o !! eventName) as [n|] eqn:Hn; cbn.
  - by eexists.
  - eexists. split; [reflexivity|]. split; [done|]. cbn. by rewrite insert_insert_eq.
Qed.

Lemma registered_on_event (callback : fn) (binding : obj) (o o' : evented)
    (eventName : string) :
  notifiers o' =
    <[eventName := addListener callback binding
                     (default (mkNotifier []) (notifiers o !! eventName))]> (notifiers o) →
  registered o' eventName = registered o eventName ++ [(callback, binding)].
Proof.
  intros Hnew. unfold registered. rewrite Hnew, lookup_insert_eq.
  by destruct (notifiers o !! eventName).
Qed.

(** [on] puts the new pair behind the pairs registered before it. *)
Lemma listeners_on (o : evented) (eventName : string) (callback : fn)
    (_binding : option obj) :
  plain eventName = true → inherited eventName = false →
  ∃ o', on o eventName callback _binding = (o', None) ∧ self o' = self o ∧
        registered o' eventName =
        registered o eventName ++ [(callback, binding_or_this o _binding)].
Proof.
  intros Hp Hown. unfold on. rewrite (split_ws_plain _ Hp), for_each_one.
  destruct (on_event_own callback (binding_or_this o _binding) o eventName Hown)
    as (o' & Heq & Hself & Hnew).
  exists o'. split; [done|]. split; [done|]. by apply registered_on_event.
Qed.

(** One round of [off] without a callback: it comes back, under every
    name, and the object keeps nothing under the name. *)
Lemma off_event_all (o : evented) (eventName : string) (binding : obj) :
  ∃ o', off_event None binding o eventName = (o', None) ∧ self o' = self o ∧
        notifiers o' = delete eventName (notifiers o).
Proof.
  unfold off_event, notifierForEvent, removeNotifierForEvent, lookup_notifier. cbn.
  destruct (notifiers o !! eventName) as [n|] eqn:Hn; cbn.
  - rewrite Hn. by eexists.
  - destruct (inherited eventName); cbn; rewrite ?Hn; cbn;
      (eexists; split; [reflexivity|]; split; [done|]; cbn; by rewrite delete_id).
Qed.

(** One round of [off] with a callback, under a name that is not
    inherited. *)
Lemma off_event_one (o : evented) (eventName : string) (cb : fn) (binding : obj) :
  inherited eventName = false →
  ∃ o', off_event (Some cb) binding o eventName = (o', None) ∧ self o' = self o ∧
        notifiers o' = alter (removeListener cb binding) eventName (notifiers o).
Proof.
  intros Hown. unfold off_event, notifierForEvent. rewrite lookup_notifier_own by done.
  destruct (notifiers o !! eventName) as [n|] eqn:Hn; cbn.
  - eexists. split; [reflexivity|]. split; [done|]. cbn.
    apply map_eq. intros k. rewrite lookup_alter, lookup_insert.
    case_decide; [subst; by rewrite Hn|done].
  - eexists. split; [reflexivity|]. split; [done|]. cbn.
    apply map_eq. intros k. rewrite lookup_alter.
    case_decide; [subst; by rewrite Hn|done].
Qed.

(** [off] without a callback, for any number of names at once. *)
Lemma off_events_all (names : list string) (binding : obj) :
  ∀ o, ∃ o', for_each (off_event None binding) o names = (o', None) ∧
             self o' = self o ∧
             notifiers o' = foldl (λ m n, delete n m) (notifiers o) names.
Proof.
  unfold for_each.
  induction names as [|n names IH] using rev_ind; intros o; [by eexists|].
  rewrite !foldl_app. cbn [foldl].
  destruct (IH o) as (o1 & -> & Hself & Hnew). cbn [fst snd].
  destruct (off_event_all o1 n binding) as (o' & -> & Hself' & Hnew').
  exists o'. split; [done|]. split; [congruence|]. by rewrite Hnew', Hnew.
Qed.

Lemma lookup_deleted_stays (names : list string) (m : gmap string Notifier) (n : string) :
  m !! n = None → foldl (λ m n, delete n m) m names !! n = None.
Proof.
  revert m. induction names as [|x names IH]; intros m Hm; [done|].
  cbn [foldl]. apply IH. rewrite lookup_delete. by case_decide.
Qed.

Lemma lookup_deleted (names : list string) (m : gmap string Notifier) (n : string) :
  n ∈ names → foldl (λ m n, delete n m) m names !! n = None.
Proof.
  revert m. induction names as [|x names IH]; intros m Hin.
  - by apply elem_of_nil in Hin.
  - cbn [foldl]. apply elem_of_cons in Hin as [->|Hin].
    + apply lookup_deleted_stays, lookup_delete_eq.
    + by apply IH.
Qed.

Lemma listeners_events_none (o : evented) (names : list string) (acc : list listener) :
  (∀ n, n ∈ names → lookup_notifier (notifiers o) n = Nothing) →
  foldl (listeners_event o) acc names = acc.
Proof.
  revert acc. induction names as [|x names IH]; intros acc Hnone; [done|].
  cbn [foldl]. unfold listeners_event at 2, notifierForEvent.
  rewrite (Hnone x) by (apply elem_of_cons; auto). cbn.
  apply IH. intros n Hn. apply Hnone, elem_of_cons. auto.
Qed.

Lemma remove_first_absent (l : registration) (ls : list registration) :
  l ∉ ls → remove_first l ls = ls.
Proof.
  induction ls as [|x ls IH]; intros Hnot; [done|]. cbn [remove_first].
  apply not_elem_of_cons in Hnot as [Hne Hnot].
  rewrite decide_False by done. by rewrite IH.
Qed.

Lemma remove_first_here (l : registration) (before after : list registration) :
  l ∉ before → remove_first l (before ++ l :: after) = before ++ after.
Proof.
  induction before as [|x before IH]; intros Hnot; cbn [app remove_first].
  - by rewrite decide_True.
  - apply not_elem_of_cons in Hnot as [Hne Hnot].
    rewrite decide_False by done. by rewrite IH.
Qed.

Lemma registered_listeners (l : registration) (ls : list registration) :
  Some l ∈ (Some <$> ls : list listener) ↔ l ∈ ls.
Proof.
  rewrite list_elem_of_fmap. split.
  - intros (x & Heq & Hin). by injection Heq as ->.
  - intros Hin. by exists l.
Qed.

(** C10, as amended.  For an event name without white space that is not
    the name of a property objects inherit: [off] without a callback comes
    back and has removed the notifier of the event, so that every listener
    of the event is gone at once, [listeners] is empty for it afterwards,
    and the other events keep their listeners.  With a callback, [off] comes
    back and has taken out the first pair of that callback and binding: the
    pairs before it and behind it stay, in their order, and where there is
    no such pair the listeners are as before; the other events keep their
    listeners.  Without a callback [off] comes back for any names at once,
    and where none of them is inherited, [listeners] is empty for them
    afterwards. *)
Theorem off_removes_notifier_or_listener (o : evented) (eventName : string) :
  plain eventName = true → inherited eventName = false →
  (∀ _binding, ∃ o',
      off o eventName None _binding = (o', None) ∧
      notifiers o' !! eventName = None ∧
      listeners o' eventName = [] ∧
      ∀ other, plain other = true → other ≠ eventName →
               listeners o' other = listeners o other) ∧
  (∀ callback _binding,
      let pair := (callback, binding_or_this o _binding) in
      ∃ o',
      off o eventName (Some callback) _binding = (o', None) ∧
      (Some pair ∉ listeners o eventName →
       listeners o' eventName = listeners o eventName) ∧
      (∀ before after,
          listeners o eventName = Some <$> (before ++ pair :: after) → pair ∉ before →
          listeners o' eventName = Some <$> (before ++ after)) ∧
      ∀ other, plain other = true → other ≠ eventName →
               listeners o' other = listeners o other) ∧
  (∀ eventNames _binding, ∃ o',
      off o eventNames None _binding = (o', None) ∧
      (Forall (λ n, inherited n = false) (split_ws eventNames) →
       listeners o' eventNames = [])).
Proof.
  intros Hp Hown. split; [|split].
  - intros b. unfold off. rewrite (split_ws_plain _ Hp), for_each_one.
    destruct (off_event_all o eventName (binding_or_this o b)) as (o' & Heq & _ & Hnew).
    exists o'. split; [done|]. split; [|split].
    + by rewrite Hnew, lookup_delete_eq.
    + rewrite listeners_registered by done. unfold registered.
      by rewrite Hnew, lookup_delete_eq.
    + intros other Ho Hne. rewrite !listeners_plain by done.
      unfold listeners_of, lookup_notifier. by rewrite Hnew, lookup_delete_ne.
  - intros cb b pair. unfold off. rewrite (split_ws_plain _ Hp), for_each_one.
    destruct (off_event_one o eventName cb (binding_or_this o b) Hown)
      as (o' & Heq & _ & Hnew).
    exists o'. split; [done|].
    assert (registered o' eventName = remove_first pair (registered o eventName)) as Hreg.
    { unfold registered. rewrite Hnew, lookup_alter_eq.
      by destruct (notifiers o !! eventName). }
    rewrite !listeners_registered by done. rewrite Hreg.
    split; [|split].
    + intros Hnot. rewrite remove_first_absent; [done|].
      intros Hin. apply Hnot. by apply registered_listeners.
    + intros before after Hls Hnot.
      apply (inj (fmap Some)) in Hls. by rewrite Hls, remove_first_here.
    + intros other Ho Hne. rewrite !listeners_plain by done.
      unfold listeners_of, lookup_notifier. by rewrite Hnew, lookup_alter_ne.
  - intros eventNames b. unfold off.
    destruct (off_events_all (split_ws eventNames) (binding_or_this o b) o)
      as (o' & Heq & _ & Hnew).
    exists o'. split; [done|]. intros Hnames.
    unfold listeners. apply listeners_events_none. intros n Hn.
    rewrite Forall_forall in Hnames.
    rewrite lookup_notifier_own by by apply Hnames.
    by rewrite Hnew, lookup_deleted.
Qed.

Section EmitterFacts.

Variable apply : fn → obj → list value → completion.
Variable args : list value.

Local Abbreviation seriesEach := (seriesEach apply args).
Local Abbreviation settleEach := (settleEach apply args).
Local Abbreviation resolveEach := (resolveEach apply args).
Local Abbreviation passes := (passes apply args).
Local Abbreviation settled := (settled apply args).
Local Abbreviation skipped := (skipped apply args).
Local Abbreviation fails_with := (fails_with apply args).
Local Abbreviation fulfils_with := (fulfils_with apply args).
Local Abbreviation series_course := (series_course apply args).
Local Abbreviation response_of := (response_of apply args).

Lemma settle_with_keep c : settle_with Pending c = c.
Proof. by destruct c. Qed.

(** One call of the local function of [series] on a non-empty array. *)
Lemma seriesEach_cons fuel l rest c tr con :
  seriesEach (S fuel) (mkRun (l :: rest) c tr con) =
  let st1 := mkRun rest c (tr ++ [l]) con in
  match response_of l with
  | Throw e => (Raise e, st1)
  | Return (RVal v) =>
      if truthy v then (Raise TypeError, st1)
      else match seriesEach fuel st1 with
           | (Ok _, st2) => (Ok (RVal VUndefined), st2)
           | (Raise e, st2) => (Raise e, st2)
           | (OutOfFuel, st2) => (OutOfFuel, st2)
           end
  | Return (RPromise (Fulfilled _)) =>
      match seriesEach fuel st1 with
      | (Ok r, st2) =>
          match adopt r with
          | Rejected e => (Ok (RPromise (Fulfilled VUndefined)), reject_run e st2)
          | o => (Ok (RPromise o), st2)
          end
      | (Raise e, st2) => (Ok (RPromise (Fulfilled VUndefined)), reject_run e st2)
      | (OutOfFuel, st2) => (OutOfFuel, st2)
      end
  | Return (RPromise (Rejected e)) =>
      (Ok (RPromise (Fulfilled VUndefined)), reject_run e st1)
  | Return (RPromise Pending) => (Ok (RPromise Pending), st1)
  end.
Proof.
  cbn -[Evented.response_of]. unfold mbind, apply_listener.
  cbn -[Evented.response_of]. destruct (response_of l) as [[v|[v|e|]]|e]; cbn; try reflexivity.
  - destruct (truthy v); [reflexivity|].
    by destruct (seriesEach fuel _) as [[]].
  - destruct (seriesEach fuel _) as [[r| |] st2]; try reflexivity.
    by destruct (adopt r).
Qed.

Lemma seriesEach_nil fuel c tr con :
  seriesEach (S fuel) (mkRun [] c tr con) =
  (Ok (RVal VUndefined), mkRun [] (settle_with (Fulfilled VUndefined) c) tr con).
Proof. reflexivity. Qed.

Lemma quiet_undefined : quiet (Ok (RVal VUndefined)).
Proof. by eexists. Qed.

Lemma quiet_fulfilled v : quiet (Ok (RPromise (Fulfilled v))).
Proof. by eexists. Qed.

Lemma quiet_pending : quiet (Ok (RPromise Pending)).
Proof. by eexists. Qed.

Local Hint Resolve quiet_undefined quiet_fulfilled quiet_pending : core.

(** [series] follows [series_course]: either the local function throws
    before the promise is touched, or it returns quietly with the promise
    settled as the course says. *)
Lemma seriesEach_course ls :
  ∀ fuel c tr con, List.length ls < fuel →
    ∃ r st', seriesEach fuel (mkRun ls c tr con) = (r, st') ∧
      invoked st' = tr ++ snd (series_course ls) ∧
      ((∃ e, r = Raise e ∧ fst (series_course ls) = Rejected e ∧ composite st' = c) ∨
       (quiet r ∧ composite st' = settle_with (fst (series_course ls)) c)).
Proof.
  induction ls as [|l rest IH]; intros fuel c tr con Hfuel;
    (destruct fuel as [|fuel]; [simpl in Hfuel; lia|]).
  - rewrite seriesEach_nil. eexists _, _. split; [reflexivity|].
    cbn. rewrite app_nil_r. auto.
  - assert (List.length rest < fuel) as Hrest by (simpl in Hfuel; lia).
    rewrite seriesEach_cons. cbv zeta.
    cbn [Evented.series_course].
    destruct (IH fuel c (tr ++ [l]) con Hrest) as (r & st' & Heq & Hinv & Hres).
    destruct (response_of l) as [[v|[v|e|]]|e] eqn:Hresp.
    + destruct (truthy v) eqn:Hv.
      * eexists _, _. split; [reflexivity|]. cbn. eauto 7.
      * rewrite Heq. cbn. rewrite <- app_assoc in Hinv.
        destruct Hres as [(e & -> & Ho & Hc)|[(x & -> & Hx) Hc]];
          eexists _, _; (split; [reflexivity|]); eauto 7.
    + rewrite Heq. cbn. rewrite <- app_assoc in Hinv.
      destruct Hres as [(e & -> & Ho & Hc)|[(x & -> & Hx) Hc]].
      * eexists _, _. split; [reflexivity|]. cbn. rewrite Ho, Hc. auto.
      * destruct (adopt x) as [w|e|] eqn:Hax; [| by destruct (Hx e) |];
          eexists _, _; (split; [reflexivity|]); auto.
    + eexists _, _. split; [reflexivity|]. cbn. auto.
    + eexists _, _. split; [reflexivity|]. cbn. rewrite settle_with_keep. auto.
    + eexists _, _. split; [reflexivity|]. cbn. eauto 7.
Qed.

(** [series] on any array of listeners ends as [series_course] says. *)
Lemma series_on_course ls :
  series_on apply args ls = Some (series_course ls).
Proof.
  unfold series_on, new_promise.
  destruct (seriesEach_course ls (S (List.length ls)) Pending [] [] (Nat.lt_succ_diag_r _))
    as (r & st' & -> & Hinv & Hres).
  cbn in Hinv. destruct (series_course ls) as [o tr'] eqn:Hc. cbn in *.
  destruct Hres as [(e & -> & -> & ->)|[(x & -> & Hx) ->]]; by rewrite Hinv.
Qed.

Lemma series_course_passes pre post :
  Forall passes pre →
  series_course (pre ++ post) =
  (fst (series_course post), pre ++ snd (series_course post)).
Proof.
  induction 1 as [|l pre Hl _ IH]; [cbn; by destruct (series_course post)|].
  cbn [app Evented.series_course]. rewrite IH.
  destruct Hl as [(v & -> & ->)|(v & ->)]; reflexivity.
Qed.

Lemma series_course_fails l e post :
  fails_with l e → series_course (l :: post) = (Rejected e, [l]).
Proof. cbn. by intros [-> | ->]. Qed.

(** *** [settle] *)

(** One call of the local function of [settle] on a non-empty array. *)
Lemma settleEach_cons fuel l rest c tr con :
  settleEach (S fuel) (mkRun (l :: rest) c tr con) =
  let st1 := mkRun rest c (tr ++ [l]) con in
  match response_of l with
  | Throw e =>
      if nullish e then (Raise TypeError, mkRun rest c (tr ++ [l]) (con ++ [ignored]))
      else dropped (settleEach fuel (mkRun rest c (tr ++ [l]) ((con ++ [ignored]) ++ [e])))
  | Return (RVal v) =>
      if truthy v then (Raise TypeError, st1) else dropped (settleEach fuel st1)
  | Return (RPromise (Fulfilled _)) =>
      match settleEach fuel st1 with
      | (Ok r, st2) =>
          match adopt r with
          | Rejected _ => handled (settleEach fuel st2)
          | o => (Ok (RPromise o), st2)
          end
      | (Raise _, st2) => handled (settleEach fuel st2)
      | (OutOfFuel, st2) => (OutOfFuel, st2)
      end
  | Return (RPromise (Rejected _)) => handled (settleEach fuel st1)
  | Return (RPromise Pending) => (Ok (RPromise Pending), st1)
  end.
Proof.
  cbn -[Evented.response_of]. unfold mbind, try_catch, apply_listener.
  cbn -[Evented.response_of]. destruct (response_of l) as [[v|[v|e|]]|e]; cbn; try reflexivity.
  - destruct (truthy v); [reflexivity|].
    by destruct (settleEach fuel _) as [[]].
  - destruct (settleEach fuel _) as [[r| |] st2]; try reflexivity.
    + destruct (adopt r); try reflexivity.
      cbn. by destruct (settleEach fuel _) as [[]].
    + cbn. by destruct (settleEach fuel _) as [[]].
  - by destruct (settleEach fuel _) as [[]].
  - destruct (nullish e); [reflexivity|]. cbn.
    by destruct (settleEach fuel _) as [[]].
Qed.

Lemma settleEach_nil fuel c tr con :
  settleEach (S fuel) (mkRun [] c tr con) =
  (Ok (RVal VUndefined), mkRun [] (settle_with (Fulfilled VUndefined) c) tr con).
Proof. reflexivity. Qed.

(** The local function of [settle] comes to an end on every array of
    listeners, within one call per listener and one more, and leaves the
    array no longer than it found it. *)
Lemma settleEach_ends fuel :
  ∀ ls c tr con, List.length ls < fuel →
    ∃ r st', settleEach fuel (mkRun ls c tr con) = (r, st') ∧
      r ≠ OutOfFuel ∧ (List.length (queue st') ≤ List.length ls)%nat.
Proof.
  induction fuel as [|fuel IH]; intros ls c tr con Hfuel; [lia|].
  destruct ls as [|l rest].
  - rewrite settleEach_nil. eexists _, _. split; [reflexivity|]. by split.
  - assert (List.length rest < fuel) as Hrest by (simpl in Hfuel; lia).
    rewrite settleEach_cons. cbv zeta.
    assert (∀ st, (List.length (queue st) ≤ List.length rest)%nat →
              ∃ r st', settleEach fuel st = (r, st') ∧ r ≠ OutOfFuel ∧
                       (List.length (queue st') ≤ List.length rest)%nat) as Hnext.
    { intros [q c' tr' con'] Hq. cbn in Hq.
      destruct (IH q c' tr' con') as (r & st' & Heq & Hr & Hlen); [lia|].
      exists r, st'. repeat split; [done|done|lia]. }
    assert (∀ st, (List.length (queue st) ≤ List.length rest)%nat →
              ∃ r st', handled (settleEach fuel st) = (r, st') ∧ r ≠ OutOfFuel ∧
                       (List.length (queue st') ≤ List.length rest)%nat) as Hhandled.
    { intros st Hq. destruct (Hnext st Hq) as (r & st' & -> & Hr & Hlen).
      destruct r as [x|e|]; [| |done]; eexists _, _; (split; [reflexivity|]);
        by split. }
    assert (∀ st, (List.length (queue st) ≤ List.length rest)%nat →
              ∃ r st', dropped (settleEach fuel st) = (r, st') ∧ r ≠ OutOfFuel ∧
                       (List.length (queue st') ≤ List.length rest)%nat) as Hdropped.
    { intros st Hq. destruct (Hnext st Hq) as (r & st' & -> & Hr & Hlen).
      destruct r as [x|e|]; [| |done]; eexists _, _; (split; [reflexivity|]);
        by split. }
    cbn [List.length].
    destruct (response_of l) as [[v|[v|e|]]|e].
    + destruct (truthy v).
      * eexists _, _. split; [reflexivity|]. split; [done|]. cbn. lia.
      * destruct (Hdropped (mkRun rest c (tr ++ [l]) con)) as (r & st' & -> & Hr & Hlen);
          [done|]. exists r, st'. repeat split; [done|lia].
    + destruct (Hnext (mkRun rest c (tr ++ [l]) con)) as (r & st2 & -> & Hr & Hlen);
        [done|].
      destruct r as [x|e|]; [| |done].
      * destruct (adopt x) as [w|e|].
        -- eexists _, _. split; [reflexivity|]. split; [done|]. lia.
        -- destruct (Hhandled st2 Hlen) as (r & st' & -> & Hr' & Hlen').
           exists r, st'. repeat split; [done|lia].
        -- eexists _, _. split; [reflexivity|]. split; [done|]. lia.
      * destruct (Hhandled st2 Hlen) as (r & st' & -> & Hr' & Hlen').
        exists r, st'. repeat split; [done|lia].
    + destruct (Hhandled (mkRun rest c (tr ++ [l]) con)) as (r & st' & -> & Hr & Hlen);
        [done|]. exists r, st'. repeat split; [done|lia].
    + eexists _, _. split; [reflexivity|]. split; [done|]. cbn. lia.
    + destruct (nullish e).
      * eexists _, _. split; [reflexivity|]. split; [done|]. cbn. lia.
      * destruct (Hdropped (mkRun rest c (tr ++ [l]) ((con ++ [ignored]) ++ [e])))
          as (r & st' & -> & Hr & Hlen); [done|].
        exists r, st'. repeat split; [done|lia].
Qed.

(** [settle] gives a result on every array of listeners. *)
Lemma settle_on_total ls : is_Some (settle_on apply args ls).
Proof.
  unfold settle_on, new_promise.
  destruct (settleEach_ends (S (List.length ls)) ls Pending [] [] (Nat.lt_succ_diag_r _))
    as (r & st' & -> & Hr & _).
  by destruct r.
Qed.

(** When every listener settles, the local function of [settle] empties
    the array, applies each listener once and in order, and resolves. *)
Lemma settleEach_settled ls :
  Forall settled ls →
  ∀ fuel c tr con, List.length ls < fuel →
    ∃ r con', quiet r ∧
      settleEach fuel (mkRun ls c tr con) =
      (r, mkRun [] (settle_with (Fulfilled VUndefined) c) (tr ++ ls) con').
Proof.
  induction 1 as [|l rest Hl _ IH]; intros fuel c tr con Hfuel;
    (destruct fuel as [|fuel]; [simpl in Hfuel; lia|]).
  - rewrite settleEach_nil, app_nil_r. eauto.
  - assert (List.length rest < fuel) as Hrest by (simpl in Hfuel; lia).
    rewrite settleEach_cons. cbv zeta.
    replace (tr ++ l :: rest) with ((tr ++ [l]) ++ rest) by by rewrite <- app_assoc.
    destruct Hl as [(e & -> & ->)|[[(v & -> & ->)|(v & ->)]|(e & ->)]].
    + destruct (IH fuel c (tr ++ [l]) ((con ++ [ignored]) ++ [e]) Hrest)
        as (r & con' & (x & -> & Hx) & ->). cbn. eauto.
    + destruct (IH fuel c (tr ++ [l]) con Hrest)
        as (r & con' & (x & -> & Hx) & ->). cbn. eauto.
    + destruct (IH fuel c (tr ++ [l]) con Hrest)
        as (r & con' & (x & -> & Hx) & ->).
      destruct (adopt x) as [w|e|] eqn:Hax; [| by destruct (Hx e) |]; eauto.
    + destruct (IH fuel c (tr ++ [l]) con Hrest)
        as (r & con' & (x & -> & Hx) & ->). cbn.
      eexists _, _. split; [|reflexivity]. eexists. split; [reflexivity|]. apply Hx.
Qed.

(** *** [resolve] *)

(** One call of the local function of [resolve] on a non-empty array. *)
Lemma resolveEach_cons fuel l rest c tr con :
  resolveEach (S fuel) (mkRun (l :: rest) c tr con) =
  let st1 := mkRun rest c (tr ++ [l]) con in
  match response_of l with
  | Throw e => (Raise e, st1)
  | Return (RVal v) =>
      if truthy v then (Raise TypeError, st1) else dropped (resolveEach fuel st1)
  | Return (RPromise (Fulfilled v)) => (Ok (RVal VUndefined), resolve_run v st1)
  | Return (RPromise (Rejected _)) => swallowed (resolveEach fuel st1)
  | Return (RPromise Pending) => (Ok (RVal VUndefined), st1)
  end.
Proof.
  cbn -[Evented.response_of]. unfold mbind, apply_listener.
  cbn -[Evented.response_of]. destruct (response_of l) as [[v|[v|e|]]|e]; cbn; try reflexivity.
  - destruct (truthy v); [reflexivity|].
    by destruct (resolveEach fuel _) as [[]].
  - by destruct (resolveEach fuel _) as [[]].
Qed.

Lemma resolveEach_nil fuel c tr con :
  resolveEach (S fuel) (mkRun [] c tr con) =
  (Ok (RVal VUndefined), mkRun [] (settle_with (Rejected VUndefined) c) tr con).
Proof. reflexivity. Qed.

(** The local function of [resolve] comes to an end on every array of
    listeners. *)
Lemma resolveEach_ends fuel :
  ∀ ls c tr con, List.length ls < fuel →
    ∃ r st', resolveEach fuel (mkRun ls c tr con) = (r, st') ∧ r ≠ OutOfFuel.
Proof.
  induction fuel as [|fuel IH]; intros ls c tr con Hfuel; [lia|].
  destruct ls as [|l rest].
  - rewrite resolveEach_nil. eexists _, _. by split.
  - assert (List.length rest < fuel) as Hrest by (simpl in Hfuel; lia).
    rewrite resolveEach_cons. cbv zeta.
    destruct (IH rest c (tr ++ [l]) con Hrest) as (r & st' & Heq & Hr).
    destruct (response_of l) as [[v|[v|e|]]|e].
    + destruct (truthy v); [eexists _, _; by split|].
      rewrite Heq. destruct r; [| |done]; eexists _, _; by split.
    + eexists _, _. by split.
    + rewrite Heq. destruct r; [| |done]; eexists _, _; by split.
    + eexists _, _. by split.
    + eexists _, _. by split.
Qed.

(** [resolve] gives a result on every array of listeners. *)
Lemma resolve_on_total ls : is_Some (resolve_on apply args ls).
Proof.
  unfold resolve_on, new_promise.
  destruct (resolveEach_ends (S (List.length ls)) ls Pending [] [] (Nat.lt_succ_diag_r _))
    as (r & st' & -> & Hr).
  by destruct r.
Qed.

(** After listeners that are skipped, the first one whose promise fulfils
    settles the composite; the array keeps the listeners behind it. *)
Lemma resolveEach_wins pre l v post :
  Forall skipped pre → fulfils_with l v →
  ∀ fuel c tr con, List.length pre < fuel →
    ∃ r, resolveEach fuel (mkRun (pre ++ l :: post) c tr con) =
         (Ok r, mkRun post (settle_with (Fulfilled v) c) (tr ++ pre ++ [l]) con).
Proof.
  intros Hpre Hl. induction Hpre as [|x pre Hx _ IH]; intros fuel c tr con Hfuel;
    (destruct fuel as [|fuel]; [simpl in Hfuel; lia|]); cbn [app].
  - rewrite resolveEach_cons, Hl. cbn. eauto.
  - assert (List.length pre < fuel) as Hrest by (simpl in Hfuel; lia).
    rewrite resolveEach_cons. cbv zeta.
    destruct (IH fuel c (tr ++ [x]) con Hrest) as (r & Heq).
    rewrite <- app_assoc in Heq. cbn [app] in Heq.
    destruct Hx as [(w & -> & ->)|(e & ->)]; rewrite Heq; cbn; eauto.
Qed.

(** When every listener is skipped the array runs empty and the composite
    is rejected, without a reason. *)
Lemma resolveEach_none ls :
  Forall skipped ls →
  ∀ fuel c tr con, List.length ls < fuel →
    ∃ r, resolveEach fuel (mkRun ls c tr con) =
         (Ok r, mkRun [] (settle_with (Rejected VUndefined) c) (tr ++ ls) con).
Proof.
  induction 1 as [|x ls Hx _ IH]; intros fuel c tr con Hfuel;
    (destruct fuel as [|fuel]; [simpl in Hfuel; lia|]).
  - rewrite resolveEach_nil, app_nil_r. eauto.
  - assert (List.length ls < fuel) as Hrest by (simpl in Hfuel; lia).
    rewrite resolveEach_cons. cbv zeta.
    destruct (IH fuel c (tr ++ [x]) con Hrest) as (r & Heq).
    rewrite <- app_assoc in Heq. cbn [app] in Heq.
    destruct Hx as [(w & -> & ->)|(e & ->)]; rewrite Heq; cbn; eauto.
Qed.

(** C2, as amended.  With listeners that throw, return a falsy value or
    return a promise, [series] applies the listeners one after the other, in
    the order of registration.  The first listener that fails, by throwing
    [e] or by returning a promise that rejects with [e], after listeners
    that all passed (each returned a falsy value or a promise that fulfils),
    rejects the composite promise with [e], and the listeners behind it are
    not applied.  When every listener passes, the composite promise resolves
    and every listener has been applied. *)
Theorem series_first_failure_rejects (o : evented) (eventNames : string) :
  let ls := listeners o eventNames in
  (∀ pre l e post,
      ls = pre ++ l :: post → Forall passes pre → fails_with l e →
      series apply args o eventNames = Some (Rejected e, pre ++ [l])) ∧
  (Forall passes ls →
      series apply args o eventNames = Some (Fulfilled VUndefined, ls)).
Proof.
  intros ls. unfold series. fold ls. clearbody ls. rewrite series_on_course. split.
  - intros pre l e post -> Hpre Hl.
    by rewrite (series_course_passes _ _ Hpre), (series_course_fails _ _ _ Hl).
  - intros Hall. rewrite <- (app_nil_r ls) at 1.
    rewrite (series_course_passes _ _ Hall). cbn. by rewrite app_nil_r.
Qed.

(** C3, as amended.  [resolve] applies the listeners one after the other.
    The first listener whose returned promise fulfils, after listeners that
    were all skipped (they returned a falsy value or a promise that
    rejects), wins: the composite promise resolves with the value that
    promise fulfils with, whatever it is, and the listeners behind it are not
    applied.  When every listener is skipped, also when there is none, the
    composite promise rejects. *)
Theorem resolve_first_fulfilled_wins (o : evented) (eventNames : string) :
  let ls := listeners o eventNames in
  (∀ pre l v post,
      ls = pre ++ l :: post → Forall skipped pre → fulfils_with l v →
      resolve apply args o eventNames = Some (Fulfilled v, pre ++ [l])) ∧
  (Forall skipped ls →
      resolve apply args o eventNames = Some (Rejected VUndefined, ls)).
Proof.
  intros ls. unfold resolve, resolve_on, new_promise. fold ls. clearbody ls. split.
  - intros pre l v post -> Hpre Hl.
    assert (List.length pre < S (List.length (pre ++ l :: post))) as Hfuel
      by (rewrite length_app; lia).
    by destruct (resolveEach_wins pre l v post Hpre Hl _ Pending [] [] Hfuel) as (r & ->).
  - intros Hall.
    destruct (resolveEach_none ls Hall (S (List.length ls)) Pending [] []
                (Nat.lt_succ_diag_r _)) as (r & ->).
    reflexivity.
Qed.

(** C4, as amended.  With listeners that throw an error value (not [null]
    or [undefined]), return a falsy value or return a promise that settles,
    [settle] applies every listener, one after the other and in the order of
    registration: a listener that throws, or whose promise rejects, does not
    keep the listeners behind it from being applied, and the composite
    promise is resolved, not rejected. *)
Theorem settle_always_resolves (o : evented) (eventNames : string) :
  Forall settled (listeners o eventNames) →
  settle apply args o eventNames =
  Some (Fulfilled VUndefined, listeners o eventNames).
Proof.
  intros Hall. unfold settle, settle_on, new_promise.
  destruct (settleEach_settled _ Hall (S (List.length (listeners o eventNames)))
              Pending [] [] (Nat.lt_succ_diag_r _)) as (r & con' & (x & -> & _) & ->).
  reflexivity.
Qed.

End EmitterFacts.

(** *** The statements on the listeners of [Examples] *)

Import Examples.

Ltac evaluate t := let v := eval vm_compute in t in change t with v.

(** Callbacks one, two and three listen for [greeting]. *)
Lemma off_removes_notifier_or_listener_witness :
  plain "greeting" = true ∧ inherited "greeting" = false ∧
  (∃ o', off (greeted [1; 2; 3]) "greeting" None None = (o', None) ∧
         listeners o' "greeting" = []) ∧
  (∃ o', off (greeted [1; 2; 3]) "greeting" (Some 2) None = (o', None) ∧
         listeners o' "greeting" = [Some (1, 0); Some (3, 0)]).
Proof.
  split; [reflexivity|]. split; [reflexivity|].
  destruct (off_removes_notifier_or_listener (greeted [1; 2; 3]) "greeting" eq_refl eq_refl)
    as (Hall & Hone & _).
  split.
  - destruct (Hall None) as (o' & Heq & _ & Hgone & _). by exists o'.
  - destruct (Hone 2 None) as (o' & Heq & _ & Hout & _). exists o'. split; [exact Heq|].
    apply (Hout [(1, 0)] [(3, 0)]).
    + vm_compute. reflexivity.
    + apply (bool_decide_unpack _). vm_compute. exact I.
Defined.

(** C10 as worded fails.  The registry is an object literal, and
    [constructor] names a property every object inherits: the lookup finds
    that function where a notifier is looked for.  After [off] without a
    callback, [listeners] holds one element, [undefined], for it; with a
    callback, [off] throws a [TypeError]. *)
Lemma off_as_worded_fails : ¬ off_as_worded (greeted [1; 2; 3]) "constructor".
Proof.
  intros [Hall _]. destruct (Hall None) as (o' & Hoff & Hempty).
  assert (listeners (off (greeted [1; 2; 3]) "constructor" None None).1 "constructor" =
          [None]) as Hcode by (vm_compute; reflexivity).
  rewrite Hoff in Hcode. cbn [fst] in Hcode.
  discriminate (eq_trans (eq_sym Hcode) Hempty).
Qed.

(** Listeners one, two, three, two: the third rejects, the fourth is not
    applied.  Listeners one, two: both pass. *)
Lemma series_first_failure_rejects_witness :
  series apply [] (greeted [1; 2; 3; 2]) "greeting" =
    Some (Rejected boom, [Some (1, 0); Some (2, 0); Some (3, 0)]) ∧
  series apply [] (greeted [1; 2]) "greeting" =
    Some (Fulfilled VUndefined, [Some (1, 0); Some (2, 0)]).
Proof.
  split.
  - apply (proj1 (series_first_failure_rejects apply [] (greeted [1; 2; 3; 2]) "greeting")
             [Some (1, 0); Some (2, 0)] (Some (3, 0)) boom [Some (2, 0)]).
    + vm_compute. reflexivity.
    + apply Forall_cons_2; [left; by exists VUndefined|].
      apply Forall_cons_2; [right; by exists smile|]. apply Forall_nil_2.
    + by right.
  - apply (proj2 (series_first_failure_rejects apply [] (greeted [1; 2]) "greeting")).
    evaluate (listeners (greeted [1; 2]) "greeting").
    apply Forall_cons_2; [left; by exists VUndefined|].
    apply Forall_cons_2; [right; by exists smile|]. apply Forall_nil_2.
Defined.

(** Listeners one, three, two, four: the first two are skipped, the third
    wins, the fourth is not applied.  Listeners one, three: none wins. *)
Lemma resolve_first_fulfilled_wins_witness :
  resolve apply [] (greeted [1; 3; 2; 4]) "greeting" =
    Some (Fulfilled smile, [Some (1, 0); Some (3, 0); Some (2, 0)]) ∧
  resolve apply [] (greeted [1; 3]) "greeting" =
    Some (Rejected VUndefined, [Some (1, 0); Some (3, 0)]).
Proof.
  split.
  - apply (proj1 (resolve_first_fulfilled_wins apply [] (greeted [1; 3; 2; 4]) "greeting")
             [Some (1, 0); Some (3, 0)] (Some (2, 0)) smile [Some (4, 0)]).
    + vm_compute. reflexivity.
    + apply Forall_cons_2; [left; by exists VUndefined|].
      apply Forall_cons_2; [right; by exists boom|]. apply Forall_nil_2.
    + reflexivity.
  - apply (proj2 (resolve_first_fulfilled_wins apply [] (greeted [1; 3]) "greeting")).
    evaluate (listeners (greeted [1; 3]) "greeting").
    apply Forall_cons_2; [left; by exists VUndefined|].
    apply Forall_cons_2; [right; by exists boom|]. apply Forall_nil_2.
Defined.

(** C3 as worded fails.  Listener five returns a promise that fulfils with
    [undefined], listener two one that fulfils with [":)"]: the first
    truthy awaited value is that of listener two, yet the composite promise
    is resolved by listener five, with [undefined], and listener two is not
    applied. *)
Lemma resolve_as_worded_fails :
  ¬ resolve_as_worded apply [] (listeners (greeted [5; 2]) "greeting").
Proof.
  evaluate (listeners (greeted [5; 2]) "greeting").
  intros [Hwins _].
  assert (resolve_on apply [] [Some (5, 0); Some (2, 0)] = Some (Fulfilled VUndefined, [Some (5, 0)]))
    as Hcode by reflexivity.
  assert (resolve_on apply [] [Some (5, 0); Some (2, 0)] = Some (Fulfilled smile, [Some (5, 0); Some (2, 0)]))
    as Hworded.
  { apply (Hwins [Some (5, 0)] (Some (2, 0)) smile [] eq_refl).
    - apply Forall_cons_2; [|apply Forall_nil_2]. intros (w & Haw & Htruthy).
      injection Haw as <-. discriminate Htruthy.
    - by split. }
  rewrite Hcode in Hworded. discriminate Hworded.
Qed.

(** C2 as worded fails.  Listener six returns the number one, which has no
    [then] to call: the composite promise is rejected with the [TypeError],
    not with the error of listener three, the first one that fails, and
    listener three is not applied. *)
Lemma series_as_worded_fails :
  ¬ series_as_worded apply [] (listeners (greeted [6; 3]) "greeting").
Proof.
  evaluate (listeners (greeted [6; 3]) "greeting").
  intros [Hfirst _].
  assert (series_on apply [] [Some (6, 0); Some (3, 0)] = Some (Rejected TypeError, [Some (6, 0)]))
    as Hcode by reflexivity.
  assert (series_on apply [] [Some (6, 0); Some (3, 0)] = Some (Rejected boom, [Some (6, 0); Some (3, 0)]))
    as Hworded.
  { apply (Hfirst [Some (6, 0)] (Some (3, 0)) boom [] eq_refl).
    - apply Forall_cons_2; [|apply Forall_nil_2]. by intros (e & [He|He]).
    - by right. }
  rewrite Hcode in Hworded. discriminate Hworded.
Qed.

(** C4 as worded fails.  Listener six returns the number one and listener
    one returns nothing, so both have settled; the composite promise is
    rejected with the [TypeError] and listener one is not applied. *)
Lemma settle_as_worded_fails :
  ¬ settle_as_worded apply [] (listeners (greeted [6; 1]) "greeting").
Proof.
  evaluate (listeners (greeted [6; 1]) "greeting").
  intros Hworded.
  assert (settle_on apply [] [Some (6, 0); Some (1, 0)] = Some (Rejected TypeError, [Some (6, 0)]))
    as Hcode by reflexivity.
  destruct Hworded as (v & Hworded).
  { apply Forall_cons_2; [by intros ?|].
    apply Forall_cons_2; [by intros ?|]. apply Forall_nil_2. }
  discriminate (eq_trans (eq_sym Hcode) Hworded).
Qed.

(** [settle] on listeners that the amended statement leaves out: a thrown
    [undefined] has no [stack] to read, and the [TypeError] rejects the
    composite promise; behind a promise that rejects, the [TypeError] of a
    plain value is thrown in the handler of [catch], and the composite
    promise is never settled. *)
Lemma settle_beyond_the_amended_statement :
  settle_on apply [] [Some (7, 0); Some (1, 0)] = Some (Rejected TypeError, [Some (7, 0)]) ∧
  settle_on apply [] [Some (3, 0); Some (6, 0); Some (1, 0)] = Some (Pending, [Some (3, 0); Some (6, 0)]).
Proof. by split. Qed.

(** Listeners one, three, four, two: a rejection and a throw on the way,
    all four are applied and the composite promise resolves. *)
Lemma settle_always_resolves_witness :
  settle apply [] (greeted [1; 3; 4; 2]) "greeting" =
    Some (Fulfilled VUndefined, [Some (1, 0); Some (3, 0); Some (4, 0); Some (2, 0)]).
Proof.
  apply (settle_always_resolves apply [] (greeted [1; 3; 4; 2]) "greeting").
  evaluate (listeners (greeted [1; 3; 4; 2]) "greeting").
  apply Forall_cons_2; [right; left; left; by exists VUndefined|].
  apply Forall_cons_2; [right; right; by exists boom|].
  apply Forall_cons_2; [left; by exists boom|].
  apply Forall_cons_2; [right; left; right; by exists smile|].
  apply Forall_nil_2.
Defined.

End EventedFacts.

Module ActionFacts.

Import Action.

Lemma fresh_reset (a : Action) : fresh (reset a).
Proof.
  unfold fresh, reset. cbn. repeat split.
  by rewrite lookup_app_r, Nat.sub_diag.
Qed.

Lemma fresh_new (f : nat → completion) : fresh (new f).
Proof. apply fresh_reset. Qed.

(** A promise that is settled stays as it is, whatever is called on it. *)
Lemma settle_with_settled (o p : outcome) : p ≠ Pending → settle_with o p = p.
Proof. by destruct p. Qed.

(** [process] makes no promise and leaves [complete] where it is. *)
Lemma process_keeps_complete (a : Action) :
  complete (process a).1 = complete a ∧ (process a).2 = complete a.
Proof.
  unfold process. destruct (processing a); [done|].
  by destruct (_process a (calls a)) as [[v|[v|e|]]|e].
Qed.

Lemma process_keeps_length (a : Action) :
  List.length (promises (process a).1) = List.length (promises a).
Proof.
  unfold process. destruct (processing a); [done|].
  destruct (_process a (calls a)) as [[v|[v|e|]]|e]; cbn; by rewrite ?length_alter.
Qed.

(** While the action is not processing, [process] calls the wrapped
    function once more. *)
Lemma process_calls_again (a : Action) :
  processing a = false → calls (process a).1 = S (calls a).
Proof.
  intros Hp. unfold process. rewrite Hp.
  by destruct (_process a (calls a)) as [[v|[v|e|]]|e].
Qed.

(** A failure of the wrapped function rejects [complete] with the failure
    and puts [processing] back to [false]. *)
Lemma process_failure (a : Action) (e : value) :
  fresh a → fails_next a e →
  completion_of (process a).1 = Some (Rejected e) ∧
  processing (process a).1 = false.
Proof.
  intros (Hp & _ & Hn & Hc) Hfail. unfold process, completion_of. rewrite Hp.
  destruct Hfail as [-> | ->]; cbn; rewrite Hn, list_lookup_alter_eq, Hc; done.
Qed.

(** Once [complete] is settled no call of [process] changes it. *)
Lemma process_settled (a : Action) (o : outcome) :
  o ≠ Pending → completion_of a = Some o → completion_of (process a).1 = Some o.
Proof.
  intros Ho Hc. unfold completion_of in *.
  destruct (process_keeps_complete a) as [-> _].
  unfold process. destruct (processing a); [done|].
  destruct (_process a (calls a)) as [[v|[v|e|]]|e]; cbn; try done;
    (rewrite list_lookup_alter; case_decide as Heq; [|done]);
    by rewrite Heq, Hc; cbn; rewrite settle_with_settled.
Qed.

(** After the wrapped function has failed with [e], [process] can be called
    again and calls the wrapped function again; but [complete] is still the
    promise that was rejected, no new one has been made, and a call that
    succeeds leaves it rejected with [e]. *)
Lemma retry_leaves_complete_rejected (a : Action) (e v : value) :
  fresh a → fails_next a e →
  let a1 := (process a).1 in
  succeeds_next a1 v →
  let a2 := (process a1).1 in
  calls a2 = S (S (calls a)) ∧
  complete a2 = complete a ∧
  List.length (promises a2) = List.length (promises a) ∧
  completion_of a2 = Some (Rejected e).
Proof.
  intros Hfresh Hfail a1 Hsucc a2.
  destruct (process_failure a e Hfresh Hfail) as [Hrej Hproc].
  fold a1 in Hrej, Hproc. subst a2. repeat split.
  - rewrite (process_calls_again a1 Hproc). f_equal.
    apply process_calls_again, Hfresh.
  - destruct (process_keeps_complete a1) as [-> _]. subst a1.
    by destruct (process_keeps_complete a) as [-> _].
  - rewrite (process_keeps_length a1). subst a1. apply process_keeps_length.
  - by apply process_settled.
Qed.

(** With [reset] called in between, a new promise is made and the retry
    that succeeds resolves it. *)
Lemma reset_then_success (a : Action) (v : value) :
  succeeds_next (reset a) v →
  completion_of (process (reset a)).1 = Some (Fulfilled v) ∧
  complete (process (reset a)).1 = List.length (promises a).
Proof.
  intros Hs. destruct (fresh_reset a) as (Hp & Hd & _ & Hc).
  unfold completion_of. destruct (process_keeps_complete (reset a)) as [-> _].
  split; [|done]. unfold process. rewrite Hp.
  destruct Hs as [-> | ->]; cbn -[reset]; rewrite Hd, list_lookup_alter_eq, Hc; done.
Qed.

Lemma complete_in_range (a : Action) :
  fresh a → complete a < List.length (promises a).
Proof. intros (_ & _ & _ & Hc). by apply lookup_lt_Some in Hc. Qed.

(** What every action keeps: [didProcess] and [didNotProcess] belong to
    the promise that is [complete], and that promise has been made. *)
Lemma reachable_complete (a : Action) :
  reachable a →
  didProcess a = complete a ∧ didNotProcess a = complete a ∧
  complete a < List.length (promises a).
Proof.
  induction 1 as [f|a _ _|a _ (Hd & Hn & Hc)].
  - cbn. repeat split. lia.
  - cbn. repeat split. rewrite length_app. cbn. lia.
  - destruct (process_keeps_complete a) as [Hsame _].
    rewrite Hsame, process_keeps_length. split; [|split; [|done]].
    + unfold process. destruct (processing a); [done|].
      by destruct (_process a (calls a)) as [[v|[v|e|]]|e].
    + unfold process. destruct (processing a); [done|].
      by destruct (_process a (calls a)) as [[v|[v|e|]]|e].
Qed.

Lemma reachable_completion (a : Action) :
  reachable a → is_Some (completion_of a).
Proof.
  intros Ha. destruct (reachable_complete a Ha) as (_ & _ & Hc).
  by apply lookup_lt_is_Some.
Qed.

(** A failure on an action that is not processing: [processing] is [false]
    again, the wrapped function has been called, and [complete] is rejected
    with the failure when it was pending and as it was otherwise. *)
Lemma process_fails (a : Action) (e : value) :
  reachable a → processing a = false → fails_next a e →
  processing (process a).1 = false ∧
  calls (process a).1 = S (calls a) ∧
  (completion_of a = Some Pending → completion_of (process a).1 = Some (Rejected e)) ∧
  (∀ o, o ≠ Pending → completion_of a = Some o →
        completion_of (process a).1 = Some o).
Proof.
  intros Ha Hp Hfail. destruct (reachable_complete a Ha) as (_ & Hn & _).
  split; [|split; [by apply process_calls_again|split]].
  - unfold process. rewrite Hp. by destruct Hfail as [-> | ->].
  - intros Hc. unfold completion_of, process in *. rewrite Hp.
    destruct Hfail as [-> | ->]; cbn; rewrite Hn, list_lookup_alter_eq, Hc; done.
  - intros o Ho Hc. by apply process_settled.
Qed.

(** C5, as amended.  When [process] is called on an action that is not
    processing and the wrapped function fails, by throwing or by returning
    a promise that rejects, [processing] is [false] again, so that [process]
    can be called again and calls the wrapped function again.  [complete]
    rejects with the failure when it was pending, as it is at the first
    call after the action was made or [reset]; a [complete] that had settled
    stays as it was, so that after a failure with [e] a second failure
    leaves it rejected with [e].  It is [reset] that rebuilds [complete]:
    after [reset] a call of [process] that succeeds resolves the new
    promise. *)
Theorem failure_rejects_and_reset_rebuilds (a : Action) (e : value) :
  reachable a → processing a = false → fails_next a e →
  let a1 := (process a).1 in
  processing a1 = false ∧
  calls a1 = S (calls a) ∧
  calls (process a1).1 = S (calls a1) ∧
  is_Some (completion_of a) ∧
  (completion_of a = Some Pending → completion_of a1 = Some (Rejected e)) ∧
  (∀ o, o ≠ Pending → completion_of a = Some o → completion_of a1 = Some o) ∧
  (completion_of a = Some Pending →
   ∀ e', fails_next a1 e' → completion_of (process a1).1 = Some (Rejected e)) ∧
  (∀ v, succeeds_next a1 v →
        let a2 := (process (reset a1)).1 in
        complete a2 ≠ complete a1 ∧ completion_of a2 = Some (Fulfilled v)).
Proof.
  intros Ha Hp Hfail a1.
  destruct (process_fails a e Ha Hp Hfail) as (Hproc & Hcalls & Hpending & Hsettled).
  fold a1 in Hproc, Hcalls, Hpending, Hsettled.
  assert (reachable a1) as Ha1 by by apply reachable_process.
  split; [done|]. split; [done|]. split; [by apply process_calls_again|].
  split; [by apply reachable_completion|]. split; [done|]. split; [done|]. split.
  - intros Hc e' Hfail'.
    destruct (process_fails a1 e' Ha1 Hproc Hfail') as (_ & _ & _ & Hstays).
    apply Hstays; [done|]. by apply Hpending.
  - intros v Hv a2. subst a2.
    destruct (reset_then_success a1 v Hv) as [Hdone Hnew]. split; [|done].
    rewrite Hnew. destruct (reachable_complete a1 Ha1) as (_ & _ & Hc). lia.
Qed.

(** The action of [Examples.flaky]: the first [process] fails; after
    [reset] the second one succeeds and resolves the new [complete]. *)
Lemma failure_rejects_and_reset_rebuilds_witness :
  let a1 := (process (new Examples.flaky)).1 in
  completion_of a1 = Some (Rejected Examples.boom) ∧
  processing a1 = false ∧
  completion_of (process (reset a1)).1 = Some (Fulfilled (VStr "done")).
Proof.
  destruct (failure_rejects_and_reset_rebuilds (new Examples.flaky) Examples.boom
              (reachable_new _) eq_refl (or_introl eq_refl))
    as (Hproc & _ & _ & _ & Hrej & _ & _ & Hreset).
  intros a1. split; [exact (Hrej eq_refl)|]. split; [exact Hproc|].
  apply (Hreset (VStr "done")). by left.
Defined.

(** C5 as worded fails.  The action of [Examples.flaky] fails at the first
    [process] and succeeds at the second, and [complete] is the rejected
    promise still: no new promise was made for the second call to resolve. *)
Lemma failure_as_worded_fails : ¬ failure_as_worded (new Examples.flaky).
Proof.
  intros Hworded.
  destruct (Hworded Examples.boom (fresh_new _) (or_introl eq_refl)) as (_ & _ & Hrebuilt).
  specialize (Hrebuilt (VStr "done") (or_introl eq_refl)).
  destruct (retry_leaves_complete_rejected (new Examples.flaky) Examples.boom (VStr "done")
              (fresh_new _) (or_introl eq_refl) (or_introl eq_refl)) as (_ & _ & _ & Hcode).
  discriminate (eq_trans (eq_sym Hcode) Hrebuilt).
Qed.

End ActionFacts.

Module JSONAPIFacts.

Import JSONAPI.

Lemma append_assoc (a b c : string) : ((a ++ b) ++ c)%string = (a ++ b ++ c)%string.
Proof.
  induction a as [|x a IH]; [reflexivity|].
  by rewrite !EventedFacts.append_cons, IH.
Qed.

(** *** URLs *)

Lemma push_present_segment (x : option string) (l : list string) :
  push_present x l = l ++ segment x.
Proof. unfold push_present, segment. destruct (present x); by rewrite ?app_nil_r. Qed.

(** C9. The URL of a resource is made of the host, the namespace, the
    serialized resource type and the serialized resource id, the optional
    ones only when they are there, joined with [/], and it starts with [/]
    when there is no host.  The relationship endpoint is that URL followed
    by [/relationships/] and the serialized relationship name, and it is
    where [addToHasMany] is sent, with POST. *)
Theorem resource_urls (src : JSONAPISource) (type : string) (id : option string)
    (relationship : string) :
  resourceURL src type id =
    (match present (host src) with Some _ => "" | None => "/" end ++
     join "/" (url_segments src type id))%string ∧
  resourceRelationshipURL src type id relationship =
    (resourceURL src type id ++ "/relationships/" ++
     resourceRelationship (serializer src) type relationship)%string ∧
  (∀ i, addToHasMany_request src type i relationship =
        mkAjax "POST"
          (resourceURL src type (Some i) ++ "/relationships/" ++
           resourceRelationship (serializer src) type relationship)%string) ∧
  addToHasMany_request Examples.bare "planet" "jupiter" "moons" =
    mkAjax "POST" "/planets/jupiter/relationships/moons" ∧
  resourceURL Examples.hosted "planet" (Some "jupiter") =
    "https://example.com/api/planets/jupiter".
Proof.
  split; [|done].
  unfold resourceURL, resourcePath, url_segments, resourceHost, resourceNamespace.
  rewrite !push_present_segment. unfold segment.
  destruct (present (host src)) as [h|], (present (namespace src)) as [n|],
    (present id) as [i|]; cbn [app join];
    rewrite ?push_present_segment; unfold segment;
    try destruct (present (resourceId (serializer src) type i)) as [r|];
    cbn [app join]; reflexivity.
Qed.

(** *** Request caps *)

Section Caps.

Variables transform query request : Type.
Variable getTransformRequests : transform → list request.
Variable getFetchRequests : query → list request.

Local Abbreviation _transform := (_transform (query := query) getTransformRequests).
Local Abbreviation _fetch := (_fetch (transform := transform) getFetchRequests).

Lemma exceeds_true (limit : Z) (requests : list request) :
  limit ≠ 0%Z → (limit < Z.of_nat (List.length requests))%Z →
  exceeds (Some limit) requests = true.
Proof.
  intros Hnz Hlt. unfold exceeds, truthy_num. cbn.
  apply andb_true_iff. split; [apply negb_true_iff; lia | lia].
Qed.

(** C6, as amended.  With [maxRequestsPerTransform] set to a number other
    than zero, a transform whose requests are more than that number is
    rejected with [TransformNotAllowed] and no request is dispatched; the
    same holds of [_fetch], [maxRequestsPerFetch] and [FetchNotAllowed]. *)
Theorem caps_reject_without_dispatch (src : JSONAPISource)
    (processors : request → processed transform) :
  (∀ t limit,
      maxRequestsPerTransform src = Some limit → limit ≠ 0%Z →
      (limit < Z.of_nat (List.length (getTransformRequests t)))%Z →
      _transform src processors t =
      (Rejects (TransformNotAllowed (List.length (getTransformRequests t)) limit t),
       [])) ∧
  (∀ q limit,
      maxRequestsPerFetch src = Some limit → limit ≠ 0%Z →
      (limit < Z.of_nat (List.length (getFetchRequests q)))%Z →
      _fetch src processors q =
      (Rejects (FetchNotAllowed (List.length (getFetchRequests q)) limit q), [])).
Proof.
  split.
  - intros t limit Hmax Hnz Hlt. unfold JSONAPI._transform.
    by rewrite Hmax, exceeds_true.
  - intros q limit Hmax Hnz Hlt. unfold JSONAPI._fetch.
    by rewrite Hmax, exceeds_true.
Qed.

End Caps.

Import Examples.

(** With a limit of one, a transform and a query of two requests are
    rejected and nothing is dispatched. *)
Lemma caps_reject_without_dispatch_witness :
  _transform requests_of one_at_most succeed [10; 20] =
    (Rejects (TransformNotAllowed (query := list nat) 2 1 [10; 20]), []) ∧
  _fetch requests_of one_at_most succeed [10; 20] =
    (Rejects (FetchNotAllowed (transform := list nat) 2 1 [10; 20]), []).
Proof.
  split.
  - apply (proj1 (caps_reject_without_dispatch (list nat) (list nat) nat
                    requests_of requests_of one_at_most succeed) [10; 20] 1%Z);
      [reflexivity | lia | simpl; lia].
  - apply (proj2 (caps_reject_without_dispatch (list nat) (list nat) nat
                    requests_of requests_of one_at_most succeed) [10; 20] 1%Z);
      [reflexivity | lia | simpl; lia].
Defined.

(** C6 as worded fails.  With [maxRequestsPerTransform] set to zero, a
    transform of one request is more than the limit allows, yet the request
    is dispatched and the promise resolves. *)
Lemma caps_as_worded_fails :
  ¬ caps_as_worded (query := list nat) requests_of requests_of zero_at_most succeed.
Proof.
  intros [Htransform _].
  destruct (Htransform [10] 0%Z eq_refl) as (needed & Hworded); [simpl; lia|].
  assert (_transform (query := list nat) requests_of zero_at_most succeed [10] =
          (Resolves [[10]], [10])) as Hcode by reflexivity.
  rewrite Hcode in Hworded. discriminate Hworded.
Qed.

End JSONAPIFacts.

Module IntegrityFacts.

Import JSONAPI Integrity.

(** *** Identifiers *)

Lemma split_at_free sep s cur :
  free_of sep s = true → split_at sep s cur = [(cur ++ s)%string].
Proof.
  revert cur. induction s as [|c s IH]; intros cur Hs; simpl in *.
  - by rewrite EventedFacts.append_empty_r.
  - apply andb_true_iff in Hs as [Hc Hs]. apply negb_true_iff in Hc.
    rewrite Hc, IH by done. by rewrite EventedFacts.append_String_assoc.
Qed.

Lemma split_at_sep sep t rest cur :
  free_of sep t = true →
  split_at sep (t ++ String sep rest)%string cur = (cur ++ t)%string :: split_at sep rest "".
Proof.
  revert cur. induction t as [|c t IH]; intros cur Ht; simpl in *.
  - by rewrite Ascii.eqb_refl, EventedFacts.append_empty_r.
  - apply andb_true_iff in Ht as [Hc Ht]. apply negb_true_iff in Hc.
    rewrite Hc, IH by done. by rewrite EventedFacts.append_String_assoc.
Qed.

(** An identity without colons is read back from its identifier. *)
Lemma parse_toIdentifier (y : identity) :
  free_of ":" (type y) = true → free_of ":" (id y) = true →
  parseIdentifier (toIdentifier y) = y.
Proof.
  intros Ht Hi. unfold parseIdentifier, toIdentifier, split.
  change (type y ++ ":" ++ id y)%string with (type y ++ String ":" (id y))%string.
  rewrite split_at_sep, split_at_free by done. by destruct y.
Qed.

(** *** The reverse index *)

Lemma identity_eq (y y' : identity) : type y = type y' → id y = id y' → y = y'.
Proof. destruct y, y'; cbn; congruence. Qed.

Lemma paths_at_set_rev (rev : gmap string (gmap string (gset string))) (y y' : identity) (p : string) :
  paths_at (set_rev y p rev) y' =
  if decide (y' = y) then {[p]} ∪ paths_at rev y else paths_at rev y'.
Proof.
  unfold paths_at, set_rev. case_decide as Hy.
  - subst y'. rewrite lookup_insert_eq; cbn; rewrite lookup_insert_eq. cbn.
    destruct (rev !! type y); cbn; [done|by rewrite lookup_empty].
  - destruct (decide (type y = type y')) as [Ht|Ht].
    + rewrite Ht, lookup_insert_eq. cbn.
      rewrite lookup_insert_ne by (intros Hi; apply Hy; by apply identity_eq).
      by destruct (rev !! type y').
    + by rewrite lookup_insert_ne.
Qed.

Lemma paths_at_delete_rev (rev : gmap string (gmap string (gset string))) (y y' : identity) (p : string) :
  paths_at (delete_rev y p rev) y' =
  if decide (y' = y) then paths_at rev y ∖ {[p]} else paths_at rev y'.
Proof.
  unfold paths_at, delete_rev.
  destruct (rev !! type y) as [byId|] eqn:Ht; cbn.
  - destruct (byId !! id y) as [paths|] eqn:Hi; cbn.
    + case_decide as Hy.
      * subst y'. rewrite lookup_insert_eq. cbn. by rewrite lookup_insert_eq.
      * destruct (decide (type y = type y')) as [Ht'|Ht'].
        -- rewrite <- Ht', lookup_insert_eq, Ht. cbn.
           by rewrite lookup_insert_ne
             by (intros Hi'; apply Hy; by apply identity_eq).
        -- by rewrite lookup_insert_ne.
    + case_decide as Hy; [|done]. subst y'. rewrite Ht. cbn. rewrite Hi. cbn.
      set_solver.
  - case_decide as Hy; [|done]. subst y'. rewrite Ht. cbn. set_solver.
Qed.

Lemma back_pointers_paths_at (c : cache) (y : identity) :
  back_pointers c y = paths_at (_rev c) y.
Proof. reflexivity. Qed.

(** Making or clearing a link leaves the schema and the records alone. *)
Lemma addRevLink_kind c r rel y :
  relationshipKind (addRevLink c r rel y) = relationshipKind c.
Proof. reflexivity. Qed.

Lemma removeRevLink_kind c r rel y :
  relationshipKind (removeRevLink c r rel y) = relationshipKind c.
Proof. reflexivity. Qed.

Lemma sourcePath_kind (c c' : cache) r rel y :
  relationshipKind c' = relationshipKind c →
  sourcePath c' r rel y = sourcePath c r rel y.
Proof. intros H. unfold sourcePath. by rewrite H. Qed.

Lemma addRevLinks_kind r rel ys c :
  relationshipKind (addRevLinks r rel ys c) = relationshipKind c.
Proof.
  unfold addRevLinks. revert c. induction ys as [|y ys IH]; intros c; [done|].
  cbn [foldl]. by rewrite IH.
Qed.

Lemma removeRevLinks_kind r rel ys c :
  relationshipKind (removeRevLinks r rel ys c) = relationshipKind c.
Proof.
  unfold removeRevLinks. revert c. induction ys as [|y ys IH]; intros c; [done|].
  cbn [foldl]. by rewrite IH.
Qed.

(** The entries after a run of [addRevLink]: the old ones and one per
    related record. *)
Lemma elem_of_addRevLinks r rel ys c y' p :
  p ∈ back_pointers (addRevLinks r rel ys c) y' ↔
  p ∈ back_pointers c y' ∨ (y' ∈ ys ∧ p = sourcePath c r rel y').
Proof.
  revert c. induction ys as [|y ys IH]; intros c.
  - cbn. split; [by left|]. intros [H|[H _]]; [done|]. by apply elem_of_nil in H.
  - cbn [addRevLinks foldl]. fold (addRevLinks r rel ys (addRevLink c r rel y)).
    rewrite IH. rewrite (sourcePath_kind c (addRevLink c r rel y)) by done.
    unfold addRevLink at 1. rewrite back_pointers_paths_at. cbn [_rev with_rev].
    rewrite paths_at_set_rev, <- back_pointers_paths_at.
    rewrite elem_of_cons. case_decide as Hy.
    + subst y'. set_solver.
    + set_solver.
Qed.

(** The entries after a run of [removeRevLink]: the old ones but those of
    the related records. *)
Lemma elem_of_removeRevLinks r rel ys c y' p :
  p ∈ back_pointers (removeRevLinks r rel ys c) y' ↔
  p ∈ back_pointers c y' ∧ ¬ (y' ∈ ys ∧ p = sourcePath c r rel y').
Proof.
  revert c. induction ys as [|y ys IH]; intros c.
  - cbn. split; [|by intros [H _]]. intros H. split; [done|].
    intros [H' _]. by apply elem_of_nil in H'.
  - cbn [removeRevLinks foldl]. fold (removeRevLinks r rel ys (removeRevLink c r rel y)).
    rewrite IH. rewrite (sourcePath_kind c (removeRevLink c r rel y)) by done.
    unfold removeRevLink at 1. rewrite back_pointers_paths_at. cbn [_rev with_rev].
    rewrite paths_at_delete_rev, <- back_pointers_paths_at.
    rewrite elem_of_cons. case_decide as Hy.
    + subst y'. set_solver.
    + set_solver.
Qed.

(** *** The hooks within [patch] *)

(** The index after [finally] depends on the schema and on the index
    before it, not on the records. *)
Lemma addRevLinks_rev r rel ys c c' :
  relationshipKind c' = relationshipKind c → _rev c' = _rev c →
  _rev (addRevLinks r rel ys c') = _rev (addRevLinks r rel ys c).
Proof.
  unfold addRevLinks. revert c c'.
  induction ys as [|y ys IH]; intros c c' Hkind Hrev; [done|].
  cbn [foldl]. apply IH; [done|].
  unfold addRevLink. cbn. by rewrite Hrev, (sourcePath_kind c c').
Qed.

Lemma set_data_keeps c r rel f :
  relationshipKind (set_data c r rel f) = relationshipKind c ∧
  _rev (set_data c r rel f) = _rev c.
Proof. unfold set_data. by destruct (get_record c r). Qed.

(** An operation whose hooks return no operation goes through [patch] in
    one round. *)
Lemma applyOperation_plain fuel c op :
  (after c op).2 = [] →
  (finally (perform (after c op).1 op) op).2 = [] →
  applyOperation (S fuel) c op = Some (finally (perform (after c op).1 op) op).1.
Proof.
  intros Hafter Hfinally. cbn [applyOperation before foldl mbind option_bind].
  destruct (after c op) as [c1 afters]. cbn in Hafter, Hfinally |- *. subst afters.
  cbn. destruct (finally (perform c1 op) op) as [c3 finals]. cbn in Hfinally |- *.
  by subst finals.
Qed.

Lemma patch_replaceHasMany fuel c r rel ys :
  ∃ c', patch (S fuel) c [replaceHasMany r rel ys] = Some c' ∧
        _rev c' = _rev (hooks c (replaceHasMany r rel ys)).
Proof.
  unfold patch. cbn [foldl mbind option_bind].
  rewrite applyOperation_plain by done. eexists. split; [reflexivity|].
  cbn [after finally perform fst]. unfold hooks. cbn [before after finally fst].
  apply addRevLinks_rev; apply set_data_keeps.
Qed.

Lemma patch_replaceHasOne fuel c r rel y :
  ∃ c', patch (S fuel) c [replaceHasOne r rel (Some y)] = Some c' ∧
        _rev c' = _rev (hooks c (replaceHasOne r rel (Some y))).
Proof.
  unfold patch. cbn [foldl mbind option_bind].
  rewrite applyOperation_plain by done. eexists. split; [reflexivity|].
  cbn [after finally perform fst]. unfold hooks. cbn [before after finally fst].
  apply (addRevLinks_rev r rel [y]); apply set_data_keeps.
Qed.

(** What the hooks do in a row, operation by operation. *)
Lemma hooks_replaceHasMany c r rel ys :
  hooks c (replaceHasMany r rel ys) =
  addRevLinks r rel ys
    (removeRevLinks r rel
       (parseIdentifier <$>
          filter (λ i, notin ys i = true) (pointers (get_data c r rel))) c).
Proof. reflexivity. Qed.

Lemma hooks_replaceHasOne c r rel y :
  hooks c (replaceHasOne r rel (Some y)) =
  addRevLinks r rel [y]
    (removeRevLinks r rel (parseIdentifier <$> pointers (get_data c r rel)) c).
Proof. reflexivity. Qed.

(** C7. [replaceHasMany(X, R, Ys)], through the hooks of the processor,
    changes the index by the difference of the old and the new set of
    related records: the entry of a record that was related and is not in
    the new set is cleared, every record of the new set has its entry, and
    an entry whose path is not that of the slot [X.R] pointing at the record
    it is filed under, as those of other source records, is as before.  In
    the test with [saturn.moons = {titan}] and [jupiter.moons = {europa}],
    replacing the moons of saturn by europa leaves both paths under
    [_rev.moon.europa] and nothing under [_rev.moon.titan]; so it is when
    the operation goes through [patch], and saturn's moons are europa. *)
Theorem replaceHasMany_updates_rev (c : cache) (X : identity) (R : string)
    (Ys : list identity) :
  let c' := hooks c (replaceHasMany X R Ys) in
  (∀ y, toIdentifier y ∈ pointers (get_data c X R) →
        toIdentifier y ∉ toIdentifier <$> Ys →
        parseIdentifier (toIdentifier y) = y →
        ¬ entry c' y (sourcePath c X R y)) ∧
  (∀ y, y ∈ Ys → entry c' y (sourcePath c X R y)) ∧
  (∀ y p, p ≠ sourcePath c X R y → (entry c' y p ↔ entry c y p)) ∧
  (let saturn := Planets.planet "saturn" in
   let europa := Planets.moon "europa" in
   let after_hooks :=
     hooks Planets.saturn_jupiter_moons (replaceHasMany saturn "moons" [europa]) in
   let after_patch :=
     patch 2 Planets.saturn_jupiter_moons [replaceHasMany saturn "moons" [europa]] in
   Planets.rev_paths after_hooks europa =
     Some ["planet/saturn/relationships/moons/data/moon:europa";
           "planet/jupiter/relationships/moons/data/moon:europa"] ∧
   Planets.rev_paths after_hooks (Planets.moon "titan") = Some [] ∧
   (λ c, Planets.rev_paths c europa) <$> after_patch =
     Some (Planets.rev_paths after_hooks europa) ∧
   (λ c, Planets.rev_paths c (Planets.moon "titan")) <$> after_patch = Some (Some []) ∧
   (λ c, Planets.related c saturn "moons") <$> after_patch = Some (Some ["moon:europa"])).
Proof.
  intros c'. subst c'. rewrite hooks_replaceHasMany. unfold entry.
  set (missing := filter _ _).
  set (c1 := removeRevLinks X R (parseIdentifier <$> missing) c).
  assert (∀ y, sourcePath c1 X R y = sourcePath c X R y) as Hpath
    by (intros y; apply sourcePath_kind, removeRevLinks_kind).
  split; [|split; [|split]].
  - intros y Hprior Hnew Hwf. rewrite elem_of_addRevLinks, Hpath.
    unfold c1. rewrite elem_of_removeRevLinks.
    intros [[_ Hkept]|[Hin _]].
    + apply Hkept. split; [|done]. rewrite <- Hwf at 1.
      apply list_elem_of_fmap_2, list_elem_of_filter. split; [|done].
      unfold notin. by apply bool_decide_eq_true.
    + apply Hnew. by apply list_elem_of_fmap_2.
  - intros y Hin. rewrite elem_of_addRevLinks, Hpath. by right.
  - intros y p Hp. rewrite elem_of_addRevLinks, Hpath. unfold c1.
    rewrite elem_of_removeRevLinks. split.
    + intros [[Hc _]|[_ Hc]]; done.
    + intros Hc. left. split; [done|]. by intros [_ ?].
  - vm_compute. by repeat split.
Qed.

(** C8. [replaceHasOne(X, R, Y)], through the hooks of the processor,
    clears the entry filed under the record [X.R] pointed at before, files
    the path [X.type/X.id/relationships/R/data] under [Y], and leaves every
    entry with another path, as those of other source records, as it was.
    In the test where [saturn.next] is jupiter already, pointing
    [earth.next] at jupiter leaves the paths of both saturn and earth under
    [_rev.planet.jupiter]; so it is when the operation goes through
    [patch]. *)
Theorem replaceHasOne_updates_rev (c : cache) (X Y : identity) (R : string) :
  relationshipKind c (type X) R = hasOne →
  let c' := hooks c (replaceHasOne X R (Some Y)) in
  let path := (type X ++ "/" ++ id X ++ "/relationships/" ++ R ++ "/data")%string in
  (∀ i, get_data c X R = One i → parseIdentifier i ≠ Y →
        ¬ entry c' (parseIdentifier i) path) ∧
  entry c' Y path ∧
  (∀ y p, p ≠ path → (entry c' y p ↔ entry c y p)) ∧
  (let earth := Planets.planet "earth" in
   let jupiter := Planets.planet "jupiter" in
   let after_hooks :=
     hooks Planets.saturn_jupiter_earth (replaceHasOne earth "next" (Some jupiter)) in
   let after_patch :=
     patch 2 Planets.saturn_jupiter_earth [replaceHasOne earth "next" (Some jupiter)] in
   Planets.rev_paths after_hooks jupiter =
     Some ["planet/saturn/relationships/next/data";
           "planet/earth/relationships/next/data"] ∧
   (λ c, Planets.rev_paths c jupiter) <$> after_patch =
     Some (Planets.rev_paths after_hooks jupiter)).
Proof.
  intros Hkind c' path. subst c'. rewrite hooks_replaceHasOne. unfold entry.
  set (c1 := removeRevLinks X R _ c).
  assert (∀ y, sourcePath c X R y = path) as Hpath.
  { intros y. unfold sourcePath. by rewrite Hkind. }
  assert (∀ y, sourcePath c1 X R y = path) as Hpath1.
  { intros y. rewrite <- (Hpath y). apply sourcePath_kind, removeRevLinks_kind. }
  split; [|split; [|split]].
  - intros i Hdata Hne. rewrite elem_of_addRevLinks, Hpath1.
    unfold c1. rewrite elem_of_removeRevLinks, Hpath, Hdata.
    intros [[_ Hkept]|[Hin _]].
    + apply Hkept. split; [|done]. cbn. apply list_elem_of_singleton. done.
    + apply list_elem_of_singleton in Hin. done.
  - rewrite elem_of_addRevLinks, Hpath1. right. split; [|done].
    by apply list_elem_of_singleton.
  - intros y p Hp. rewrite elem_of_addRevLinks, Hpath1. unfold c1.
    rewrite elem_of_removeRevLinks, Hpath. split.
    + intros [[Hc _]|[_ Hc]]; done.
    + intros Hc. left. split; [done|]. by intros [_ ?].
  - vm_compute. by repeat split.
Qed.

Lemma clearInverseOp_compensates c X p : compensates X (clearInverseOp c X p).
Proof.
  unfold compensates, clearInverseOp.
  destruct (relationshipKind c _ _); [right|left]; eauto.
Qed.

Lemma after_removeRecord_ops c X :
  (after c (removeRecord X)).2 = clearInverseRelationshipOps c X.
Proof. cbn. by destruct (get_record c X). Qed.

Lemma rev_of_finally_removeRecord c X :
  rev_of (finally c (removeRecord X)).1 X = None.
Proof.
  unfold rev_of. cbn. rewrite lookup_alter_eq.
  destruct (_rev c !! type X) as [byId|]; cbn; [|done].
  apply lookup_delete_eq.
Qed.

(** One round of [applyOperation], with [patch] for the operations the
    hooks return. *)
Lemma applyOperation_S fuel c op :
  applyOperation (S fuel) c op =
  let '(c, befores) := before c op in
  c ← patch fuel c befores;
  let '(c, afters) := after c op in
  c ← patch fuel (perform c op) afters;
  let '(c, finals) := finally c op in
  patch fuel c finals.
Proof. reflexivity. Qed.

Lemma patch_nil fuel c : patch fuel c [] = Some c.
Proof. reflexivity. Qed.

(** The operations [after(removeRecord)] returns go through [patch] in one
    round each. *)
Lemma patch_compensating fuel X ops :
  Forall (compensates X) ops → ∀ c, is_Some (patch (S fuel) c ops).
Proof.
  unfold patch. induction 1 as [|op ops Hop _ IH]; intros c; [by eexists|].
  cbn [foldl mbind option_bind].
  rewrite applyOperation_plain.
  - apply IH.
  - by destruct Hop as [(s & r & ->)|(s & r & ->)].
  - by destruct Hop as [(s & r & ->)|(s & r & ->)].
Qed.

Lemma patch_removeRecord fuel c X :
  ∃ c', patch (S (S fuel)) c [removeRecord X] = Some c' ∧ rev_of c' X = None.
Proof.
  unfold patch at 1. cbn [foldl mbind option_bind].
  rewrite applyOperation_S. cbn [before]. rewrite patch_nil. cbn [mbind option_bind].
  pose proof (after_removeRecord_ops c X) as Hafter.
  destruct (after c (removeRecord X)) as [c1 afters]. cbn [snd] in Hafter.
  assert (Forall (compensates X) afters) as Hops.
  { subst afters. apply Forall_fmap, Forall_forall. intros p _.
    apply clearInverseOp_compensates. }
  destruct (patch_compensating fuel X afters Hops (perform c1 (removeRecord X)))
    as [c2 Hc2].
  rewrite Hc2. cbn [mbind option_bind].
  pose proof (rev_of_finally_removeRecord c2 X) as Hrev.
  destruct (finally c2 (removeRecord X)) as [c3 finals] eqn:Hfinally.
  assert (finals = []) as -> by (by inversion Hfinally).
  rewrite patch_nil. eexists. split; [reflexivity|]. exact Hrev.
Qed.

(** C1. For a record [X] of the cache, [after(removeRecord(X))] returns one
    operation for each back-pointer recorded in [_rev[X.type][X.id]], a
    [removeFromHasMany] of [X] or a [replaceHasOne] with [null], and once
    [finally] has run [_rev[X.type][X.id]] is there no more.  In the test
    with earth and human linked through inhabitants and planets, removing
    human through [patch] leaves the inhabitants of earth empty,
    [_rev.inhabitant.human] missing and [_rev.planet.earth] empty. *)
Theorem removeRecord_clears_inverses (c : cache) (X : identity) :
  has_record c X = true →
  let ops := (after c (removeRecord X)).2 in
  List.length ops = size (back_pointers c X) ∧
  (∀ op, op ∈ ops ↔ ∃ p, p ∈ back_pointers c X ∧ op = clearInverseOp c X p) ∧
  Forall (compensates X) ops ∧
  rev_of (hooks c (removeRecord X)) X = None ∧
  (let earth := Planets.planet "earth" in
   let human := Planets.inhabitant "human" in
   (after Planets.earth_human (removeRecord human)).2 =
     [removeFromHasMany earth "inhabitants" human] ∧
   let after_patch := patch 2 Planets.earth_human [removeRecord human] in
   (λ c, Planets.related c earth "inhabitants") <$> after_patch = Some (Some []) ∧
   (λ c, Planets.rev_paths c human) <$> after_patch = Some None ∧
   (λ c, Planets.rev_paths c earth) <$> after_patch = Some (Some [])).
Proof.
  intros Hrec ops. subst ops. rewrite after_removeRecord_ops.
  unfold clearInverseRelationshipOps. fold (back_pointers c X).
  split; [|split; [|split; [|split]]].
  - by rewrite length_fmap.
  - intros op. rewrite list_elem_of_fmap. setoid_rewrite elem_of_elements.
    split; intros (p & H1 & H2); eauto.
  - apply Forall_fmap, Forall_forall. intros p _. apply clearInverseOp_compensates.
  - unfold hooks. cbn [before]. destruct (after c (removeRecord X)) as [c1 ?].
    apply rev_of_finally_removeRecord.
  - vm_compute. by repeat split.
Qed.

(** *** The statements on the records of the tests *)

Import Planets.

(** The index after [reset] and after the three hooks, for the operations
    of cache-integrity-processor-test.js, in the order of the tests. *)
Lemma hooks_agree_with_the_tests :
  dump saturn_jupiter_moons =
    [("moon", [("europa", ["planet/jupiter/relationships/moons/data/moon:europa"]);
               ("titan", ["planet/saturn/relationships/moons/data/moon:titan"])]);
     ("planet", [("saturn", ["moon/titan/relationships/planet/data"]);
                 ("jupiter", ["moon/europa/relationships/planet/data"])])] ∧
  dump (hooks saturn_jupiter_moons (addToHasMany (moon "europa") "planet" (planet "saturn"))) =
    [("moon", [("europa", ["planet/jupiter/relationships/moons/data/moon:europa"]);
               ("titan", ["planet/saturn/relationships/moons/data/moon:titan"])]);
     ("planet", [("saturn", ["moon/europa/relationships/planet/data";
                             "moon/titan/relationships/planet/data"]);
                 ("jupiter", ["moon/europa/relationships/planet/data"])])] ∧
  dump (hooks saturn_jupiter_moons
          (replaceHasOne (moon "europa") "planet" (Some (planet "saturn")))) =
    [("moon", [("europa", ["planet/jupiter/relationships/moons/data/moon:europa"]);
               ("titan", ["planet/saturn/relationships/moons/data/moon:titan"])]);
     ("planet", [("saturn", ["moon/europa/relationships/planet/data";
                             "moon/titan/relationships/planet/data"]);
                 ("jupiter", [])])] ∧
  dump (hooks saturn_titan (replaceHasMany (planet "saturn") "moons" [])) =
    [("moon", [("titan", [])]);
     ("planet", [("saturn", ["moon/titan/relationships/planet/data"])])] ∧
  dump (hooks saturn_titan_jupiter (replaceHasMany (planet "saturn") "moons" [moon "titan"])) =
    [("moon", [("titan", ["planet/saturn/relationships/moons/data/moon:titan"])]);
     ("planet", [("saturn", ["moon/titan/relationships/planet/data"])])] ∧
  dump (hooks earth_human (replaceHasMany (planet "earth") "inhabitants" [])) =
    [("inhabitant", [("human", [])]);
     ("planet", [("earth", ["inhabitant/human/relationships/planets/data/planet:earth"])])] ∧
  dump (hooks saturn_jupiter_moons (replaceHasOne (moon "europa") "planet" None)) =
    [("moon", [("europa", ["planet/jupiter/relationships/moons/data/moon:europa"]);
               ("titan", ["planet/saturn/relationships/moons/data/moon:titan"])]);
     ("planet", [("saturn", ["moon/titan/relationships/planet/data"]);
                 ("jupiter", [])])] ∧
  dump (hooks saturn_jupiter_earth
          (replaceHasOne (planet "earth") "next" (Some (planet "saturn")))) =
    [("planet", [("saturn", ["planet/earth/relationships/next/data";
                             "planet/jupiter/relationships/previous/data"]);
                 ("jupiter", ["planet/saturn/relationships/next/data"])])] ∧
  dump earth_human_apart = [] ∧
  dump (hooks earth_human_apart
          (addToHasMany (inhabitant "human") "planets" (planet "earth"))) =
    [("planet", [("earth", ["inhabitant/human/relationships/planets/data/planet:earth"])])] ∧
  dump (hooks earth_human
          (removeFromHasMany (inhabitant "human") "planets" (planet "earth"))) =
    [("inhabitant",
      [("human", ["planet/earth/relationships/inhabitants/data/inhabitant:human"])]);
     ("planet", [("earth", [])])] ∧
  dump (hooks earth_human (removeRecord (inhabitant "human"))) =
    [("inhabitant", []); ("planet", [("earth", [])])] ∧
  dump (hooks earth_human_apart
          (replaceRecord
             (make "inhabitant" "human" [("planets", Many {["planet:earth"]})]))) =
    [("planet", [("earth", ["inhabitant/human/relationships/planets/data/planet:earth"])])].
Proof. vm_compute. by repeat split. Qed.

Lemma replaceHasMany_updates_rev_witness :
  ¬ entry (hooks saturn_jupiter_moons (replaceHasMany (planet "saturn") "moons" [moon "europa"]))
          (moon "titan") "planet/saturn/relationships/moons/data/moon:titan" ∧
  entry (hooks saturn_jupiter_moons (replaceHasMany (planet "saturn") "moons" [moon "europa"]))
        (moon "europa") "planet/saturn/relationships/moons/data/moon:europa".
Proof.
  destruct (replaceHasMany_updates_rev saturn_jupiter_moons (planet "saturn") "moons"
              [moon "europa"]) as (Hcleared & Hmade & _).
  split.
  - apply (Hcleared (moon "titan")).
    + apply (bool_decide_unpack _). vm_compute. exact I.
    + apply (bool_decide_unpack _). vm_compute. exact I.
    + reflexivity.
  - apply (Hmade (moon "europa")). apply (bool_decide_unpack _). vm_compute. exact I.
Defined.

Lemma replaceHasOne_updates_rev_witness :
  relationshipKind saturn_jupiter_earth "planet" "next" = hasOne ∧
  entry (hooks saturn_jupiter_earth (replaceHasOne (planet "earth") "next" (Some (planet "jupiter"))))
        (planet "jupiter") "planet/earth/relationships/next/data".
Proof.
  split; [reflexivity|].
  destruct (replaceHasOne_updates_rev saturn_jupiter_earth (planet "earth")
              (planet "jupiter") "next" eq_refl) as (_ & Hmade & _).
  exact Hmade.
Defined.

Lemma removeRecord_clears_inverses_witness :
  has_record earth_human (inhabitant "human") = true ∧
  rev_of (hooks earth_human (removeRecord (inhabitant "human"))) (inhabitant "human") = None.
Proof.
  assert (has_record earth_human (inhabitant "human") = true) as Hhas
    by (vm_compute; reflexivity).
  split; [exact Hhas|].
  destruct (removeRecord_clears_inverses earth_human (inhabitant "human") Hhas)
    as (_ & _ & _ & Hgone & _).
  exact Hgone.
Defined.

End IntegrityFacts.

Module RegistryFacts.

Import Names Evented.

(** *** Event names *)

Lemma plain_app (s t : string) : plain (s ++ t)%string = plain s && plain t.
Proof.
  induction s as [|c s IH]; [reflexivity|].
  rewrite EventedFacts.append_cons. cbn [plain]. by rewrite IH, andb_assoc.
Qed.

(** The pieces [split] cuts hold no white space. *)
Lemma split_from_pieces (s cur : string) (in_ws : bool) :
  plain cur = true → Forall (λ p, plain p = true) (split_from s cur in_ws).
Proof.
  revert cur in_ws. induction s as [|c s IH]; intros cur in_ws Hcur; cbn [split_from].
  - by apply Forall_cons_2.
  - destruct (is_ws c) eqn:Hc.
    + destruct in_ws; [by apply IH|]. apply Forall_cons_2; [done|by apply IH].
    + apply IH. rewrite plain_app, Hcur. cbn. by rewrite Hc.
Qed.

Lemma split_ws_pieces (s : string) : Forall (λ p, plain p = true) (split_ws s).
Proof. by apply split_from_pieces. Qed.

Lemma split_from_behind (b : string) : plain b = true → split_from b "" true = [b].
Proof.
  destruct b as [|x b]; [done|]. cbn [plain split_from]. intros Hb.
  apply andb_true_iff in Hb as [Hx Hb]. apply negb_true_iff in Hx. rewrite Hx.
  by rewrite EventedFacts.split_from_plain.
Qed.

Lemma split_from_sep (a : string) (c : ascii) (rest cur : string) :
  plain a = true → is_ws c = true →
  split_from (a ++ String c rest)%string cur false =
  (cur ++ a)%string :: split_from rest "" true.
Proof.
  revert cur. induction a as [|x a IH]; intros cur Ha Hc.
  - change (split_from (String c rest) cur false =
            (cur ++ "")%string :: split_from rest "" true).
    cbn [split_from]. by rewrite Hc, EventedFacts.append_empty_r.
  - rewrite EventedFacts.append_cons. cbn [plain split_from] in *.
    apply andb_true_iff in Ha as [Hx Ha]. apply negb_true_iff in Hx.
    rewrite Hx, IH by done. by rewrite EventedFacts.append_String_assoc.
Qed.

(** Two names with one white space character between them. *)
Lemma split_ws_two (a b : string) (c : ascii) :
  plain a = true → plain b = true → is_ws c = true →
  split_ws (a ++ String c b)%string = [a; b].
Proof.
  intros Ha Hb Hc. unfold split_ws.
  by rewrite split_from_sep, split_from_behind.
Qed.

(** The inherited names hold no white space. *)
Lemma inherited_plain (name : string) : inherited name = true → plain name = true.
Proof.
  unfold inherited, inherited_names. intros Hin. apply bool_decide_eq_true in Hin.
  repeat (apply elem_of_cons in Hin as [->|Hin]; [reflexivity|]).
  by apply elem_of_nil in Hin.
Qed.

(** *** The registry under [on] and [off] *)

Lemma self_on_event cb b o n : self (on_event cb b o n).1 = self o.
Proof.
  unfold on_event, notifierForEvent.
  by destruct (lookup_notifier (notifiers o) n).
Qed.

Lemma self_off_event cb b o n : self (off_event cb b o n).1 = self o.
Proof.
  unfold off_event, notifierForEvent, removeNotifierForEvent.
  destruct (lookup_notifier (notifiers o) n) as [x| |] eqn:Hn; cbn; [| |done].
  - destruct cb; [done|]. cbn. by rewrite Hn.
  - destruct cb; [done|]. cbn. by rewrite Hn.
Qed.

(** Two rounds of a [forEach]. *)
Lemma for_each_two (f : evented → string → ended) (o : evented) (a b : string) :
  for_each f o [a; b] =
  match f o a with
  | (o1, None) => f o1 b
  | thrown => thrown
  end.
Proof. unfold for_each. cbn. by destruct (f o a) as [o1 [e|]]. Qed.

(** [listeners] reads the notifiers only. *)
Lemma listeners_events_agree (o o' : evented) (names : list string) :
  (∀ n, n ∈ names → notifiers o' !! n = notifiers o !! n) →
  ∀ acc, foldl (listeners_event o') acc names = foldl (listeners_event o) acc names.
Proof.
  induction names as [|x names IH]; intros Hsame acc; [done|].
  cbn [foldl].
  assert (listeners_event o' acc x = listeners_event o acc x) as ->.
  { unfold listeners_event, notifierForEvent, lookup_notifier.
    rewrite (Hsame x) by (apply elem_of_cons; auto).
    by destruct (notifiers o !! x); [|destruct (inherited x)]. }
  apply IH. intros n Hn. apply Hsame, elem_of_cons. auto.
Qed.

Lemma listeners_agree (o o' : evented) (eventNames : string) :
  (∀ n, n ∈ split_ws eventNames → notifiers o' !! n = notifiers o !! n) →
  listeners o' eventNames = listeners o eventNames.
Proof. intros Hsame. by apply listeners_events_agree. Qed.

Lemma listeners_of_on_event cb b o o' n e :
  inherited n = false →
  notifiers o' =
    <[n := addListener cb b (default (mkNotifier []) (notifiers o !! n))]> (notifiers o) →
  listeners_of (notifiers o') e =
  listeners_of (notifiers o) e ++ (if decide (n = e) then [Some (cb, b)] else []).
Proof.
  intros Hown Hnew. unfold listeners_of. rewrite Hnew.
  destruct (decide (n = e)) as [->|Hne].
  - rewrite !EventedFacts.lookup_notifier_own by done. rewrite lookup_insert_eq.
    destruct (notifiers o !! e); cbn; by rewrite ?fmap_app.
  - unfold lookup_notifier. rewrite lookup_insert_ne by done. by rewrite app_nil_r.
Qed.

Lemma on_events cb b e names :
  Forall (λ n, inherited n = false) names →
  ∀ o, ∃ o', for_each (on_event cb b) o names = (o', None) ∧ self o' = self o ∧
             listeners_of (notifiers o') e =
             listeners_of (notifiers o) e ++
             replicate (List.length (filter (λ n, n = e) names)) (Some (cb, b)).
Proof.
  unfold for_each.
  induction names as [|n names IH] using rev_ind; intros Hown o.
  - exists o. cbn. by rewrite app_nil_r.
  - apply Forall_app in Hown as [Hnames Hn]. apply Forall_cons in Hn as [Hn _].
    rewrite foldl_app. cbn [foldl].
    destruct (IH Hnames o) as (o1 & -> & Hself & Hls). cbn [fst snd].
    destruct (EventedFacts.on_event_own cb b o1 n Hn) as (o' & -> & Hself' & Hnew).
    exists o'. split; [done|]. split; [congruence|].
    rewrite (listeners_of_on_event cb b o1 o' n e Hn Hnew), Hls.
    rewrite filter_app, length_app, replicate_add, <- app_assoc. f_equal. f_equal.
    destruct (decide (n = e)) as [->|Hne].
    + by rewrite filter_cons_True.
    + by rewrite filter_cons_False.
Qed.

Lemma filter_absent (e : string) (names : list string) :
  e ∉ names → filter (λ n, n = e) names = [].
Proof.
  induction names as [|n names IH]; intros Hnot; [done|].
  apply not_elem_of_cons in Hnot as [Hne Hnot].
  rewrite filter_cons_False by (by intros ->). by apply IH.
Qed.

(** X1. Where none of the names is the name of a property objects inherit,
    [on] comes back, and it has put the pair of the callback and its binding
    behind the listeners of an event, once for every time the name of the
    event occurs in [eventNames]; the listeners of an event that is not
    named are as they were. *)
Theorem on_appends_per_name (o : evented) (eventNames : string) (callback : fn)
    (_binding : option obj) (eventName : string) :
  plain eventName = true →
  Forall (λ n, inherited n = false) (split_ws eventNames) →
  let pair := (callback, binding_or_this o _binding) in
  ∃ o', on o eventNames callback _binding = (o', None) ∧
        listeners o' eventName =
          listeners o eventName ++
          replicate (List.length (filter (λ n, n = eventName) (split_ws eventNames)))
                    (Some pair) ∧
        (eventName ∉ split_ws eventNames →
         listeners o' eventName = listeners o eventName).
Proof.
  intros Hp Hown pair. unfold on.
  destruct (on_events callback (binding_or_this o _binding) eventName
              (split_ws eventNames) Hown o) as (o' & Heq & _ & Hls).
  exists o'. split; [done|]. rewrite !EventedFacts.listeners_plain by done.
  split; [done|]. intros Hnot. rewrite Hls, filter_absent by done. apply app_nil_r.
Qed.

Lemma self_on o eventNames cb _b : self (on o eventNames cb _b).1 = self o.
Proof.
  unfold on, for_each. generalize (binding_or_this o _b). intros b.
  induction (split_ws eventNames) as [|n names IH] using rev_ind; [done|].
  rewrite foldl_app. cbn [foldl].
  destruct (foldl _ (o, None) names) as [o1 [e|]]; [done|].
  cbn [fst snd] in *. by rewrite self_on_event.
Qed.

Lemma self_off o eventNames cb _b : self (off o eventNames cb _b).1 = self o.
Proof.
  unfold off, for_each. generalize (binding_or_this o _b). intros b.
  induction (split_ws eventNames) as [|n names IH] using rev_ind; [done|].
  rewrite foldl_app. cbn [foldl].
  destruct (foldl _ (o, None) names) as [o1 [e|]]; [done|].
  cbn [fst snd] in *. by rewrite self_off_event.
Qed.

(** X2. Two event names with a white space character between them stand
    for one call per name, the left name first, the right one when the left
    one has come back: so it is for [on] and for [off], and [listeners]
    gives the listeners of the left name followed by those of the right
    one. *)
Theorem names_act_in_turn (o : evented) (a b : string) (c : ascii) :
  plain a = true → plain b = true → is_ws c = true →
  let eventNames := (a ++ String c b)%string in
  (∀ callback _binding,
      on o eventNames callback _binding =
      match on o a callback _binding with
      | (o1, None) => on o1 b callback _binding
      | thrown => thrown
      end) ∧
  (∀ callback _binding,
      off o eventNames callback _binding =
      match off o a callback _binding with
      | (o1, None) => off o1 b callback _binding
      | thrown => thrown
      end) ∧
  listeners o eventNames = listeners o a ++ listeners o b.
Proof.
  intros Ha Hb Hc eventNames. subst eventNames. split; [|split].
  - intros cb _b. pose proof (self_on o a cb _b) as Hself. unfold on in *.
    rewrite (split_ws_two a b c) by done.
    rewrite (EventedFacts.split_ws_plain a Ha) in *.
    rewrite (EventedFacts.split_ws_plain b Hb).
    rewrite for_each_two, EventedFacts.for_each_one in *.
    destruct (on_event cb (binding_or_this o _b) o a) as [o1 [e|]]; [done|].
    rewrite EventedFacts.for_each_one. cbn [fst] in Hself.
    unfold binding_or_this. by rewrite Hself.
  - intros cb _b. pose proof (self_off o a cb _b) as Hself. unfold off in *.
    rewrite (split_ws_two a b c) by done.
    rewrite (EventedFacts.split_ws_plain a Ha) in *.
    rewrite (EventedFacts.split_ws_plain b Hb).
    rewrite for_each_two, EventedFacts.for_each_one in *.
    destruct (off_event cb (binding_or_this o _b) o a) as [o1 [e|]]; [done|].
    rewrite EventedFacts.for_each_one. cbn [fst] in Hself.
    unfold binding_or_this. by rewrite Hself.
  - unfold listeners. rewrite (split_ws_two a b c) by done.
    rewrite (EventedFacts.split_ws_plain a Ha), (EventedFacts.split_ws_plain b Hb).
    cbn [foldl]. unfold listeners_event.
    destruct (notifierForEvent o a false).2, (notifierForEvent o b false).2;
      cbn; by rewrite ?app_nil_r.
Qed.

Lemma off_event_unregistered cb b o n :
  notifiers o !! n = None → (cb = None ∨ inherited n = false) →
  ∃ o', off_event cb b o n = (o', None) ∧ notifiers o' = notifiers o.
Proof.
  intros Hn Hsafe. unfold off_event, notifierForEvent, lookup_notifier. rewrite Hn.
  destruct (inherited n) eqn:Hin.
  - destruct Hsafe as [-> | ?]; [|done]. cbn.
    unfold removeNotifierForEvent, lookup_notifier. cbn. rewrite Hn, Hin.
    eexists. split; [reflexivity|]. cbn. by rewrite delete_id.
  - by eexists.
Qed.

Lemma off_events_unregistered cb b names :
  ∀ o, (∀ n, n ∈ names → notifiers o !! n = None) →
       (cb = None ∨ Forall (λ n, inherited n = false) names) →
       ∃ o', for_each (off_event cb b) o names = (o', None) ∧
             notifiers o' = notifiers o.
Proof.
  unfold for_each.
  induction names as [|x names IH] using rev_ind; intros o Hnone Hsafe; [by eexists|].
  rewrite foldl_app. cbn [foldl].
  destruct (IH o) as (o1 & -> & Hsame).
  { intros n Hn. apply Hnone, elem_of_app. auto. }
  { destruct Hsafe as [?|Hsafe]; [by left|]. right.
    by apply Forall_app in Hsafe as [? _]. }
  cbn [fst snd].
  destruct (off_event_unregistered cb b o1 x) as (o' & -> & Hsame').
  { rewrite Hsame. apply Hnone, elem_of_app. right. by apply list_elem_of_singleton. }
  { destruct Hsafe as [?|Hsafe]; [by left|]. right.
    apply Forall_app in Hsafe as [_ Hx]. by apply Forall_cons in Hx as [? _]. }
  exists o'. split; [done|]. congruence.
Qed.

(** X3. [off] for events the object keeps no notifier for changes nothing
    and comes back, without a callback under any names, with a callback
    under names that are not inherited: the notifiers are as before, and so
    are the listeners of every event. *)
Theorem off_unregistered_changes_nothing (o : evented) (eventNames : string)
    (callback : option fn) (_binding : option obj) :
  (∀ n, n ∈ split_ws eventNames → notifiers o !! n = None) →
  callback = None ∨ Forall (λ n, inherited n = false) (split_ws eventNames) →
  ∃ o', off o eventNames callback _binding = (o', None) ∧
        notifiers o' = notifiers o ∧
        ∀ names, listeners o' names = listeners o names.
Proof.
  intros Hnone Hsafe. unfold off.
  destruct (off_events_unregistered callback (binding_or_this o _binding)
              (split_ws eventNames) o Hnone Hsafe) as (o' & Heq & Hsame).
  exists o'. split; [done|]. split; [done|].
  intros names. apply listeners_agree. intros n _. by rewrite Hsame.
Qed.

(** [on] and then [off] with the callback, under one name. *)
Lemma on_then_off (o : evented) (eventName : string) (callback : fn)
    (_binding _binding' : option obj) :
  plain eventName = true → inherited eventName = false →
  ∃ o1 o2,
    on o eventName callback _binding = (o1, None) ∧
    off o1 eventName (Some callback) _binding' = (o2, None) ∧
    registered o2 eventName =
      remove_first (callback, binding_or_this o _binding')
        (registered o eventName ++ [(callback, binding_or_this o _binding)]).
Proof.
  intros Hp Hown.
  destruct (EventedFacts.listeners_on o eventName callback _binding Hp Hown)
    as (o1 & Hon & Hself & Hreg).
  exists o1. unfold off. rewrite (EventedFacts.split_ws_plain _ Hp).
  rewrite EventedFacts.for_each_one.
  destruct (EventedFacts.off_event_one o1 eventName callback
              (binding_or_this o1 _binding') Hown) as (o2 & Hoff & _ & Hnew).
  exists o2. split; [done|]. split; [done|].
  unfold registered at 1. rewrite Hnew, lookup_alter_eq.
  assert (binding_or_this o1 _binding' = binding_or_this o _binding') as ->
    by (unfold binding_or_this; by rewrite Hself).
  rewrite <- Hreg. unfold registered. by destruct (notifiers o1 !! eventName).
Qed.

Lemma remove_first_behind (l : registration) (before after : list registration) :
  l ∉ before →
  remove_first l ((before ++ l :: after) ++ [l]) = before ++ after ++ [l].
Proof.
  intros Hnot. rewrite <- app_assoc. cbn [app].
  by rewrite EventedFacts.remove_first_here.
Qed.

Lemma remove_first_last (l : registration) (ls : list registration) :
  l ∉ ls → remove_first l (ls ++ [l]) = ls.
Proof.
  intros Hnot. rewrite EventedFacts.remove_first_here by done. apply app_nil_r.
Qed.

(** X4. Under a name without white space that is not inherited, [on] and
    then [off] with the same callback and binding both come back.  When the
    pair was not registered before, the listeners of the event are as they
    were; when it was, it is the first pair of that callback and binding
    that is gone, and the new one stands at the end. *)
Theorem on_then_off_restores (o : evented) (eventName : string) (callback : fn)
    (_binding : option obj) :
  plain eventName = true → inherited eventName = false →
  let pair := (callback, binding_or_this o _binding) in
  ∃ o1 o2,
    on o eventName callback _binding = (o1, None) ∧
    off o1 eventName (Some callback) _binding = (o2, None) ∧
    (Some pair ∉ listeners o eventName →
     listeners o2 eventName = listeners o eventName) ∧
    (∀ before after,
        listeners o eventName = Some <$> (before ++ pair :: after) → pair ∉ before →
        listeners o2 eventName = Some <$> (before ++ after ++ [pair])).
Proof.
  intros Hp Hown pair.
  destruct (on_then_off o eventName callback _binding _binding Hp Hown)
    as (o1 & o2 & Hon & Hoff & Hreg).
  exists o1, o2. split; [done|]. split; [done|].
  rewrite !EventedFacts.listeners_registered by done. rewrite Hreg. fold pair. split.
  - intros Hnot. rewrite remove_first_last; [done|].
    intros Hin. apply Hnot. by apply EventedFacts.registered_listeners.
  - intros before after Hls Hnot. apply (inj (fmap Some)) in Hls.
    by rewrite Hls, remove_first_behind.
Qed.

(** X5. [off] takes a listener out only when it is given the binding the
    listener was registered with.  A callback registered with a binding of
    its own, other than the object itself, is still registered after [off]
    with the callback and no binding, which stands for the object. *)
Theorem off_needs_the_binding (o : evented) (eventName : string) (callback : fn)
    (binding : obj) :
  plain eventName = true → inherited eventName = false →
  binding ≠ self o →
  Some (callback, self o) ∉ listeners o eventName →
  ∃ o1 o2,
    on o eventName callback (Some binding) = (o1, None) ∧
    off o1 eventName (Some callback) None = (o2, None) ∧
    listeners o2 eventName = listeners o eventName ++ [Some (callback, binding)].
Proof.
  intros Hp Hown Hne Hnot.
  destruct (on_then_off o eventName callback (Some binding) None Hp Hown)
    as (o1 & o2 & Hon & Hoff & Hreg).
  exists o1, o2. split; [done|]. split; [done|].
  rewrite EventedFacts.listeners_registered in Hnot by done.
  rewrite !EventedFacts.listeners_registered by done. rewrite Hreg.
  change (binding_or_this o None) with (self o).
  change (binding_or_this o (Some binding)) with binding.
  rewrite EventedFacts.remove_first_absent.
  - by rewrite fmap_app.
  - rewrite elem_of_app, list_elem_of_singleton. intros [Hin|Heq].
    + apply Hnot. by apply EventedFacts.registered_listeners.
    + injection Heq as Heq. by apply Hne.
Qed.

(** X6. [one] takes its event name whole.  For a name without white space
    that is not inherited, the new listener comes behind the listeners of
    the event.  A name with white space in it is the name of no event that
    [listeners], and so the emitters, which split the names they are given,
    ever look up: [one] comes back and the listeners of every event are as
    before. *)
Theorem one_takes_the_name_whole (o : evented) (eventName : string) (callOnce : fn)
    (_binding : option obj) :
  (plain eventName = true → inherited eventName = false →
   ∃ o', one o eventName callOnce _binding = (o', None) ∧
         listeners o' eventName =
         listeners o eventName ++ [Some (callOnce, binding_or_this o _binding)]) ∧
  (plain eventName = false →
   ∃ o', one o eventName callOnce _binding = (o', None) ∧
         ∀ eventNames, listeners o' eventNames = listeners o eventNames).
Proof.
  split.
  - intros Hp Hown. unfold one.
    destruct (EventedFacts.on_event_own callOnce (binding_or_this o _binding) o
                eventName Hown) as (o' & Heq & _ & Hnew).
    exists o'. split; [done|]. rewrite !EventedFacts.listeners_plain by done.
    rewrite (listeners_of_on_event _ _ o o' eventName eventName Hown Hnew).
    by rewrite decide_True.
  - intros Hp. unfold one.
    assert (inherited eventName = false) as Hown.
    { destruct (inherited eventName) eqn:Hin; [|done].
      apply inherited_plain in Hin. congruence. }
    destruct (EventedFacts.on_event_own callOnce (binding_or_this o _binding) o
                eventName Hown) as (o' & Heq & _ & Hnew).
    exists o'. split; [done|]. intros eventNames. apply listeners_agree. intros n Hn.
    rewrite Hnew. apply lookup_insert_ne.
    intros ->. pose proof (split_ws_pieces eventNames) as Hall.
    rewrite Forall_forall in Hall. specialize (Hall _ Hn). congruence.
Qed.

(** X23. The registry is an object literal, which finds under
    [constructor], [toString] and the other names of [inherited_names] the
    property every object inherits, where it keeps no notifier of its own
    under the name.  For such a name [on], [one] and [off] with a callback
    throw a [TypeError] and leave the notifiers as they are; [off] without a
    callback comes back and changes nothing; [listeners] gives one element,
    [undefined]; so [resolve] and [series] reject with the [TypeError] of
    reading [listener[0]], and [settle], which catches it, resolves. *)
Theorem inherited_names_break_the_registry (o : evented) (eventName : string) :
  inherited eventName = true → notifiers o !! eventName = None →
  (∀ callback _binding, ∃ o',
      on o eventName callback _binding = (o', Some TypeError) ∧
      notifiers o' = notifiers o) ∧
  (∀ callOnce _binding, ∃ o',
      one o eventName callOnce _binding = (o', Some TypeError) ∧
      notifiers o' = notifiers o) ∧
  (∀ callback _binding, ∃ o',
      off o eventName (Some callback) _binding = (o', Some TypeError) ∧
      notifiers o' = notifiers o) ∧
  (∀ _binding, ∃ o',
      off o eventName None _binding = (o', None) ∧ notifiers o' = notifiers o) ∧
  listeners o eventName = [None] ∧
  (∀ apply args,
      resolve apply args o eventName = Some (Rejected TypeError, [None]) ∧
      series apply args o eventName = Some (Rejected TypeError, [None]) ∧
      settle apply args o eventName = Some (Fulfilled VUndefined, [None])).
Proof.
  intros Hin Hn. pose proof (inherited_plain _ Hin) as Hp.
  assert (lookup_notifier (notifiers o) eventName = Foreign) as Hfound
    by (unfold lookup_notifier; by rewrite Hn, Hin).
  assert (listeners o eventName = [None]) as Hls.
  { rewrite EventedFacts.listeners_plain by done. unfold listeners_of. by rewrite Hfound. }
  split; [|split; [|split; [|split; [|split]]]].
  - intros cb _b. unfold on. rewrite (EventedFacts.split_ws_plain _ Hp).
    rewrite EventedFacts.for_each_one. unfold on_event, notifierForEvent.
    rewrite Hfound. by eexists.
  - intros cb _b. unfold one, on_event, notifierForEvent. rewrite Hfound. by eexists.
  - intros cb _b. unfold off. rewrite (EventedFacts.split_ws_plain _ Hp).
    rewrite EventedFacts.for_each_one. unfold off_event, notifierForEvent.
    rewrite Hfound. by eexists.
  - intros _b. unfold off. rewrite (EventedFacts.split_ws_plain _ Hp).
    rewrite EventedFacts.for_each_one.
    destruct (off_event_unregistered None (binding_or_this o _b) o eventName Hn)
      as (o' & Heq & Hsame); [by left|]. by exists o'.
  - done.
  - intros apply args. unfold resolve, series, settle. rewrite Hls. by repeat split.
Qed.

(** *** The statements on the listeners of [Examples] *)

Import Examples.

(** Callback nine registered for [greeting], [farewell] and [greeting]
    again: it comes twice behind the listener that was there. *)
Lemma on_appends_per_name_witness :
  plain "greeting" = true ∧
  Forall (λ n, inherited n = false) (split_ws "greeting farewell greeting") ∧
  ∃ o', on (greeted [1]) "greeting farewell greeting" 9 None = (o', None) ∧
        listeners o' "greeting" = [Some (1, 0); Some (9, 0); Some (9, 0)].
Proof.
  assert (Forall (λ n, inherited n = false) (split_ws "greeting farewell greeting"))
    as Hown by (repeat (apply Forall_cons_2; [reflexivity|]); apply Forall_nil_2).
  split; [reflexivity|]. split; [exact Hown|].
  destruct (on_appends_per_name (greeted [1]) "greeting farewell greeting" 9 None
              "greeting" eq_refl Hown) as (o' & Hon & Happended & _).
  exists o'. split; [exact Hon|]. exact Happended.
Defined.

Lemma names_act_in_turn_witness :
  plain "greeting" = true ∧ plain "farewell" = true ∧ is_ws " " = true ∧
  listeners (greeted [1]) "greeting farewell" =
    listeners (greeted [1]) "greeting" ++ listeners (greeted [1]) "farewell".
Proof.
  split; [reflexivity|]. split; [reflexivity|]. split; [reflexivity|].
  destruct (names_act_in_turn (greeted [1]) "greeting" "farewell" " "
              eq_refl eq_refl eq_refl) as (_ & _ & Hlisteners).
  exact Hlisteners.
Defined.

(** Nobody listens for [farewell]. *)
Lemma off_unregistered_changes_nothing_witness :
  (∀ n, n ∈ split_ws "farewell" → notifiers (greeted [1]) !! n = None) ∧
  Forall (λ n, inherited n = false) (split_ws "farewell") ∧
  ∃ o', off (greeted [1]) "farewell" (Some 1) None = (o', None) ∧
        notifiers o' = notifiers (greeted [1]).
Proof.
  assert (∀ n, n ∈ split_ws "farewell" → notifiers (greeted [1]) !! n = None) as Hnone.
  { intros n Hn. apply list_elem_of_singleton in Hn as ->. vm_compute. reflexivity. }
  assert (Forall (λ n, inherited n = false) (split_ws "farewell")) as Hown
    by (apply Forall_cons_2; [reflexivity|apply Forall_nil_2]).
  split; [exact Hnone|]. split; [exact Hown|].
  destruct (off_unregistered_changes_nothing (greeted [1]) "farewell" (Some 1) None Hnone
              (or_intror Hown)) as (o' & Hoff & Hsame & _).
  exists o'. split; [exact Hoff | exact Hsame].
Defined.

Lemma on_then_off_restores_witness :
  plain "greeting" = true ∧ inherited "greeting" = false ∧
  (Some (2, 0) ∉ listeners (greeted [1]) "greeting") ∧
  ∃ o1 o2, on (greeted [1]) "greeting" 2 None = (o1, None) ∧
           off o1 "greeting" (Some 2) None = (o2, None) ∧
           listeners o2 "greeting" = listeners (greeted [1]) "greeting".
Proof.
  assert (Some (2, 0) ∉ listeners (greeted [1]) "greeting") as Hnot.
  { apply (bool_decide_unpack _). vm_compute. exact I. }
  split; [reflexivity|]. split; [reflexivity|]. split; [exact Hnot|].
  destruct (on_then_off_restores (greeted [1]) "greeting" 2 None eq_refl eq_refl)
    as (o1 & o2 & Hon & Hoff & Hback & _).
  exists o1, o2. split; [exact Hon|]. split; [exact Hoff|]. exact (Hback Hnot).
Defined.

(** Callback two registered with object seven as its binding. *)
Lemma off_needs_the_binding_witness :
  plain "greeting" = true ∧ inherited "greeting" = false ∧
  7 ≠ self (greeted [1]) ∧
  (Some (2, self (greeted [1])) ∉ listeners (greeted [1]) "greeting") ∧
  ∃ o1 o2, on (greeted [1]) "greeting" 2 (Some 7) = (o1, None) ∧
           off o1 "greeting" (Some 2) None = (o2, None) ∧
           listeners o2 "greeting" = listeners (greeted [1]) "greeting" ++ [Some (2, 7)].
Proof.
  assert (7 ≠ self (greeted [1])) as Hne by (vm_compute; discriminate).
  assert (Some (2, self (greeted [1])) ∉ listeners (greeted [1]) "greeting") as Hnot.
  { apply (bool_decide_unpack _). vm_compute. exact I. }
  split; [reflexivity|]. split; [reflexivity|]. split; [exact Hne|]. split; [exact Hnot|].
  exact (off_needs_the_binding (greeted [1]) "greeting" 2 7 eq_refl eq_refl Hne Hnot).
Defined.

(** [one] with two names in one string: neither event gets the listener. *)
Lemma one_takes_the_name_whole_witness :
  plain "greeting farewell" = false ∧
  ∃ o', one (greeted [1]) "greeting farewell" 9 None = (o', None) ∧
        listeners o' "greeting farewell" = listeners (greeted [1]) "greeting farewell".
Proof.
  split; [reflexivity|].
  destruct (one_takes_the_name_whole (greeted [1]) "greeting farewell" 9 None)
    as [_ Hwhole].
  destruct (Hwhole eq_refl) as (o' & Hone & Hsame).
  exists o'. split; [exact Hone|]. exact (Hsame "greeting farewell").
Defined.

(** An event called [constructor]. *)
Lemma inherited_names_break_the_registry_witness :
  inherited "constructor" = true ∧
  notifiers (greeted [1]) !! "constructor" = None ∧
  (∃ o', on (greeted [1]) "constructor" 2 None = (o', Some TypeError)) ∧
  listeners (greeted [1]) "constructor" = [None].
Proof.
  assert (notifiers (greeted [1]) !! "constructor" = None) as Hnone
    by (vm_compute; reflexivity).
  split; [reflexivity|]. split; [exact Hnone|].
  destruct (inherited_names_break_the_registry (greeted [1]) "constructor" eq_refl Hnone)
    as (Hon & _ & _ & _ & Hls & _).
  split; [|exact Hls]. destruct (Hon 2 None) as (o' & Heq & _). by exists o'.
Defined.

End RegistryFacts.

Module EmitterEdges.

Import Names Evented.

Section Edges.

Variable apply : fn → obj → list value → completion.
Variable args : list value.

Local Abbreviation seriesEach := (seriesEach apply args).
Local Abbreviation settleEach := (settleEach apply args).
Local Abbreviation resolveEach := (resolveEach apply args).
Local Abbreviation passes := (passes apply args).
Local Abbreviation settled := (settled apply args).
Local Abbreviation skipped := (skipped apply args).
Local Abbreviation rejects := (rejects apply args).
Local Abbreviation returns_falsy := (returns_falsy apply args).
Local Abbreviation hangs := (hangs apply args).
Local Abbreviation fulfils_with := (fulfils_with apply args).
Local Abbreviation series_course := (series_course apply args).
Local Abbreviation response_of := (response_of apply args).

(** *** The order in which the emitters apply the listeners *)

Lemma series_course_prefix (ls : list listener) : (series_course ls).2 `prefix_of` ls.
Proof.
  induction ls as [|l ls IH]; [done|]. cbn [Evented.series_course].
  assert ([l] `prefix_of` l :: ls) as Hone by (by exists ls).
  assert ((and_then l (series_course ls)).2 `prefix_of` l :: ls) as Hnext
    by (cbn; by apply prefix_cons).
  destruct (response_of l) as [[v|[v|e|]]|e]; try done.
  by destruct (truthy v).
Qed.

(** The local function of [resolve] moves the listeners from the array to
    the listeners applied, one at a time from the front. *)
Lemma resolveEach_order fuel :
  ∀ ls c tr con, List.length ls < fuel →
    ∃ r st', resolveEach fuel (mkRun ls c tr con) = (r, st') ∧ r ≠ OutOfFuel ∧
             invoked st' ++ queue st' = tr ++ ls.
Proof.
  induction fuel as [|fuel IH]; intros ls c tr con Hfuel; [lia|].
  destruct ls as [|l rest].
  - rewrite EventedFacts.resolveEach_nil. eexists _, _. by repeat split.
  - assert (List.length rest < fuel) as Hrest by (simpl in Hfuel; lia).
    rewrite EventedFacts.resolveEach_cons. cbv zeta.
    destruct (IH rest c (tr ++ [l]) con Hrest) as (r & st' & Heq & Hr & Hinv).
    rewrite <- app_assoc in Hinv. cbn [app] in Hinv.
    assert (invoked (mkRun rest c (tr ++ [l]) con) ++ queue (mkRun rest c (tr ++ [l]) con)
            = tr ++ l :: rest) as Hhere by (cbn; by rewrite <- app_assoc).
    destruct (response_of l) as [[v|[v|e|]]|e].
    + destruct (truthy v); [eexists _, _; by repeat split|].
      rewrite Heq. destruct r; [| |done]; eexists _, _; by repeat split.
    + eexists _, _. by repeat split.
    + rewrite Heq. destruct r; [| |done]; eexists _, _; by repeat split.
    + eexists _, _. by repeat split.
    + eexists _, _. by repeat split.
Qed.

(** The same for [settle], whose local function may be called again from
    the handler of [catch]. *)
Lemma settleEach_order fuel :
  ∀ st, List.length (queue st) < fuel →
    ∃ r st', settleEach fuel st = (r, st') ∧ r ≠ OutOfFuel ∧
             (List.length (queue st') ≤ List.length (queue st))%nat ∧
             invoked st' ++ queue st' = invoked st ++ queue st.
Proof.
  induction fuel as [|fuel IH]; intros [ls c tr con] Hfuel; cbn in Hfuel; [lia|].
  destruct ls as [|l rest].
  - rewrite EventedFacts.settleEach_nil. eexists _, _. by repeat split.
  - assert (List.length rest < fuel) as Hrest by (simpl in Hfuel; lia).
    rewrite EventedFacts.settleEach_cons. cbv zeta. cbn [queue invoked List.length].
    assert (∀ st, (List.length (queue st) ≤ List.length rest)%nat →
                  invoked st ++ queue st = tr ++ l :: rest →
              ∃ r st', settleEach fuel st = (r, st') ∧ r ≠ OutOfFuel ∧
                       (List.length (queue st') ≤ List.length rest)%nat ∧
                       invoked st' ++ queue st' = tr ++ l :: rest) as Hnext.
    { intros st Hq Hst.
      destruct (IH st) as (r & st' & Heq & Hr & Hlen & Hinv); [lia|].
      exists r, st'. repeat split; [done|done|lia|congruence]. }
    assert (∀ st, (List.length (queue st) ≤ List.length rest)%nat →
                  invoked st ++ queue st = tr ++ l :: rest →
              ∃ r st', handled (settleEach fuel st) = (r, st') ∧ r ≠ OutOfFuel ∧
                       (List.length (queue st') ≤ List.length rest)%nat ∧
                       invoked st' ++ queue st' = tr ++ l :: rest) as Hhandled.
    { intros st Hq Hst. destruct (Hnext st Hq Hst) as (r & st' & -> & Hr & Hlen & Hinv).
      destruct r as [x|e|]; [| |done]; eexists _, _; (split; [reflexivity|]);
        by repeat split. }
    assert (∀ st, (List.length (queue st) ≤ List.length rest)%nat →
                  invoked st ++ queue st = tr ++ l :: rest →
              ∃ r st', dropped (settleEach fuel st) = (r, st') ∧ r ≠ OutOfFuel ∧
                       (List.length (queue st') ≤ List.length rest)%nat ∧
                       invoked st' ++ queue st' = tr ++ l :: rest) as Hdropped.
    { intros st Hq Hst. destruct (Hnext st Hq Hst) as (r & st' & -> & Hr & Hlen & Hinv).
      destruct r as [x|e|]; [| |done]; eexists _, _; (split; [reflexivity|]);
        by repeat split. }
    assert (∀ con', invoked (mkRun rest c (tr ++ [l]) con') ++
                    queue (mkRun rest c (tr ++ [l]) con') = tr ++ l :: rest) as Hhere
      by (intros con'; cbn; by rewrite <- app_assoc).
    destruct (response_of l) as [[v|[v|e|]]|e].
    + destruct (truthy v).
      * eexists _, _. split; [reflexivity|]. split; [done|]. split; [cbn; lia|apply Hhere].
      * destruct (Hdropped (mkRun rest c (tr ++ [l]) con)) as (r & st' & -> & Hr & Hlen & Hinv);
          [done|apply Hhere|]. exists r, st'. repeat split; [done|lia|done].
    + destruct (Hnext (mkRun rest c (tr ++ [l]) con)) as (r & st2 & -> & Hr & Hlen & Hinv);
        [done|apply Hhere|].
      destruct r as [x|e|]; [| |done].
      * destruct (adopt x) as [w|e|].
        -- eexists _, _. split; [reflexivity|]. split; [done|]. split; [lia|done].
        -- destruct (Hhandled st2 Hlen Hinv) as (r & st' & -> & Hr' & Hlen' & Hinv').
           exists r, st'. repeat split; [done|lia|done].
        -- eexists _, _. split; [reflexivity|]. split; [done|]. split; [lia|done].
      * destruct (Hhandled st2 Hlen Hinv) as (r & st' & -> & Hr' & Hlen' & Hinv').
        exists r, st'. repeat split; [done|lia|done].
    + destruct (Hhandled (mkRun rest c (tr ++ [l]) con)) as (r & st' & -> & Hr & Hlen & Hinv);
        [done|apply Hhere|]. exists r, st'. repeat split; [done|lia|done].
    + eexists _, _. split; [reflexivity|]. split; [done|]. split; [cbn; lia|apply Hhere].
    + destruct (nullish e).
      * eexists _, _. split; [reflexivity|]. split; [done|]. split; [cbn; lia|apply Hhere].
      * destruct (Hdropped (mkRun rest c (tr ++ [l]) ((con ++ [ignored]) ++ [e])))
          as (r & st' & -> & Hr & Hlen & Hinv); [done|apply Hhere|].
        exists r, st'. repeat split; [done|lia|done].
Qed.

(** X8. Whatever the listeners do, each of the three emitters comes to an
    end, and the listeners it has applied are the first ones of
    [listeners(eventNames)], in their order: no listener is applied twice,
    none out of turn, none that is not registered. *)
Theorem emitters_apply_a_prefix (o : evented) (eventNames : string) :
  (∃ out applied, resolve apply args o eventNames = Some (out, applied) ∧
                  applied `prefix_of` listeners o eventNames) ∧
  (∃ out applied, settle apply args o eventNames = Some (out, applied) ∧
                  applied `prefix_of` listeners o eventNames) ∧
  (∃ out applied, series apply args o eventNames = Some (out, applied) ∧
                  applied `prefix_of` listeners o eventNames).
Proof.
  unfold resolve, settle, series. generalize (listeners o eventNames). intros ls.
  split; [|split].
  - unfold resolve_on, new_promise.
    destruct (resolveEach_order (S (List.length ls)) ls Pending [] [] (Nat.lt_succ_diag_r _))
      as (r & st' & -> & Hr & Hinv). cbn [app] in Hinv.
    destruct r as [x|e|]; [| |done]; eexists _, _; (split; [reflexivity|]);
      by exists (queue st').
  - unfold settle_on, new_promise.
    destruct (settleEach_order (S (List.length ls)) (mkRun ls Pending [] []))
      as (r & st' & -> & Hr & _ & Hinv); [cbn; lia|]. cbn [app invoked queue] in Hinv.
    destruct r as [x|e|]; [| |done]; eexists _, _; (split; [reflexivity|]);
      by exists (queue st').
  - rewrite EventedFacts.series_on_course.
    destruct (series_course ls) as [out applied] eqn:Hcourse.
    eexists _, _. split; [reflexivity|].
    pose proof (series_course_prefix ls) as Hprefix. by rewrite Hcourse in Hprefix.
Qed.

(** *** A listener whose promise never settles *)

Lemma resolveEach_hangs pre l post :
  Forall skipped pre → hangs l →
  ∀ fuel c tr con, List.length pre < fuel →
    ∃ r, resolveEach fuel (mkRun (pre ++ l :: post) c tr con) =
         (Ok r, mkRun post c (tr ++ pre ++ [l]) con).
Proof.
  intros Hpre Hl. induction Hpre as [|x pre Hx _ IH]; intros fuel c tr con Hfuel;
    (destruct fuel as [|fuel]; [simpl in Hfuel; lia|]); cbn [app].
  - rewrite EventedFacts.resolveEach_cons, Hl. cbn. eauto.
  - assert (List.length pre < fuel) as Hrest by (simpl in Hfuel; lia).
    rewrite EventedFacts.resolveEach_cons. cbv zeta.
    destruct (IH fuel c (tr ++ [x]) con Hrest) as (r & Heq).
    rewrite <- app_assoc in Heq. cbn [app] in Heq.
    destruct Hx as [(w & -> & ->)|(e & ->)]; rewrite Heq; cbn; eauto.
Qed.

Lemma settleEach_hangs pre l post :
  Forall settled pre → hangs l →
  ∀ fuel c tr con, List.length pre < fuel →
    ∃ r con', quiet r ∧
      settleEach fuel (mkRun (pre ++ l :: post) c tr con) =
      (r, mkRun post c (tr ++ pre ++ [l]) con').
Proof.
  intros Hpre Hl. induction Hpre as [|x pre Hx _ IH]; intros fuel c tr con Hfuel;
    (destruct fuel as [|fuel]; [simpl in Hfuel; lia|]); cbn [app].
  - rewrite EventedFacts.settleEach_cons, Hl. cbn.
    eexists _, _. split; [apply EventedFacts.quiet_pending|reflexivity].
  - assert (List.length pre < fuel) as Hrest by (simpl in Hfuel; lia).
    rewrite EventedFacts.settleEach_cons. cbv zeta.
    assert (∀ con0, ∃ r con', quiet r ∧
              settleEach fuel (mkRun (pre ++ l :: post) c (tr ++ [x]) con0) =
              (r, mkRun post c (tr ++ x :: pre ++ [l]) con')) as Hnext.
    { intros con0. destruct (IH fuel c (tr ++ [x]) con0 Hrest) as (r & con' & Hq & Heq).
      rewrite <- app_assoc in Heq. cbn [app] in Heq. eauto. }
    destruct Hx as [(e & -> & ->)|[[(v & -> & ->)|(v & ->)]|(e & ->)]].
    + destruct (Hnext ((con ++ [ignored]) ++ [e])) as (r & con' & (y & -> & Hy) & ->).
      cbn. eexists _, _. split; [apply EventedFacts.quiet_undefined|reflexivity].
    + destruct (Hnext con) as (r & con' & (y & -> & Hy) & ->).
      cbn. eexists _, _. split; [apply EventedFacts.quiet_undefined|reflexivity].
    + destruct (Hnext con) as (r & con' & (y & -> & Hy) & ->).
      destruct (adopt y) as [w|e|] eqn:Hay; [| by destruct (Hy e) |];
        eexists _, _; (split; [|reflexivity]).
      * apply EventedFacts.quiet_fulfilled.
      * apply EventedFacts.quiet_pending.
    + destruct (Hnext con) as (r & con' & (y & -> & Hy) & ->). cbn.
      eexists _, _. split; [|reflexivity]. eexists. split; [reflexivity|]. apply Hy.
Qed.

(** X9. The emitters wait without end for a listener whose promise never
    settles: the composite promise stays pending and the listeners behind it
    are not applied. *)
Theorem pending_listener_stalls (o : evented) (eventNames : string)
    (pre post : list listener) (l : listener) :
  listeners o eventNames = pre ++ l :: post → hangs l →
  (Forall skipped pre →
   resolve apply args o eventNames = Some (Pending, pre ++ [l])) ∧
  (Forall settled pre →
   settle apply args o eventNames = Some (Pending, pre ++ [l])) ∧
  (Forall passes pre →
   series apply args o eventNames = Some (Pending, pre ++ [l])).
Proof.
  intros Hls Hl. unfold resolve, settle, series. rewrite Hls.
  assert (List.length pre < S (List.length (pre ++ l :: post))) as Hfuel
    by (rewrite length_app; lia).
  split; [|split]; intros Hpre.
  - unfold resolve_on, new_promise.
    by destruct (resolveEach_hangs pre l post Hpre Hl _ Pending [] [] Hfuel) as (r & ->).
  - unfold settle_on, new_promise.
    by destruct (settleEach_hangs pre l post Hpre Hl _ Pending [] [] Hfuel)
      as (r & con' & (x & -> & _) & ->).
  - rewrite EventedFacts.series_on_course, (EventedFacts.series_course_passes _ _ _ _ Hpre).
    cbn [Evented.series_course]. unfold Evented.hangs in Hl. by rewrite Hl.
Qed.

(** *** A listener that returns a truthy value without [then], or throws *)

Lemma settleEach_plain pre l post v :
  Forall returns_falsy pre → response_of l = Return (RVal v) → truthy v = true →
  ∀ fuel c tr con, List.length pre < fuel →
    settleEach fuel (mkRun (pre ++ l :: post) c tr con) =
    (Raise TypeError, mkRun post c (tr ++ pre ++ [l]) con).
Proof.
  intros Hpre Hl Hv. induction Hpre as [|x pre Hx _ IH]; intros fuel c tr con Hfuel;
    (destruct fuel as [|fuel]; [simpl in Hfuel; lia|]); cbn [app].
  - by rewrite EventedFacts.settleEach_cons, Hl, Hv.
  - assert (List.length pre < fuel) as Hrest by (simpl in Hfuel; lia).
    rewrite EventedFacts.settleEach_cons. cbv zeta.
    destruct Hx as (w & -> & ->). rewrite (IH fuel c (tr ++ [x]) con Hrest).
    cbn. by rewrite <- app_assoc.
Qed.

(** What the local function of [resolve] comes to when the listener [l]
    makes it throw: behind listeners that returned falsy values the
    exception leaves the function; behind a promise that rejected the
    function was called by the handler of [catch], which keeps it. *)
Lemma resolveEach_raised pre l post e :
  Forall skipped pre →
  (∀ fuel c tr con, resolveEach (S fuel) (mkRun (l :: post) c tr con) =
                    (Raise e, mkRun post c (tr ++ [l]) con)) →
  ∀ fuel c tr con, List.length pre < fuel →
    ∃ r, resolveEach fuel (mkRun (pre ++ l :: post) c tr con) =
         (r, mkRun post c (tr ++ pre ++ [l]) con) ∧
         r ≠ OutOfFuel ∧
         (Forall returns_falsy pre → r = Raise e) ∧
         (Exists rejects pre → ∃ x, r = Ok x).
Proof.
  intros Hpre Hl. induction Hpre as [|x pre Hx _ IH]; intros fuel c tr con Hfuel;
    (destruct fuel as [|fuel]; [simpl in Hfuel; lia|]); cbn [app].
  - rewrite Hl. eexists. split; [reflexivity|]. split; [done|]. split; [done|].
    intros Hex. by apply Exists_nil in Hex.
  - assert (List.length pre < fuel) as Hrest by (simpl in Hfuel; lia).
    rewrite EventedFacts.resolveEach_cons. cbv zeta.
    destruct (IH fuel c (tr ++ [x]) con Hrest) as (r & Heq & Hr & Hfalsy & Hrej).
    rewrite <- app_assoc in Heq. cbn [app] in Heq.
    destruct Hx as [(w & Hx & Hw)|(e' & Hx)]; rewrite Hx, ?Hw, Heq.
    + destruct r as [y|e0|]; [| |done]; cbn; eexists; (split; [reflexivity|]);
        (split; [done|]); split.
      * intros Hall. apply Forall_cons in Hall as [_ Hall]. by specialize (Hfalsy Hall).
      * eauto.
      * intros Hall. apply Forall_cons in Hall as [_ Hall]. by apply Hfalsy.
      * intros Hex. apply Exists_cons in Hex as [(e1 & He1)|Hex].
        -- unfold Evented.response_of in *. congruence.
        -- by destruct (Hrej Hex).
    + destruct r as [y|e0|]; [| |done]; cbn; eexists; (split; [reflexivity|]);
        (split; [done|]); split; eauto;
        intros Hall; apply Forall_cons in Hall as [(w & Hw & _) _];
        unfold Evented.response_of in *; congruence.
Qed.

Lemma resolveEach_throws l post e :
  response_of l = Throw e →
  ∀ fuel c tr con, resolveEach (S fuel) (mkRun (l :: post) c tr con) =
                   (Raise e, mkRun post c (tr ++ [l]) con).
Proof. intros Hl fuel c tr con. by rewrite EventedFacts.resolveEach_cons, Hl. Qed.

Lemma resolveEach_plain l post v :
  response_of l = Return (RVal v) → truthy v = true →
  ∀ fuel c tr con, resolveEach (S fuel) (mkRun (l :: post) c tr con) =
                   (Raise TypeError, mkRun post c (tr ++ [l]) con).
Proof. intros Hl Hv fuel c tr con. by rewrite EventedFacts.resolveEach_cons, Hl, Hv. Qed.

(** X10. A listener that returns a truthy value that is no promise has no
    [then] for the emitters to call: behind listeners that returned falsy
    values, each of the three emitters rejects the composite promise with
    the [TypeError], and the listeners behind that one are not applied. *)
Theorem plain_value_rejects_with_TypeError (o : evented) (eventNames : string)
    (pre post : list listener) (l : listener) (v : value) :
  listeners o eventNames = pre ++ l :: post →
  Forall returns_falsy pre →
  response_of l = Return (RVal v) → truthy v = true →
  resolve apply args o eventNames = Some (Rejected TypeError, pre ++ [l]) ∧
  settle apply args o eventNames = Some (Rejected TypeError, pre ++ [l]) ∧
  series apply args o eventNames = Some (Rejected TypeError, pre ++ [l]).
Proof.
  intros Hls Hpre Hl Hv. unfold resolve, settle, series. rewrite Hls.
  assert (List.length pre < S (List.length (pre ++ l :: post))) as Hfuel
    by (rewrite length_app; lia).
  split; [|split].
  - unfold resolve_on, new_promise.
    assert (Forall skipped pre) as Hskip
      by (eapply Forall_impl; [exact Hpre|]; intros x Hx; by left).
    destruct (resolveEach_raised pre l post TypeError Hskip
                (resolveEach_plain l post v Hl Hv) _ Pending [] [] Hfuel)
      as (r & -> & _ & Hraise & _).
    by rewrite (Hraise Hpre).
  - unfold settle_on, new_promise.
    by rewrite (settleEach_plain pre l post v Hpre Hl Hv _ Pending [] [] Hfuel).
  - rewrite EventedFacts.series_on_course.
    rewrite (EventedFacts.series_course_passes apply args pre (l :: post)).
    + cbn [Evented.series_course]. unfold Evented.response_of in Hl. 
      unfold Evented.response_of. by rewrite Hl, Hv.
    + eapply Forall_impl; [exact Hpre|]. intros x Hx. by left.
Qed.

(** X11. What [resolve] does with a listener that throws depends on the
    listeners before it.  Behind listeners that returned falsy values the
    composite promise is rejected with what was thrown.  Behind a listener
    whose promise rejected, the exception is thrown in the handler of
    [catch], whose promise nobody keeps: the composite promise is never
    settled.  The listeners behind the one that throws are not applied in
    either case. *)
Theorem resolve_with_a_throwing_listener (o : evented) (eventNames : string)
    (pre post : list listener) (l : listener) (e : value) :
  listeners o eventNames = pre ++ l :: post →
  Forall skipped pre → response_of l = Throw e →
  (Forall returns_falsy pre →
   resolve apply args o eventNames = Some (Rejected e, pre ++ [l])) ∧
  (Exists rejects pre →
   resolve apply args o eventNames = Some (Pending, pre ++ [l])).
Proof.
  intros Hls Hpre Hl. unfold resolve, resolve_on, new_promise. rewrite Hls.
  assert (List.length pre < S (List.length (pre ++ l :: post))) as Hfuel
    by (rewrite length_app; lia).
  destruct (resolveEach_raised pre l post e Hpre (resolveEach_throws l post e Hl)
              _ Pending [] [] Hfuel) as (r & -> & _ & Hraise & Hkept).
  split.
  - intros Hfalsy. by rewrite (Hraise Hfalsy).
  - intros Hex. by destruct (Hkept Hex) as (x & ->).
Qed.

(** *** [settle] and a truthy value without [then] *)






End Edges.

(** *** The statements on the listeners of [Examples] *)

Import Examples.

(** Listener eight between listeners one and two. *)
Lemma pending_listener_stalls_witness :
  resolve apply_or_wait [] (greeted [1; 8; 2]) "greeting" =
    Some (Pending, [Some (1, 0); Some (8, 0)]) ∧
  settle apply_or_wait [] (greeted [1; 8; 2]) "greeting" =
    Some (Pending, [Some (1, 0); Some (8, 0)]) ∧
  series apply_or_wait [] (greeted [1; 8; 2]) "greeting" =
    Some (Pending, [Some (1, 0); Some (8, 0)]).
Proof.
  destruct (pending_listener_stalls apply_or_wait [] (greeted [1; 8; 2]) "greeting"
              [Some (1, 0)] [Some (2, 0)] (Some (8, 0))) as (Hresolve & Hsettle & Hseries).
  - vm_compute. reflexivity.
  - reflexivity.
  - assert (returns_falsy apply_or_wait [] (Some (1, 0))) as Hone
      by (exists VUndefined; split; reflexivity).
    split; [|split].
    + apply Hresolve. apply Forall_cons_2; [left; exact Hone|apply Forall_nil_2].
    + apply Hsettle.
      apply Forall_cons_2; [right; left; left; exact Hone|apply Forall_nil_2].
    + apply Hseries. apply Forall_cons_2; [left; exact Hone|apply Forall_nil_2].
Defined.

(** Listener six, which returns the number one, between listeners one and
    two. *)
Lemma plain_value_rejects_with_TypeError_witness :
  resolve Examples.apply [] (greeted [1; 6; 2]) "greeting" =
    Some (Rejected TypeError, [Some (1, 0); Some (6, 0)]) ∧
  settle Examples.apply [] (greeted [1; 6; 2]) "greeting" =
    Some (Rejected TypeError, [Some (1, 0); Some (6, 0)]) ∧
  series Examples.apply [] (greeted [1; 6; 2]) "greeting" =
    Some (Rejected TypeError, [Some (1, 0); Some (6, 0)]).
Proof.
  apply (plain_value_rejects_with_TypeError Examples.apply [] (greeted [1; 6; 2])
           "greeting" [Some (1, 0)] [Some (2, 0)] (Some (6, 0)) (VNum 1)).
  - vm_compute. reflexivity.
  - apply Forall_cons_2; [by exists VUndefined|apply Forall_nil_2].
  - reflexivity.
  - reflexivity.
Defined.

(** Listener four throws: behind listener one, which returns nothing, and
    behind listener three, whose promise rejects. *)
Lemma resolve_with_a_throwing_listener_witness :
  resolve Examples.apply [] (greeted [1; 4; 2]) "greeting" =
    Some (Rejected boom, [Some (1, 0); Some (4, 0)]) ∧
  resolve Examples.apply [] (greeted [3; 4; 2]) "greeting" =
    Some (Pending, [Some (3, 0); Some (4, 0)]).
Proof.
  split.
  - apply (proj1 (resolve_with_a_throwing_listener Examples.apply [] (greeted [1; 4; 2])
                    "greeting" [Some (1, 0)] [Some (2, 0)] (Some (4, 0)) boom
                    ltac:(vm_compute; reflexivity)
                    ltac:(apply Forall_cons_2;
                          [left; by exists VUndefined|apply Forall_nil_2])
                    eq_refl)).
    apply Forall_cons_2; [by exists VUndefined|apply Forall_nil_2].
  - apply (proj2 (resolve_with_a_throwing_listener Examples.apply [] (greeted [3; 4; 2])
                    "greeting" [Some (3, 0)] [Some (2, 0)] (Some (4, 0)) boom
                    ltac:(vm_compute; reflexivity)
                    ltac:(apply Forall_cons_2;
                          [right; by exists boom|apply Forall_nil_2])
                    eq_refl)).
    apply Exists_cons_hd. by exists boom.
Defined.


End EmitterEdges.

Module RetryFacts.

Import Action.






Lemma process_again_settled (a : Action) (o : outcome) (n : nat) :
  o ≠ Pending → completion_of a = Some o →
  let a' := Nat.iter n (λ a, (process a).1) a in
  completion_of a' = Some o ∧ complete a' = complete a ∧
  List.length (promises a') = List.length (promises a).
Proof.
  intros Ho Hc. induction n as [|n (IH1 & IH2 & IH3)]; [done|]. rewrite Nat.iter_succ.
  split; [by apply ActionFacts.process_settled|]. split.
  - by destruct (ActionFacts.process_keeps_complete
                   (Nat.iter n (λ a, (process a).1) a)) as [-> _].
  - by rewrite ActionFacts.process_keeps_length.
Qed.

(** X14. The first failure stays.  After the wrapped function has failed
    with [e], [complete] is rejected with [e] and no call of [process]
    changes that, whatever the wrapped function does when it is called
    again: [process] makes no new promise, only [reset] does. *)
Theorem first_failure_stays (a : Action) (e : value) (n : nat) :
  fresh a → fails_next a e →
  let a' := Nat.iter n (λ a, (process a).1) (process a).1 in
  completion_of a' = Some (Rejected e) ∧ complete a' = complete a ∧
  List.length (promises a') = List.length (promises a).
Proof.
  intros Hfresh Hfail a'.
  destruct (ActionFacts.process_failure a e Hfresh Hfail) as [Hrej _].
  destruct (process_again_settled (process a).1 (Rejected e) n) as (H1 & H2 & H3);
    [done|done|].
  subst a'. split; [done|]. split.
  - rewrite H2. by destruct (ActionFacts.process_keeps_complete a) as [-> _].
  - by rewrite H3, ActionFacts.process_keeps_length.
Qed.

(** *** The statements on the actions of [Examples] *)



(** The action of [Examples.flaky] fails at the first call and succeeds at
    the two that follow. *)
Lemma first_failure_stays_witness :
  let a' := Nat.iter 2 (λ a, (process a).1) (process (new Examples.flaky)).1 in
  completion_of a' = Some (Rejected Examples.boom) ∧
  complete a' = complete (new Examples.flaky) ∧
  List.length (promises a') = List.length (promises (new Examples.flaky)).
Proof.
  exact (first_failure_stays (new Examples.flaky) Examples.boom 2
           (ActionFacts.fresh_new _) (or_introl eq_refl)).
Defined.

End RetryFacts.

Module RequestFacts.

Import JSONAPI.

(** *** [_processRequests] *)

Section Processing.

Variables transform query request : Type.
Variable getTransformRequests : transform → list request.
Variable getFetchRequests : query → list request.
Variable processors : request → processed transform.

Local Abbreviation processRequests_from :=
  (processRequests_from (query := query) processors).
Local Abbreviation _processRequests := (_processRequests (query := query) processors).
Local Abbreviation _transform := (_transform (query := query) getTransformRequests).
Local Abbreviation _fetch := (_fetch (transform := transform) getFetchRequests).

Lemma processRequests_succeed (requests : list request) :
  Forall (request_succeeds processors) requests →
  ∀ transforms dispatched,
    processRequests_from requests transforms dispatched =
    (Resolves (transforms ++ (requests ≫= added processors)), dispatched ++ requests).
Proof.
  induction 1 as [|r requests [x Hr] _ IH]; intros transforms dispatched.
  - cbn. by rewrite !app_nil_r.
  - cbn [JSONAPI.processRequests_from]. rewrite Hr, IH.
    rewrite bind_cons. unfold added at 2. rewrite Hr.
    by rewrite <- !app_assoc.
Qed.

Lemma processRequests_ahead (pre rest : list request) :
  Forall (request_succeeds processors) pre →
  ∀ transforms dispatched,
    processRequests_from (pre ++ rest) transforms dispatched =
    processRequests_from rest (transforms ++ (pre ≫= added processors))
      (dispatched ++ pre).
Proof.
  induction 1 as [|r pre [x Hr] _ IH]; intros transforms dispatched.
  - cbn. by rewrite !app_nil_r.
  - cbn [app JSONAPI.processRequests_from]. rewrite Hr, IH.
    rewrite bind_cons. unfold added at 2. rewrite Hr.
    by rewrite <- !app_assoc.
Qed.

(** X15. When the processor of every request succeeds, [_processRequests]
    dispatches the requests one after the other, all of them and in their
    order, and resolves with the transforms the processors added, in the
    order of the requests; with no request it resolves with none. *)
Theorem processRequests_gathers_in_order (requests : list request) :
  Forall (request_succeeds processors) requests →
  _processRequests requests =
  (Resolves (requests ≫= added processors), requests).
Proof. intros Hall. unfold JSONAPI._processRequests. by rewrite processRequests_succeed. Qed.

(** X16. The first request whose processor fails, or never answers, ends
    the chain: the promise is rejected with the error of that processor, or
    stays pending, the transforms gathered so far are lost, and the requests
    behind that one are not dispatched. *)
Theorem processRequests_stops_at_first_failure (pre post : list request)
    (r : request) :
  Forall (request_succeeds processors) pre →
  (∀ e, request_fails processors r e →
        _processRequests (pre ++ r :: post) = (Rejects (Other e), pre ++ [r])) ∧
  (processors r = Hangs →
   _processRequests (pre ++ r :: post) = (Unsettled, pre ++ [r])).
Proof.
  intros Hpre. unfold JSONAPI._processRequests. rewrite processRequests_ahead by done.
  cbn [JSONAPI.processRequests_from app]. split.
  - by intros e [-> | ->].
  - by intros ->.
Qed.

Lemma exceeds_within (limit : option Z) (requests : list request) :
  within limit (List.length requests) → exceeds limit requests = false.
Proof.
  unfold within, exceeds, truthy_num. destruct limit as [limit|]; [|done].
  intros [-> | Hle]; [done|]. cbn. apply andb_false_iff. right. lia.
Qed.

(** X17. The caps let through what is within the limit: with no limit,
    with a limit of zero, or with no more requests than the limit, as many
    as the limit included, [_fetch] is [_processRequests] on the requests of
    the query, and [_transform] with processors that all succeed dispatches
    every request and resolves with the transform itself in front of the
    transforms the processors added. *)
Theorem caps_let_through_within_limit (src : JSONAPISource) :
  (∀ t, within (maxRequestsPerTransform src) (List.length (getTransformRequests t)) →
        Forall (request_succeeds processors) (getTransformRequests t) →
        _transform src processors t =
        (Resolves (t :: (getTransformRequests t ≫= added processors)),
         getTransformRequests t)) ∧
  (∀ q, within (maxRequestsPerFetch src) (List.length (getFetchRequests q)) →
        _fetch src processors q = _processRequests (getFetchRequests q)).
Proof.
  split.
  - intros t Hin Hall. unfold JSONAPI._transform.
    rewrite exceeds_within by done.
    unfold JSONAPI._processRequests. by rewrite processRequests_succeed.
  - intros q Hin. unfold JSONAPI._fetch. by rewrite exceeds_within.
Qed.

End Processing.

(** *** URLs *)

Lemma join_last (parts : list string) (x y : string) :
  join "/" (parts ++ [(x ++ y)%string]) = (join "/" (parts ++ [x]) ++ y)%string.
Proof.
  induction parts as [|p parts IH]; [done|].
  cbn [app]. destruct parts as [|p' parts].
  - cbn. by rewrite !JSONAPIFacts.append_assoc.
  - change (join "/" (p :: (p' :: parts) ++ [(x ++ y)%string]))
      with (p ++ "/" ++ join "/" ((p' :: parts) ++ [(x ++ y)%string]))%string.
    rewrite IH.
    change (join "/" (p :: (p' :: parts) ++ [x]))
      with (p ++ "/" ++ join "/" ((p' :: parts) ++ [x]))%string.
    by rewrite !JSONAPIFacts.append_assoc.
Qed.

Lemma resourceURL_path (src : JSONAPISource) (type : string) (id : option string) :
  resourceURL src type id =
  (match present (host src) with Some _ => "" | None => "/" end ++
   join "/" (segment (host src) ++ segment (namespace src) ++
             [resourcePath src type id]))%string.
Proof.
  unfold resourceURL, resourceHost, resourceNamespace.
  rewrite !JSONAPIFacts.push_present_segment. cbn [app].
  rewrite <- app_assoc. by destruct (present (host src)).
Qed.

(** X18. The URL of a record is the URL of the records of its type with
    [/] and the serialized id behind it; with no id, an empty one, or one
    the serializer has no resource id for, it is the URL of the records of
    the type. *)
Theorem record_url_extends_type_url (src : JSONAPISource) (type : string)
    (id : option string) :
  (∀ i rid, present id = Some i →
            present (resourceId (serializer src) type i) = Some rid →
            resourceURL src type id =
            (resourceURL src type None ++ "/" ++ rid)%string) ∧
  (present id = None → resourceURL src type id = resourceURL src type None) ∧
  (∀ i, present id = Some i →
        present (resourceId (serializer src) type i) = None →
        resourceURL src type id = resourceURL src type None).
Proof.
  rewrite !resourceURL_path. unfold resourcePath, push_present. cbn [present].
  split; [|split].
  - intros i rid -> ->. cbn [app join].
    rewrite app_assoc, join_last, <- app_assoc.
    by rewrite !JSONAPIFacts.append_assoc.
  - by intros ->.
  - by intros i -> ->.
Qed.

(** *** [ajax] *)

Section AjaxFacts.

Variable JSON_stringify : value → string.
Variable headers : Type.
Variable source_headers : headers.

(** X19. [ajax] prepares the settings it is given in place.  For a GET, or
    without data, the data and the content type go through as they are, and
    preparing the same settings again changes nothing more.  Otherwise the
    data are replaced by their JSON text, and a second call with the same
    settings and method encodes that text once more; content type and
    headers stay as the first call left them. *)
Theorem ajax_prepares_in_place (transport transport' : ajaxSettings headers → reply)
    (src : JSONAPISource) (url method : string) (settings : ajaxSettings headers) :
  let once := (ajax JSON_stringify source_headers transport src url method settings).1 in
  let twice := (ajax JSON_stringify source_headers transport' src url method once).1 in
  (with_body method settings = false →
   settings_data once = settings_data settings ∧
   settings_contentType once = settings_contentType settings ∧
   twice = once) ∧
  (with_body method settings = true → (∀ v, JSON_stringify v ≠ "") →
   settings_data once = VStr (JSON_stringify (settings_data settings)) ∧
   (∃ contentType, settings_contentType once = Some contentType ∧ contentType ≠ "") ∧
   settings_data twice =
     VStr (JSON_stringify (VStr (JSON_stringify (settings_data settings)))) ∧
   settings_contentType twice = settings_contentType once ∧
   settings_headers twice = settings_headers once).
Proof.
  unfold ajax. cbn [fst]. split.
  - intros Hb. unfold JSONAPI.ajax_settings. rewrite Hb. cbn.
    unfold with_body in *. cbn. rewrite Hb.
    split; [done|]. split; [done|]. by destruct (settings_headers settings).
  - intros Hb Hne. unfold JSONAPI.ajax_settings. rewrite Hb. cbn.
    assert (with_body method
              (mkSettings (Some url) (Some method) (Some "json") (Some src)
                 (VStr (JSON_stringify (settings_data settings)))
                 (match present (settings_contentType settings) with
                  | Some contentType => Some contentType
                  | None => Some ajaxContentType
                  end)
                 (match settings_headers settings with
                  | Some h => Some h
                  | None => Some (ajaxHeaders source_headers)
                  end)) = true) as ->.
    { unfold with_body in *. cbn. apply andb_true_iff in Hb as [_ ->].
      rewrite andb_true_r. apply negb_true_iff, String.eqb_neq, Hne. }
    split; [done|]. split; [|split; [done|split]].
    + destruct (present (settings_contentType settings)) as [ct|] eqn:Hct.
      * exists ct. split; [done|]. unfold present in Hct.
        destruct (settings_contentType settings) as [ct'|]; [|done].
        destruct (String.eqb ct' "") eqn:Hempty; [done|].
        injection Hct as <-. by apply String.eqb_neq.
      * by exists ajaxContentType.
    + destruct (present (settings_contentType settings)) as [ct|] eqn:Hct; [|done].
      cbn. unfold present in Hct.
      destruct (settings_contentType settings) as [ct'|]; [|done].
      destruct (String.eqb ct' "") eqn:Hempty; [done|].
      injection Hct as <-. by rewrite Hempty.
    + by destruct (settings_headers settings).
Qed.

End AjaxFacts.

(** *** The statements on the sources of [Examples] *)

Import Examples.

Lemma processRequests_gathers_in_order_witness :
  _processRequests (query := list nat) answer [2; 3] = (Resolves [[2]; [3]], [2; 3]).
Proof.
  apply (processRequests_gathers_in_order (list nat) (list nat) nat answer [2; 3]).
  apply Forall_cons_2; [by eexists|]. apply Forall_cons_2; [by eexists|].
  apply Forall_nil_2.
Defined.

(** Request zero fails behind request two; request three is not sent. *)
Lemma processRequests_stops_at_first_failure_witness :
  _processRequests (query := list nat) answer [2; 0; 3] = (Rejects (Other boom), [2; 0]) ∧
  _processRequests (query := list nat) answer [2; 1; 3] = (Unsettled, [2; 1]).
Proof.
  split.
  - apply (proj1 (processRequests_stops_at_first_failure (list nat) (list nat) nat answer
                    [2] [3] 0 ltac:(apply Forall_cons_2; [by eexists|apply Forall_nil_2]))
             boom).
    by left.
  - apply (proj2 (processRequests_stops_at_first_failure (list nat) (list nat) nat answer
                    [2] [3] 1 ltac:(apply Forall_cons_2; [by eexists|apply Forall_nil_2]))).
    reflexivity.
Defined.

(** With a limit of one, one request goes through. *)
Lemma caps_let_through_within_limit_witness :
  _transform (query := list nat) requests_of one_at_most answer [2] =
    (Resolves [[2]; [2]], [2]) ∧
  _fetch requests_of one_at_most answer [2] =
    _processRequests (query := list nat) answer [2].
Proof.
  destruct (caps_let_through_within_limit (list nat) (list nat) nat requests_of requests_of
              answer one_at_most) as [Htransform Hfetch].
  split.
  - apply (Htransform [2]).
    + right. simpl. lia.
    + apply Forall_cons_2; [by eexists|apply Forall_nil_2].
  - apply (Hfetch [2]). right. simpl. lia.
Defined.

Lemma record_url_extends_type_url_witness :
  resourceURL hosted "planet" (Some "jupiter") =
    (resourceURL hosted "planet" None ++ "/" ++ "jupiter")%string ∧
  resourceURL hosted "planet" (Some "") = resourceURL hosted "planet" None.
Proof.
  split.
  - apply (proj1 (record_url_extends_type_url hosted "planet" (Some "jupiter"))
             "jupiter" "jupiter"); reflexivity.
  - apply (proj1 (proj2 (record_url_extends_type_url hosted "planet" (Some "")))).
    reflexivity.
Defined.

(** A POST of a document, prepared twice. *)
Lemma ajax_prepares_in_place_witness :
  with_body "POST" posting = true ∧
  (∀ v, stringify v ≠ "") ∧
  settings_data (ajax stringify "accept" (λ _, Silent) bare "/planets" "POST" posting).1 =
    VStr "{}" ∧
  settings_data
    (ajax stringify "accept" (λ _, Silent) bare "/planets" "POST"
       (ajax stringify "accept" (λ _, Silent) bare "/planets" "POST" posting).1).1 =
    VStr "text".
Proof.
  assert (∀ v, stringify v ≠ "") as Hne by (by intros []).
  split; [reflexivity|]. split; [exact Hne|].
  destruct (proj2 (ajax_prepares_in_place stringify string "accept" (λ _, Silent)
                     (λ _, Silent) bare "/planets" "POST" posting) eq_refl Hne)
    as (Honce & _ & Htwice & _).
  split; [exact Honce | exact Htwice].
Defined.

End RequestFacts.

Module LinkFacts.

Import JSONAPI Integrity.

Lemma hooks_addToHasMany c r rel y :
  hooks c (addToHasMany r rel y) = addRevLinks r rel [y] c.
Proof. reflexivity. Qed.

Lemma hooks_removeFromHasMany c r rel y :
  hooks c (removeFromHasMany r rel y) = removeRevLinks r rel [y] c.
Proof. reflexivity. Qed.

(** X21. [addToHasMany(X, R, Y)], through the hooks of the processor as the
    tests call them, files the path of the slot of [X.R] that points at [Y]
    under [Y] and changes no other entry of the index; the hooks return no
    operation of their own. *)
Theorem addToHasMany_files_the_pointer (c : cache) (X Y : identity) (R : string) :
  let op := addToHasMany X R Y in
  let c' := hooks c op in
  entry c' Y (sourcePath c X R Y) ∧
  (∀ y p, entry c' y p ↔ entry c y p ∨ (y = Y ∧ p = sourcePath c X R Y)) ∧
  (before c op).2 = [] ∧ (after c op).2 = [] ∧ (finally c op).2 = [].
Proof.
  intros op c'. subst op c'. rewrite hooks_addToHasMany. unfold entry.
  assert (∀ y p, p ∈ back_pointers (addRevLinks X R [Y] c) y ↔
                 p ∈ back_pointers c y ∨ (y = Y ∧ p = sourcePath c X R Y)) as Hentries.
  { intros y p. rewrite IntegrityFacts.elem_of_addRevLinks, list_elem_of_singleton.
    split; (intros [H|[-> ->]]; [by left|by right]). }
  split; [|by split]. apply Hentries. by right.
Qed.

(** X22. [removeFromHasMany(X, R, Y)], through the hooks of the processor,
    clears the entry of the slot of [X.R] that points at [Y] and no other;
    after [addToHasMany(X, R, Y)] it gives back the entries there were, when
    that entry was not among them. *)
Theorem removeFromHasMany_clears_the_pointer (c : cache) (X Y : identity) (R : string) :
  (∀ y p, entry (hooks c (removeFromHasMany X R Y)) y p ↔
          entry c y p ∧ ¬ (y = Y ∧ p = sourcePath c X R Y)) ∧
  (¬ entry c Y (sourcePath c X R Y) →
   ∀ y p, entry (hooks (hooks c (addToHasMany X R Y)) (removeFromHasMany X R Y)) y p ↔
          entry c y p).
Proof.
  assert (∀ c y p, p ∈ back_pointers (removeRevLinks X R [Y] c) y ↔
                   p ∈ back_pointers c y ∧ ¬ (y = Y ∧ p = sourcePath c X R Y)) as Hcleared.
  { intros c0 y p. rewrite IntegrityFacts.elem_of_removeRevLinks, list_elem_of_singleton.
    split; (intros [H Hnot]; split; [done|]; intros [-> ->]; by apply Hnot). }
  split.
  - intros y p. rewrite hooks_removeFromHasMany. apply Hcleared.
  - intros Hnew y p. rewrite hooks_removeFromHasMany. unfold entry in *.
    rewrite Hcleared, hooks_addToHasMany.
    rewrite (IntegrityFacts.sourcePath_kind c (addRevLinks X R [Y] c))
      by apply IntegrityFacts.addRevLinks_kind.
    rewrite IntegrityFacts.elem_of_addRevLinks, list_elem_of_singleton.
    split.
    + intros [[H|[-> ->]] Hnot]; [done|by destruct Hnot].
    + intros H. split; [by left|]. intros [-> ->]. by apply Hnew.
Qed.

(** *** The statements on the records of the tests *)

Import Planets.

(** 'add to hasMany => hasMany' and 'remove from hasMany => hasMany': earth
    and human, not related yet. *)
Lemma removeFromHasMany_clears_the_pointer_witness :
  ¬ entry earth_human_apart (inhabitant "human")
      (sourcePath earth_human_apart (planet "earth") "inhabitants" (inhabitant "human")) ∧
  (entry (hooks (hooks earth_human_apart
                   (addToHasMany (planet "earth") "inhabitants" (inhabitant "human")))
                (removeFromHasMany (planet "earth") "inhabitants" (inhabitant "human")))
         (inhabitant "human") "planet/earth/relationships/inhabitants/data/inhabitant:human" ↔
   entry earth_human_apart (inhabitant "human")
         "planet/earth/relationships/inhabitants/data/inhabitant:human").
Proof.
  assert (¬ entry earth_human_apart (inhabitant "human")
            (sourcePath earth_human_apart (planet "earth") "inhabitants"
               (inhabitant "human"))) as Hnew.
  { unfold entry. apply (bool_decide_unpack _). vm_compute. exact I. }
  split; [exact Hnew|].
  exact (proj2 (removeFromHasMany_clears_the_pointer earth_human_apart (planet "earth")
                  (inhabitant "human") "inhabitants") Hnew (inhabitant "human") _).
Defined.

End LinkFacts.
